(** * editor-imagenes-marathon: the resizer and the batch runner of [main.py]

    A shallow embedding of [resize_image], [process_image],
    [extract_and_process_images] and [process_images], and the properties
    of the specification checked against it.

    - Python integers are [Z]; Python floats are IEEE 754 binary64 values,
      taken from the Standard Library's [SpecFloat] ([prec = 53],
      [emax = 1024]), so [/], [*] and [int()] round exactly as CPython does.
    - Exceptions are a sum type [result]; the code that touches the file
      system threads a [World] explicitly.
    - The imaging library is modelled by what it does to the size and the
      mode of an image; [Image.resize] refuses a target size with a
      component below 1, as Pillow does ("height and width must be > 0").
    - Paths are POSIX strings and name files and folders as they are
      written: the model is the program on paths in normal form (absolute,
      without [.], [..], doubled or trailing separators), on a file system
      without links.  The statements that depend on which object a path
      names say so with [canonical].
    - The tasks of a worker pool end in an order the scheduler chooses; the
      model takes that order as an argument, [sched], and every statement
      holds for all of them.
    - Permissions and disk space are outside the model. *)

From Stdlib Require Import ZArith QArith Qpower Lqa Lia String Ascii List.
From Stdlib Require Import Floats.SpecFloat.
From stdpp Require Import gmap strings list fin_maps pretty.

Set Warnings "-register-all".

Local Open Scope string_scope.
Local Open Scope Z_scope.

(* ===================================================================== *)
(** * Part I: the model *)
(* ===================================================================== *)

(** ** Exceptions *)

Inductive exn :=
| ZeroDivisionError (msg : string)
| OverflowError (msg : string)
| ValueError (msg : string)
| OSError (msg : string)
| FileNotFoundError (msg : string)
| FileExistsError (msg : string)
| NotADirectoryError (msg : string)
| IsADirectoryError (msg : string)
| UnidentifiedImageError (msg : string)
| BadZipFile (msg : string).

(** [str(e)] *)
Definition str_exn (e : exn) : string :=
  match e with
  | ZeroDivisionError m | OverflowError m | ValueError m | OSError m
  | FileNotFoundError m | FileExistsError m | NotADirectoryError m
  | IsADirectoryError m | UnidentifiedImageError m | BadZipFile m => m
  end.

Inductive result (A : Type) :=
| Ok (a : A)
| Raise (e : exn).
Arguments Ok {A} a.
Arguments Raise {A} e.

Global Instance result_ret : MRet result := fun _ a => Ok a.
Global Instance result_bind : MBind result := fun _ _ f r =>
  match r with
  | Ok a => f a
  | Raise e => Raise e
  end.

Definition is_ok {A} (r : result A) : bool :=
  match r with Ok _ => true | Raise _ => false end.

(** ** Python floats *)

Definition prec : Z := 53.
Definition emax : Z := 1024.

(** An integer as an exact, unnormalised operand of a float operation. *)
Definition int_operand (z : Z) : spec_float :=
  match z with
  | Z0 => S754_zero false
  | Zpos p => S754_finite false p 0
  | Zneg p => S754_finite true p 0
  end.

(** [a / b] on two ints: the correctly rounded quotient. *)
Definition int_truediv (a b : Z) : result spec_float :=
  if b =? 0 then Raise (ZeroDivisionError "division by zero")
  else match SFdiv prec emax (int_operand a) (int_operand b) with
       | S754_infinity _ =>
           Raise (OverflowError "integer division result too large for a float")
       | f => Ok f
       end.

(** [float(z)], the conversion applied to the int operand of a mixed
    operation. *)
Definition float_of_int (z : Z) : result spec_float :=
  match binary_normalize prec emax z 0 false with
  | S754_infinity _ => Raise (OverflowError "int too large to convert to float")
  | f => Ok f
  end.

Definition float_is_zero (f : spec_float) : bool :=
  match f with S754_zero _ => true | _ => false end.

(** [n / x] with [n] an int and [x] a float. *)
Definition int_div_float (n : Z) (x : spec_float) : result spec_float :=
  fn ← float_of_int n;
  if float_is_zero x then Raise (ZeroDivisionError "float division by zero")
  else Ok (SFdiv prec emax fn x).

(** [n * x] with [n] an int and [x] a float. *)
Definition int_mul_float (n : Z) (x : spec_float) : result spec_float :=
  fn ← float_of_int n;
  Ok (SFmul prec emax fn x).

(** [x > 1] *)
Definition float_one : spec_float := binary_normalize prec emax 1 0 false.
Definition float_gt_one (x : spec_float) : bool := SFltb float_one x.

(** [int(x)]: truncation toward zero. *)
Definition int_of_float (x : spec_float) : result Z :=
  match x with
  | S754_nan => Raise (ValueError "cannot convert float NaN to integer")
  | S754_infinity _ =>
      Raise (OverflowError "cannot convert float infinity to integer")
  | S754_zero _ => Ok 0
  | S754_finite s m e =>
      Ok (cond_Zopp s (if 0 <=? e then Z.shiftl (Z.pos m) e
                       else Z.shiftr (Z.pos m) (- e)))
  end.

(** ** Images, as far as the imaging library's size and mode rules go *)

Inductive Mode := ModeL | ModeP | ModeRGB | ModeRGBA | ModeLA | ModeCMYK.

Inductive Image :=
| Decoded (w h : Z) (m : Mode)                  (* pixels read from a file *)
| Resized (src : Image) (w h : Z)               (* Lanczos resampling *)
| Blank (m : Mode) (w h : Z) (color : Z * Z * Z)
| Pasted (bg fg : Image) (ox oy : Z).

Fixpoint width (img : Image) : Z :=
  match img with
  | Decoded w _ _ | Resized _ w _ | Blank _ w _ _ => w
  | Pasted bg _ _ _ => width bg
  end.

Fixpoint height (img : Image) : Z :=
  match img with
  | Decoded _ h _ | Resized _ _ h | Blank _ _ h _ => h
  | Pasted bg _ _ _ => height bg
  end.

Fixpoint mode (img : Image) : Mode :=
  match img with
  | Decoded _ _ m | Blank m _ _ _ => m
  | Resized src _ _ => mode src
  | Pasted bg _ _ _ => mode bg
  end.

Definition has_alpha (m : Mode) : bool :=
  match m with ModeRGBA | ModeLA => true | _ => false end.

(** [img.resize((w, h), Image.LANCZOS)] *)
Definition Image_resize (img : Image) (size : Z * Z) : result Image :=
  if (size.1 <? 1) || (size.2 <? 1)
  then Raise (ValueError "height and width must be > 0")
  else Ok (Resized img size.1 size.2).

(** [Image.new(mode, size, color)] *)
Definition Image_new (m : Mode) (size : Z * Z) (color : Z * Z * Z)
  : result Image :=
  if (size.1 <? 0) || (size.2 <? 0)
  then Raise (ValueError "Width and height must be >= 0")
  else Ok (Blank m size.1 size.2 color).

(** [bg.paste(fg, offset)], returning the canvas it has drawn on. *)
Definition Image_paste (bg fg : Image) (offset : Z * Z) : Image :=
  Pasted bg fg offset.1 offset.2.

(** The four margins left around the pasted content. *)
Definition margins (img : Image) : option (Z * Z * Z * Z) :=
  match img with
  | Pasted bg fg ox oy =>
      Some (ox, width bg - (ox + width fg), oy, height bg - (oy + height fg))
  | _ => None
  end.

Definition default_size : Z * Z := (2500, 2500).

(** ** [resize_image] *)

Definition scaled_size (w h : Z) (output_size : Z * Z) : result (Z * Z) :=
  aspect_ratio ← int_truediv w h;
  if float_gt_one aspect_ratio then
    let new_width := output_size.1 in
    q ← int_div_float new_width aspect_ratio;
    new_height ← int_of_float q;
    Ok (new_width, new_height)
  else
    let new_height := output_size.2 in
    q ← int_mul_float new_height aspect_ratio;
    new_width ← int_of_float q;
    Ok (new_width, new_height).

Definition resize_image (img : Image) (output_size : Z * Z) : result Image :=
  '(new_width, new_height) ← scaled_size (width img) (height img) output_size;
  img_resized ← Image_resize img (new_width, new_height);
  background ← Image_new ModeRGB output_size (255, 255, 255);
  let offset := ((output_size.1 - new_width) `div` 2,
                 (output_size.2 - new_height) `div` 2) in
  Ok (Image_paste background img_resized offset).

(** ** Strings and POSIX paths *)

Definition is_sep (c : ascii) : bool := Ascii.eqb c "/".

Fixpoint has_sep (s : string) : bool :=
  match s with
  | EmptyString => false
  | String c s' => is_sep c || has_sep s'
  end.

(** [os.path.basename]: what follows the last separator. *)
Fixpoint basename (p : string) : string :=
  match p with
  | EmptyString => EmptyString
  | String c p' => if has_sep p then basename p' else p
  end.

Definition startswith_sep (s : string) : bool :=
  match s with
  | String c _ => is_sep c
  | EmptyString => false
  end.

Fixpoint endswith_sep (s : string) : bool :=
  match s with
  | EmptyString => false
  | String c EmptyString => is_sep c
  | String _ s' => endswith_sep s'
  end.

(** [os.path.join(a, b)] *)
Definition join (a b : string) : string :=
  if startswith_sep b then b
  else if String.eqb a "" || endswith_sep a then a ++ b
  else a ++ "/" ++ b.

(** [s.rstrip('/')] *)
Fixpoint rstrip_sep (s : string) : string :=
  match s with
  | EmptyString => EmptyString
  | String c s' =>
      let r := rstrip_sep s' in
      if String.eqb r "" && is_sep c then EmptyString else String c r
  end.

(** What precedes the base name, the last separator included. *)
Fixpoint head_of (p : string) : string :=
  match p with
  | EmptyString => EmptyString
  | String c p' => if has_sep p then String c (head_of p') else EmptyString
  end.

(** [os.path.dirname]: the head without its trailing separators, unless it
    is made of separators only. *)
Definition dirname (p : string) : string :=
  let head := head_of p in
  if String.eqb (rstrip_sep head) "" then head else rstrip_sep head.

(** [str.lower()] on the ASCII letters; bytes of other characters are kept,
    which decides every comparison with an ASCII constant as Python does. *)
Definition lower_ascii (c : ascii) : ascii :=
  let n := nat_of_ascii c in
  if (65 <=? n)%nat && (n <=? 90)%nat then ascii_of_nat (n + 32) else c.

Fixpoint lower (s : string) : string :=
  match s with
  | EmptyString => EmptyString
  | String c s' => String (lower_ascii c) (lower s')
  end.

(** [s.endswith(suffix)] *)
Fixpoint endswith (s suffix : string) : bool :=
  String.eqb s suffix ||
  match s with
  | EmptyString => false
  | String _ s' => endswith s' suffix
  end.

(** Truth value of a returned path in [if result:]. *)
Definition truthy (r : option string) : bool :=
  match r with
  | Some p => negb (String.eqb p "")
  | None => false
  end.

(** ** The file system *)

(** A directory as [os.walk] lists it: the regular files, then the
    subdirectories.  In an archive the files carry their content. *)
Inductive DirTree (A : Type) :=
| Dir (files : list (string * A)) (subdirs : list (string * DirTree A)).
Arguments Dir {A} files subdirs.

(** What a member of an archive holds. *)
Inductive Payload :=
| PImage (format : string) (img : Image)
| POther.

(** What a regular file holds: something the imaging library decodes; an
    image it identifies and then fails to read (truncated or corrupt data),
    with the text of the error it raises; a zip archive ([intact = false]:
    extraction stops on a damaged member once the listed ones are written);
    or anything else. *)
Inductive Content :=
| ImageFile (format : string) (img : Image)
| BrokenImage (reason : string)
| ZipArchive (members : DirTree Payload) (intact : bool)
| OtherFile.

Definition content_of_payload (p : Payload) : Content :=
  match p with
  | PImage f img => ImageFile f img
  | POther => OtherFile
  end.

Record World := {
  w_files : gmap string Content;          (* regular files, by path *)
  w_dirs : gmap string (DirTree unit);    (* directories, by path: what
                                             [os.walk] lists below each *)
  w_log : list string                     (* records of [logger.error] *)
}.

Definition isfile (w : World) (p : string) : bool :=
  bool_decide (is_Some (w_files w !! p)).

Definition isdir (w : World) (p : string) : bool :=
  bool_decide (is_Some (w_dirs w !! p)).

(** [os.path.exists] *)
Definition path_exists (w : World) (p : string) : bool := isfile w p || isdir w p.

Definition set_files (w : World) (fs : gmap string Content) : World :=
  {| w_files := fs; w_dirs := w_dirs w; w_log := w_log w |}.

Definition set_dirs (w : World) (ds : gmap string (DirTree unit)) : World :=
  {| w_files := w_files w; w_dirs := ds; w_log := w_log w |}.

Definition logger_error (w : World) (msg : string) : World :=
  {| w_files := w_files w; w_dirs := w_dirs w; w_log := (w_log w ++ [msg])%list |}.

(** The text of an [OSError]. *)
Definition os_error (errno what path : string) : string :=
  "[Errno " ++ errno ++ "] " ++ what ++ ": '" ++ path ++ "'".

(** The proper ancestors of a path: what precedes each separator. *)
Fixpoint ancestors_from (acc s : string) : list string :=
  match s with
  | EmptyString => []
  | String c s' =>
      ((if is_sep c && negb (String.eqb acc "") then [acc] else [])
       ++ ancestors_from (acc ++ String c EmptyString) s')%list
  end.

(** The folders [os.makedirs] makes sure of, from the top: a folder that
    exists is kept, a missing one is created empty, and a regular file in
    the way stops the call, with [FileExistsError] when it stands at the
    folder asked for and with [NotADirectoryError], raised by the [mkdir] of
    the next folder, when it stands above.  A folder created holds no file,
    and the listing of a folder above it is kept as it was: a walk from
    there finds the same files. *)
Fixpoint mkdir_chain (w : World) (chain : list string) : result World :=
  match chain with
  | [] => Ok w
  | d :: rest =>
      if isdir w d then mkdir_chain w rest
      else if isfile w d then
        Raise (match rest with
               | [] => FileExistsError (os_error "17" "File exists" d)
               | d' :: _ => NotADirectoryError (os_error "20" "Not a directory" d')
               end)
      else mkdir_chain (set_dirs w (<[d := Dir [] []]> (w_dirs w))) rest
  end.

(** [os.makedirs(name, exist_ok=True)] *)
Definition makedirs (w : World) (name : string) : result World :=
  if String.eqb name ""
  then Raise (FileNotFoundError (os_error "2" "No such file or directory" ""))
  else mkdir_chain w (ancestors_from "" name ++ [name])%list.

(** [os.walk(top)]: one triple [(root, dirs, files)] per directory, top down. *)
Fixpoint walk {A} (root : string) (t : DirTree A)
  : list (string * list string * list string) :=
  match t with
  | Dir files subdirs =>
      (root, map fst subdirs, map fst files)
      :: (fix walk_all (l : list (string * DirTree A))
            : list (string * list string * list string) :=
            match l with
            | [] => []
            | (d, sub) :: l' => (walk (join root d) sub ++ walk_all l')%list
            end) subdirs
  end.

(** The listing of an archive's tree, once it is on disk. *)
Fixpoint listing (t : DirTree Payload) : DirTree unit :=
  match t with
  | Dir files subdirs =>
      Dir (map (fun f => (f.1, tt)) files)
          ((fix listing_all (l : list (string * DirTree Payload))
              : list (string * DirTree unit) :=
              match l with
              | [] => []
              | (d, sub) :: l' => (d, listing sub) :: listing_all l'
              end) subdirs)
  end.

(** The files an archive's tree puts under [root]. *)
Fixpoint extracted (root : string) (t : DirTree Payload)
  : list (string * Content) :=
  match t with
  | Dir files subdirs =>
      (map (fun f => (join root f.1, content_of_payload f.2)) files
      ++ (fix extracted_all (l : list (string * DirTree Payload))
            : list (string * Content) :=
            match l with
            | [] => []
            | (d, sub) :: l' =>
                (extracted (join root d) sub ++ extracted_all l')%list
            end) subdirs)%list
  end.

Definition write_file (fs : gmap string Content) (f : string * Content)
  : gmap string Content := <[f.1 := f.2]> fs.

(** A path below the directory [d]. *)
Definition under (d p : string) : bool := String.prefix (d ++ "/") p.

(** ** [process_image] *)

(** [Image.open(path)], with the reading of the pixels that [resize] starts
    with: nothing is written between the two. *)
Definition Image_open (w : World) (path : string) : result Image :=
  match w_files w !! path with
  | Some (ImageFile _ img) => Ok img
  | Some (BrokenImage reason) => Raise (OSError reason)
  | Some _ =>
      Raise (UnidentifiedImageError ("cannot identify image file '" ++ path ++ "'"))
  | None =>
      Raise (if isdir w path
             then IsADirectoryError (os_error "21" "Is a directory" path)
             else FileNotFoundError (os_error "2" "No such file or directory" path))
  end.

(** The folder a new file goes to is there: the root, the working directory
    of a bare name, or a directory of the world. *)
Definition parent_ok (w : World) (path : string) : bool :=
  String.eqb (rstrip_sep (dirname path)) "" || isdir w (dirname path).

(** [img.save(path, format)]: the file is opened for writing, which needs a
    name, the folder of the name, and no directory at the name. *)
Definition Image_save (w : World) (img : Image) (path format : string)
  : result World :=
  if String.eqb path ""
  then Raise (FileNotFoundError (os_error "2" "No such file or directory" path))
  else if negb (parent_ok w path)
  then Raise (if isfile w (dirname path)
              then NotADirectoryError (os_error "20" "Not a directory" path)
              else FileNotFoundError (os_error "2" "No such file or directory" path))
  else if endswith_sep path || isdir w path
  then Raise (IsADirectoryError (os_error "21" "Is a directory" path))
  else Ok (set_files w (<[path := ImageFile format img]> (w_files w))).

(** The body of the [try] block. *)
Definition process_image_body (w : World)
    (image_path output_folder output_format original_name : string)
    (output_size : Z * Z) : result (World * string) :=
  img ← Image_open w image_path;
  img_resized ← resize_image img output_size;
  let output_path := join output_folder (basename original_name) in
  w' ← (if String.eqb (lower output_format) "jpg"
        then Image_save w img_resized output_path "JPEG"
        else if String.eqb (lower output_format) "png"
        then Image_save w img_resized output_path "PNG"
        else if String.eqb (lower output_format) "webp"
        then Image_save w img_resized output_path "WEBP"
        else Raise (ValueError ("Formato no soportado: " ++ output_format)));
  Ok (w', output_path).

Definition process_image (w : World)
    (image_path output_folder output_format original_name : string)
    (output_size : Z * Z) : World * option string :=
  match process_image_body w image_path output_folder output_format
          original_name output_size with
  | Ok (w', output_path) => (w', Some output_path)
  | Raise e =>
      (logger_error w ("Error procesando " ++ image_path ++ ": " ++ str_exn e),
       None)
  end.

(** ** The worker pool *)

(** [l] with [x] put at position [k], at the end when [l] is shorter. *)
Definition insert_at {A} (k : nat) (x : A) (l : list A) : list A :=
  (take k l ++ x :: drop k l)%list.

(** The order in which the tasks of a pool end is the scheduler's.  [picks]
    codes one: for each task, from the first submitted, the number of later
    tasks that end before it.  Every order has a code; no pick, or 0
    throughout, is the order of submission. *)
Fixpoint completion {A} (picks : list nat) (futures : list A) : list A :=
  match futures with
  | [] => []
  | f :: rest => insert_at (hd 0%nat picks) f (completion (tl picks) rest)
  end.

(** The tasks of one pool in the order they end; each leaves what it
    returns in its future, here under the index of the future.  The files
    of one directory have distinct names, hence distinct output paths, and
    none is the source of another: the tasks of a pool do not read what
    another writes, and each is run here in one piece. *)
Fixpoint run_tasks (w : World) (order : list (nat * string))
    (output_folder output_format : string) (done : list (nat * option string))
  : World * list (nat * option string) :=
  match order with
  | [] => (w, done)
  | (i, img) :: rest =>
      let '(w', result) :=
        process_image w img output_folder output_format img default_size in
      run_tasks w' rest output_folder output_format (done ++ [(i, result)])%list
  end.

(** [future.result()] of the future of index [i]. *)
Definition future_result (done : list (nat * option string)) (i : nat)
  : option string :=
  match List.find (fun d => Nat.eqb d.1 i) done with
  | Some d => d.2
  | None => None
  end.

(** The loop over [futures], in the order of submission. *)
Fixpoint collect (done : list (nat * option string)) (futures : list nat)
    (processed_images : list string) : list string :=
  match futures with
  | [] => processed_images
  | i :: rest =>
      let result := future_result done i in
      collect done rest
        (if truthy result
         then (processed_images ++ [default "" result])%list
         else processed_images)
  end.

(** One [ThreadPoolExecutor] block: every file of one directory is
    submitted, the block ends when all the tasks have, and the results are
    collected in the order of submission. *)
Definition run_pool (picks : list nat) (w : World) (image_files : list string)
    (output_folder output_format : string) (processed_images : list string)
  : World * list string :=
  let futures := zip (seq 0 (length image_files)) image_files in
  let '(w', done) :=
    run_tasks w (completion picks futures) output_folder output_format [] in
  (w', collect done (map fst futures) processed_images).

(** The loop over [os.walk], one pool per directory; [sched] holds the order
    of completion of each pool in turn.  The triples are those of the tree
    as the walk finds it.  [os.walk] lists a folder when it reaches it: the
    tree is the one of the start of the walk as long as the batch writes
    outside the folder walked, that is, unless the output folder is the
    input folder or lies below it. *)
Fixpoint process_walk (sched : list (list nat)) (w : World)
    (triples : list (string * list string * list string))
    (output_folder output_format : string) (processed_images : list string)
  : World * list string :=
  match triples with
  | [] => (w, processed_images)
  | (root, _, files) :: rest =>
      let image_files := map (join root) files in
      let '(w', processed_images') :=
        run_pool (hd [] sched) w image_files output_folder output_format
          processed_images in
      process_walk (tl sched) w' rest output_folder output_format processed_images'
  end.

(** ** [extract_and_process_images] *)

(** Leaving the [with tempfile.TemporaryDirectory()] block. *)
Definition cleanup (w : World) (temp_dir : string) : World :=
  {| w_files := filter (fun kv => under temp_dir kv.1 = false) (w_files w);
     w_dirs := delete temp_dir (w_dirs w);
     w_log := w_log w |}.

(** [zip_file.extractall(temp_dir)] *)
Definition extractall (w : World) (members : DirTree Payload) (intact : bool)
    (temp_dir : string) : World * result unit :=
  let w' :=
    {| w_files := foldl write_file (w_files w) (extracted temp_dir members);
       w_dirs := <[temp_dir := listing members]> (w_dirs w);
       w_log := w_log w |} in
  (w', if intact then Ok tt
       else Raise (BadZipFile "Bad CRC-32 for a member of the archive")).

(** [temp_dir] is the name the temporary directory is created under. *)
Definition extract_and_process_images (sched : list (list nat)) (w : World)
    (temp_dir : string) (members : DirTree Payload) (intact : bool)
    (output_folder output_format : string) : World * result (list string) :=
  let w0 := set_dirs w (<[temp_dir := Dir [] []]> (w_dirs w)) in
  let '(w1, r) := extractall w0 members intact temp_dir in
  match r with
  | Raise e => (cleanup w1 temp_dir, Raise e)
  | Ok _ =>
      let '(w2, processed_images) :=
        process_walk sched w1 (walk temp_dir (listing members))
          output_folder output_format [] in
      (cleanup w2 temp_dir, Ok processed_images)
  end.

(** ** [process_images] *)

Definition is_archive_name (input_path : string) : bool :=
  endswith (lower input_path) ".zip" || endswith (lower input_path) ".rar".

Definition process_images (sched : list (list nat)) (w : World)
    (temp_dir : string) (input_path output_folder output_format : string)
  : World * result (list string) :=
  match makedirs w output_folder with
  | Raise e => (w, Raise e)
  | Ok w =>
      if isfile w input_path && is_archive_name input_path then
        match w_files w !! input_path with
        | Some (ZipArchive members intact) =>
            extract_and_process_images sched w temp_dir members intact
              output_folder output_format
        | _ => (w, Raise (BadZipFile "File is not a zip file"))
        end
      else if isdir w input_path then
        match w_dirs w !! input_path with
        | Some tree =>
            let '(w', processed_images) :=
              process_walk sched w (walk input_path tree)
                output_folder output_format []
            in (w', Ok processed_images)
        | None => (w, Ok [])
        end
      else
        (w, Raise (ValueError
                     "La entrada debe ser un archivo ZIP, RAR o una carpeta"))
  end.

(** ** The handler of the "Procesar Imágenes" button

    [process_images_event] of [main], as a function of the text of the input
    field, the format picked in the dropdown, the working directory and the
    world; it returns the text it puts in the label. *)
Definition process_images_event (sched : list (list nat)) (w : World)
    (temp_dir cwd input_value format_value : string) : World * string :=
  if String.eqb input_value "" then (w, "Por favor, selecciona una entrada.")
  else
    let output_folder := join cwd "processed_images" in
    match process_images sched w temp_dir input_value output_folder
            format_value with
    | (w', Ok processed_images) =>
        (w', "Se procesaron " ++ pretty (length processed_images) ++ " imágenes.")
    | (w', Raise e) => (w', "Error: " ++ str_exn e)
    end.

(** ** The handler of the "Abrir carpeta de salida" button

    [open_output_folder] of [main] on a POSIX host, where [os.name] is not
    ['nt'], as the path model is: it returns the shell command it runs, or
    the text it puts in the label. *)
Inductive Effect :=
| System (command : string)
| Label (text : string).

Definition dquote : string := String (ascii_of_nat 34) EmptyString.

Definition open_output_folder (w : World) (cwd : string) : Effect :=
  let output_folder := join cwd "processed_images" in
  if path_exists w output_folder
  then System ("open " ++ dquote ++ output_folder ++ dquote)
  else Label "La carpeta de salida no existe.".

(** ** Vocabulary of the statements *)

(** The value of a float, as a rational. *)
Definition bpow (e : Z) : Q := (2 ^ e)%Q.
Definition F2Q (m e : Z) : Q := (inject_Z m * bpow e)%Q.

Definition SF2Q (f : spec_float) : Q :=
  match f with
  | S754_finite s m e => F2Q (cond_Zopp s (Z.pos m)) e
  | _ => 0%Q
  end.

(** Where [x] lies in the interval that starts at [m * 2^e], as the rounding
    of [SpecFloat] records it. *)
Definition located (m e : Z) (l : location) (x : Q) : Prop :=
  match l with
  | loc_Exact => (x == F2Q m e)%Q
  | loc_Inexact c =>
      (F2Q m e < x)%Q /\ (x < F2Q (m + 1) e)%Q /\
      (x ?= F2Q (2 * m + 1) (e - 1))%Q = c
  end.

Definition within (r : shr_record) (e : Z) (x : Q) : Prop :=
  0 <= shr_m r /\ (F2Q (shr_m r) e <= x)%Q /\ (x < F2Q (shr_m r + 1) e)%Q /\
  (shr_r r || shr_s r = false <-> (x == F2Q (shr_m r) e)%Q).

(** [m' * 2^e'] is a binary64 number nearest to [x]: a 53-bit mantissa, at
    the exponent [e1] of the binade of [x], within half a unit in the last
    place. *)
Definition nearest53 (x : Q) (m' e' : Z) : Prop :=
  2 ^ 52 <= m' < 2 ^ 53 /\
  exists m2 e1,
    (F2Q m' e' == F2Q m2 e1)%Q /\
    (bpow (e1 + 52) <= x)%Q /\ (x < bpow (e1 + 53))%Q /\
    (F2Q (2 * m2 - 1) (e1 - 1) <= x)%Q /\ (x <= F2Q (2 * m2 + 1) (e1 - 1))%Q.

(** A positive number with a mantissa of at most 53 bits, at any exponent. *)
Definition representable (b : Q) : Prop :=
  exists mb eb, 0 < mb < 2 ^ 53 /\ (b == F2Q mb eb)%Q.

(** [z] is the integer part of [x]. *)
Definition floor_of (x : Q) (z : Z) : Prop :=
  (inject_Z z <= x)%Q /\ (x < inject_Z z + 1)%Q.

(** Sizes the imaging library stores: positive C ints. *)
Definition dim (n : Z) : Prop := 0 < n < 2 ^ 31.

(** The three spellings [process_image] accepts, and the encoder of each. *)
Definition supported (output_format : string) : bool :=
  String.eqb (lower output_format) "jpg" ||
  String.eqb (lower output_format) "png" ||
  String.eqb (lower output_format) "webp".

Definition encoder (output_format : string) : string :=
  if String.eqb (lower output_format) "jpg" then "JPEG"
  else if String.eqb (lower output_format) "png" then "PNG"
  else "WEBP".

Definition out_path (output_folder source : string) : string :=
  join output_folder (basename source).

(** The file at [p] decodes. *)
Definition decodable (w : World) (p : string) : bool :=
  match w_files w !! p with
  | Some (ImageFile _ _) => true
  | _ => false
  end.

(** The file at [p] decodes, its scaled content has no empty side, and its
    path ends in a file name. *)
Definition processable (w : World) (p : string) : bool :=
  match w_files w !! p with
  | Some (ImageFile _ img) =>
      is_ok (resize_image img default_size) && negb (String.eqb (basename p) "")
  | _ => false
  end.

(** A file can be written at [path]: its folder is there and no directory
    stands at the path. *)
Definition writable (w : World) (path : string) : bool :=
  parent_ok w path && negb (isdir w path).

(** The record [logger.error] writes for the exception [e] of the task on
    [p]. *)
Definition error_record (p : string) (e : exn) : string :=
  "Error procesando " ++ p ++ ": " ++ str_exn e.

(** What stops the task on [p]: the decoder, the resizer, the format
    dispatch or the writer, in that order. *)
Definition task_error (w : World) (p output_folder output_format : string)
  : option exn :=
  match process_image_body w p output_folder output_format p default_size with
  | Ok _ => None
  | Raise e => Some e
  end.

Definition succeeds (w : World) (output_folder output_format p : string)
  : bool :=
  match task_error w p output_folder output_format with
  | None => true
  | Some _ => false
  end.

(** The file at [o] is a canvas of the default size in RGB, written by the
    encoder of [output_format]. *)
Definition holds_canvas (w : World) (output_format o : string) : bool :=
  match w_files w !! o with
  | Some (ImageFile f img) =>
      String.eqb f (encoder output_format) &&
      (width img =? 2500) && (height img =? 2500) &&
      match mode img with ModeRGB => true | _ => false end
  | _ => false
  end.

(** The paths the loop over [os.walk] submits, in order. *)
Definition tasks_of (triples : list (string * list string * list string))
  : list string :=
  flat_map (fun t => map (join t.1.1) t.2) triples.

(** The world in which the tasks of an archive run: its members written
    below [temp_dir]. *)
Definition extracted_world (w : World) (temp_dir : string)
    (members : DirTree Payload) : World :=
  {| w_files := foldl write_file (w_files w) (extracted temp_dir members);
     w_dirs := <[temp_dir := listing members]> (<[temp_dir := Dir [] []]> (w_dirs w));
     w_log := w_log w |}.

(** The futures of a pool: the paths submitted, each under its index. *)
Definition futures_of (image_files : list string) : list (nat * string) :=
  zip (seq 0 (length image_files)) image_files.

(** What the loop over the futures appends for a result. *)
Definition kept (result : option string) : option string :=
  if truthy result then Some (default "" result) else None.

(** What the task on [p] returns in the world [w]. *)
Definition outcome (w : World) (output_folder output_format p : string)
  : option string :=
  (process_image w p output_folder output_format p default_size).2.

(** What a task, a pool and a walk keep of the world: the directories, the
    files there are, and the canvases written so far. *)
Definition batch_keeps (w w' : World) (output_format : string) : Prop :=
  w_dirs w' = w_dirs w /\
  (forall q, isfile w q = true -> isfile w' q = true) /\
  (forall o, holds_canvas w output_format o = true ->
             holds_canvas w' output_format o = true).

(** The components of a path, between separators. *)
Fixpoint components (acc s : string) : list string :=
  match s with
  | EmptyString => [acc]
  | String c s' =>
      if is_sep c then acc :: components "" s'
      else components (acc ++ String c EmptyString) s'
  end.

(** A path in normal form: absolute, with no empty component, no [.] and no
    [..], and no trailing separator.  On a file system without links two
    such paths name one object only when they are the same string. *)
Definition canonical (p : string) : bool :=
  match components "" p with
  | "" :: c :: cs =>
      forallb (fun x => negb (String.eqb x "") && negb (String.eqb x ".")
                        && negb (String.eqb x "..")) (c :: cs)
  | _ => false
  end.

(** [p] is the folder or lies below it. *)
Definition inside (folder p : string) : bool :=
  String.eqb p folder || under folder p.

(** Modelled after the specification's words, "rounding to nearest":
    Python's [round(x)], halves to the even neighbour.  The code does not
    call it. *)
Definition round_half_even (x : spec_float) : result Z :=
  match x with
  | S754_nan => Raise (ValueError "cannot convert float NaN to integer")
  | S754_infinity _ =>
      Raise (OverflowError "cannot convert float infinity to integer")
  | S754_zero _ => Ok 0
  | S754_finite s m e =>
      Ok (cond_Zopp s
            (if 0 <=? e then Z.shiftl (Z.pos m) e
             else
               let q := Z.shiftr (Z.pos m) (- e) in
               let r := Z.pos m - Z.shiftl q (- e) in
               match 2 * r ?= 2 ^ (- e) with
               | Lt => q
               | Gt => q + 1
               | Eq => if Z.even q then q else q + 1
               end))
  end.

(** No output path is the path of a source: the output folder lies outside
    the files being read. *)
Definition outputs_apart (output_folder : string) (tasks : list string) : bool :=
  forallb (fun p => forallb (fun q => negb (String.eqb (out_path output_folder p) q))
                      tasks) tasks.

(** ** Sample worlds *)

Definition photo : Image := Decoded 800 600 ModeRGBA.
Definition thin_line : Image := Decoded 2501 1 ModeRGB.
Definition tall_line : Image := Decoded 1 2501 ModeL.

(** A folder of pictures with a text file among them. *)
Definition sample_tree : DirTree unit :=
  Dir [("photo.png", tt); ("notes.txt", tt)]
      [("2023", Dir [("photo.png", tt); ("scan.gif", tt)] [])].

Definition sample_archive : DirTree Payload :=
  Dir [] [("a", Dir [("photo.png", PImage "PNG" photo)] []);
          ("b", Dir [("photo.png", PImage "PNG" (Decoded 300 400 ModeL))] [])].

Definition sample_world : World :=
  {| w_files :=
       list_to_map
         [("/pics/photo.png", ImageFile "PNG" photo);
          ("/pics/notes.txt", OtherFile);
          ("/pics/2023/photo.png", ImageFile "PNG" (Decoded 300 400 ModeL));
          ("/pics/2023/scan.gif", ImageFile "GIF" (Decoded 1024 1024 ModeP));
          ("/lines/thin.png", ImageFile "PNG" thin_line);
          ("/broken/notes.txt", OtherFile);
          ("/album.zip", ZipArchive sample_archive true);
          ("/damaged.zip", ZipArchive sample_archive false);
          ("/album.rar", OtherFile)];
     w_dirs :=
       list_to_map
         [("/pics", sample_tree);
          ("/pics/2023", Dir [("photo.png", tt); ("scan.gif", tt)] []);
          ("/lines", Dir [("thin.png", tt)] []);
          ("/broken", Dir [("notes.txt", tt)] []);
          ("/home", Dir [] [("ana", Dir [] [])]);
          ("/home/ana", Dir [] []);
          ("/tmp", Dir [] [])];
     w_log := [] |}.

(** The same with the folder [/out], empty. *)
Definition sample_world_out : World :=
  set_dirs sample_world (<["/out" := Dir [] []]> (w_dirs sample_world)).

(* ===================================================================== *)
(** * Part II: properties *)
(* ===================================================================== *)

(** ** Binary64 arithmetic: the rounding of [SpecFloat] *)

Lemma bpow_pos e : (0 < bpow e)%Q.
Proof. apply Qpower_0_lt. reflexivity. Qed.

Lemma bpow_add a b : (bpow (a + b) == bpow a * bpow b)%Q.
Proof. apply Qpower_plus. discriminate. Qed.

Lemma bpow_Z e : 0 <= e -> (bpow e == inject_Z (2 ^ e))%Q.
Proof.
  intros H. pattern e. apply natlike_ind; [reflexivity | | exact H].
  intros x Hx IH. unfold Z.succ.
  rewrite bpow_add, IH, Z.pow_add_r, inject_Z_mult by lia. reflexivity.
Qed.

Lemma bpow_le a b : a <= b -> (bpow a <= bpow b)%Q.
Proof. intros H. apply Qpower_le_compat_l; [exact H | discriminate]. Qed.

Lemma bpow_lt a b : a < b -> (bpow a < bpow b)%Q.
Proof. intros H. apply Qpower_lt_compat_l; [exact H | reflexivity]. Qed.

Lemma F2Q_le m1 m2 e : m1 <= m2 -> (F2Q m1 e <= F2Q m2 e)%Q.
Proof.
  intros H. unfold F2Q. apply Qmult_le_compat_r.
  - rewrite <- Zle_Qle. exact H.
  - apply Qlt_le_weak, bpow_pos.
Qed.

Lemma F2Q_lt m1 m2 e : m1 < m2 -> (F2Q m1 e < F2Q m2 e)%Q.
Proof.
  intros H. unfold F2Q. apply Qmult_lt_compat_r; [apply bpow_pos|].
  rewrite <- Zlt_Qlt. exact H.
Qed.

Lemma F2Q_le_inv m1 m2 e : (F2Q m1 e <= F2Q m2 e)%Q -> m1 <= m2.
Proof.
  unfold F2Q. intros H. apply Qmult_le_r in H; [|apply bpow_pos].
  rewrite Zle_Qle. exact H.
Qed.

Lemma F2Q_lt_inv m1 m2 e : (F2Q m1 e < F2Q m2 e)%Q -> m1 < m2.
Proof.
  unfold F2Q. intros H. apply Qmult_lt_r in H; [|apply bpow_pos].
  rewrite Zlt_Qlt. exact H.
Qed.

(** Moving a power of two between the mantissa and the exponent. *)
Lemma F2Q_shift m e k : 0 <= k -> (F2Q m (e + k) == F2Q (m * 2 ^ k) e)%Q.
Proof.
  intros Hk. unfold F2Q. rewrite bpow_add, inject_Z_mult, (bpow_Z k Hk). ring.
Qed.

Lemma F2Q_bpow e k : 0 <= k -> (F2Q (2 ^ k) e == bpow (e + k))%Q.
Proof.
  intros Hk. unfold F2Q. rewrite bpow_add, (bpow_Z k Hk). ring.
Qed.

Lemma digits2_size p : digits2_pos p = Pos.size p.
Proof. induction p; simpl; congruence. Qed.

Lemma digits2_bounds p :
  2 ^ (Z.pos (digits2_pos p) - 1) <= Z.pos p < 2 ^ Z.pos (digits2_pos p).
Proof.
  rewrite digits2_size. split.
  - pose proof (Pos.size_le p) as H.
    apply Pos2Z.pos_le_pos in H. rewrite Pos2Z.inj_pow in H.
    replace (Z.pos (Pos.size p)) with (Z.pos (Pos.size p) - 1 + 1) in H by lia.
    rewrite Z.pow_add_r in H by lia. change (Z.pos p~0) with (2 * Z.pos p) in H.
    lia.
  - pose proof (Pos.size_gt p) as H.
    apply Pos2Z.pos_lt_pos in H. rewrite Pos2Z.inj_pow in H. exact H.
Qed.

Lemma Zdigits2_bounds m :
  0 < m -> 2 ^ (Zdigits2 m - 1) <= m < 2 ^ Zdigits2 m.
Proof. destruct m; try lia. intros _. apply digits2_bounds. Qed.

Lemma Zdigits2_unique m d :
  2 ^ (d - 1) <= m < 2 ^ d -> 0 < d -> Zdigits2 m = d.
Proof.
  intros [Hl Hu] Hd.
  assert (0 < m) by (pose proof (Z.pow_pos_nonneg 2 (d - 1)); lia).
  destruct (Zdigits2_bounds m H) as [Hl' Hu'].
  assert (0 < Zdigits2 m) by (destruct m; simpl; lia).
  assert (d - 1 < Zdigits2 m) by (apply (Z.pow_lt_mono_r_iff 2); lia).
  assert (Zdigits2 m - 1 < d) by (apply (Z.pow_lt_mono_r_iff 2); lia).
  lia.
Qed.

Lemma F2Q_succ_exp m e : (F2Q m (e + 1) == 2 * F2Q m e)%Q.
Proof. unfold F2Q. rewrite bpow_add. change (bpow 1) with 2%Q. ring. Qed.

Lemma F2Q_pred_exp m e : (2 * F2Q m (e - 1) == F2Q m e)%Q.
Proof. rewrite <- F2Q_succ_exp. replace (e - 1 + 1) with e by lia. reflexivity. Qed.

Lemma F2Q_plus m1 m2 e : (F2Q (m1 + m2) e == F2Q m1 e + F2Q m2 e)%Q.
Proof. unfold F2Q. rewrite inject_Z_plus. ring. Qed.

Lemma F2Q_mult2 m e : (F2Q (2 * m) e == 2 * F2Q m e)%Q.
Proof. unfold F2Q. rewrite inject_Z_mult. change (inject_Z 2) with 2%Q. ring. Qed.

Lemma F2Q_one e : (F2Q 1 e == bpow e)%Q.
Proof. unfold F2Q. change (inject_Z 1) with 1%Q. ring. Qed.

Lemma located_within m e l x :
  0 <= m -> located m e l x -> within (shr_record_of_loc m l) e x.
Proof.
  intros Hm H. unfold within.
  pose proof (F2Q_lt m (m + 1) e ltac:(lia)) as Hlt.
  destruct l as [|[| |]]; simpl in *;
    try destruct H as (H1 & H2 & H3);
    repeat split; auto; try lra; try discriminate; intros E; lra.
Qed.

Lemma shr_record_of_loc_of r :
  shr_record_of_loc (shr_m r) (loc_of_shr_record r) = r.
Proof. destruct r as [m [|] [|]]; reflexivity. Qed.

Lemma shr_1_eq m rb sb :
  0 <= m ->
  shr_1 (Build_shr_record m rb sb) =
  Build_shr_record (Z.div2 m) (Z.odd m) (rb || sb).
Proof. destruct m as [|[p|p|]|p]; try reflexivity; lia. Qed.

Lemma shr_1_located r e x :
  within r e x ->
  0 <= shr_m (shr_1 r) /\
  located (shr_m (shr_1 r)) (e + 1) (loc_of_shr_record (shr_1 r)) x.
Proof.
  destruct r as [m rb sb]. intros (Hm & Hl & Hu & Hex).
  cbn [shr_m shr_r shr_s] in *.
  rewrite shr_1_eq by exact Hm. cbn [shr_m shr_r shr_s].
  pose proof (Z.div2_odd m) as Hdiv.
  set (k := Z.div2 m) in *.
  assert (Hk : 0 <= k) by (unfold k; apply Z.div2_nonneg; exact Hm).
  split; [exact Hk|].
  pose proof (bpow_pos e) as Hb.
  assert (Ek : (F2Q k (e + 1) == 2 * inject_Z k * bpow e)%Q).
  { rewrite F2Q_succ_exp. unfold F2Q. ring. }
  assert (Ek1 : (F2Q (k + 1) (e + 1) == (2 * inject_Z k + 2) * bpow e)%Q).
  { rewrite F2Q_succ_exp. unfold F2Q. rewrite inject_Z_plus.
    change (inject_Z 1) with 1%Q. ring. }
  assert (Emid : (F2Q (2 * k + 1) (e + 1 - 1) == (2 * inject_Z k + 1) * bpow e)%Q).
  { replace (e + 1 - 1) with e by lia. unfold F2Q.
    rewrite inject_Z_plus, inject_Z_mult. reflexivity. }
  destruct (Z.odd m) eqn:Hodd; simpl in Hdiv.
  - (* m = 2k + 1 *)
    assert (Em : (F2Q m e == (2 * inject_Z k + 1) * bpow e)%Q).
    { rewrite Hdiv. unfold F2Q. rewrite inject_Z_plus, inject_Z_mult. reflexivity. }
    assert (Em1 : (F2Q (m + 1) e == (2 * inject_Z k + 2) * bpow e)%Q).
    { rewrite Hdiv. unfold F2Q. rewrite !inject_Z_plus, inject_Z_mult.
      change (inject_Z 1) with 1%Q. change (inject_Z 2) with 2%Q. ring. }
    destruct (rb || sb) eqn:Hrs; simpl.
    + assert ((F2Q m e < x)%Q).
      { destruct (Qle_lt_or_eq _ _ Hl) as [Hs|E]; [exact Hs|].
        symmetry in E. apply Hex in E. discriminate. }
      repeat split; try lra. apply Qgt_alt. lra.
    + assert ((x == F2Q m e)%Q) by (apply Hex; reflexivity).
      repeat split; try lra. apply Qeq_alt. lra.
  - (* m = 2k *)
    assert (Em : (F2Q m e == (2 * inject_Z k) * bpow e)%Q).
    { rewrite Hdiv, Z.add_0_r. unfold F2Q. rewrite inject_Z_mult. reflexivity. }
    assert (Em1 : (F2Q (m + 1) e == (2 * inject_Z k + 1) * bpow e)%Q).
    { rewrite Hdiv, Z.add_0_r. unfold F2Q. rewrite !inject_Z_plus, inject_Z_mult.
      reflexivity. }
    destruct (rb || sb) eqn:Hrs; simpl.
    + assert ((F2Q m e < x)%Q).
      { destruct (Qle_lt_or_eq _ _ Hl) as [Hs|E]; [exact Hs|].
        symmetry in E. apply Hex in E. discriminate. }
      repeat split; try lra. apply Qlt_alt. rewrite Emid, <- Em1. exact Hu.
    + assert ((x == F2Q m e)%Q) by (apply Hex; reflexivity).
      lra.
Qed.

Lemma iter_pos_located p :
  forall r e x,
    within r e x ->
    0 <= shr_m (SpecFloat.iter_pos shr_1 p r) /\
    located (shr_m (SpecFloat.iter_pos shr_1 p r)) (e + Z.pos p)
            (loc_of_shr_record (SpecFloat.iter_pos shr_1 p r)) x.
Proof.
  assert (St : forall r e x,
             0 <= shr_m r /\ located (shr_m r) e (loc_of_shr_record r) x ->
             within r e x).
  { intros r e x [H1 H2]. rewrite <- (shr_record_of_loc_of r).
    apply located_within; assumption. }
  induction p as [p IH|p IH|]; intros r e x H; simpl.
  - apply shr_1_located in H. apply St, IH, St, IH in H.
    replace (e + Z.pos p~1) with (e + 1 + Z.pos p + Z.pos p) by lia. exact H.
  - apply IH, St, IH in H.
    replace (e + Z.pos p~0) with (e + Z.pos p + Z.pos p) by lia. exact H.
  - apply shr_1_located. exact H.
Qed.

(** [shr_fexp] keeps track of where [x] lies. *)
Lemma shr_fexp_located m e l x :
  0 <= m -> located m e l x ->
  e <= fexp prec emax (Zdigits2 m + e) ->
  forall r e1, shr_fexp prec emax m e l = (r, e1) ->
    e1 = fexp prec emax (Zdigits2 m + e) /\ 0 <= shr_m r /\
    located (shr_m r) e1 (loc_of_shr_record r) x.
Proof.
  intros Hm Hloc Hle r e1. unfold shr_fexp, shr.
  destruct (fexp prec emax (Zdigits2 m + e) - e) as [|n|n] eqn:Hn; try lia.
  - intros [= <- <-]. split; [lia|]. split.
    + destruct l as [|[| |]]; exact Hm.
    + destruct l as [|[| |]]; exact Hloc.
  - intros [= <- <-]. split; [lia|].
    apply iter_pos_located, located_within; assumption.
Qed.

(** [m' * 2^e'] is a binary64 number nearest to [x]: a 53-bit mantissa, at
    the exponent [e1] of the binade of [x], within half a unit in the last
    place. *)
Lemma located_bounds m e l x :
  located m e l x -> (F2Q m e <= x)%Q /\ (x < F2Q (m + 1) e)%Q.
Proof.
  pose proof (F2Q_lt m (m + 1) e ltac:(lia)).
  destruct l; simpl; [intros E | intros (H1 & H2 & _)]; split; lra.
Qed.

Lemma bpow_lt_inv a b : (bpow a < bpow b)%Q -> a < b.
Proof.
  intros H. destruct (Z.lt_ge_cases a b) as [L|G]; [exact L|].
  apply bpow_le in G. lra.
Qed.

Lemma fexp_normal t : -1021 <= t -> fexp prec emax t = t - 53.
Proof. intros H. unfold fexp, emin, prec, emax. lia. Qed.

Lemma round_nearest_even_located m1 e1 l x :
  located m1 e1 l x ->
  let m2 := round_nearest_even m1 l in
  m1 <= m2 <= m1 + 1 /\
  (F2Q (2 * m2 - 1) (e1 - 1) <= x)%Q /\ (x <= F2Q (2 * m2 + 1) (e1 - 1))%Q.
Proof.
  intros H.
  assert (Ea : forall k, (F2Q (2 * m1 + k) (e1 - 1) == F2Q m1 e1 + F2Q k (e1 - 1))%Q).
  { intros k. rewrite F2Q_plus, F2Q_mult2, F2Q_pred_exp. reflexivity. }
  assert (E1 : (F2Q (m1 + 1) e1 == F2Q m1 e1 + 2 * F2Q 1 (e1 - 1))%Q).
  { rewrite F2Q_plus, (F2Q_pred_exp 1). reflexivity. }
  assert (Hp : (0 < F2Q 1 (e1 - 1))%Q) by (rewrite F2Q_one; apply bpow_pos).
  assert (Em : (F2Q (-1) (e1 - 1) == - F2Q 1 (e1 - 1))%Q).
  { unfold F2Q. change (inject_Z (-1)) with (-1)%Q.
    change (inject_Z 1) with 1%Q. ring. }
  pose proof (Ea 1) as Ea1. pose proof (Ea (-1)) as Eam.
  pose proof (Ea 3) as Ea3.
  assert (E3 : (F2Q 3 (e1 - 1) == 3 * F2Q 1 (e1 - 1))%Q).
  { unfold F2Q. change (inject_Z 3) with 3%Q. change (inject_Z 1) with 1%Q. ring. }
  destruct l as [|[| |]]; simpl in H |- *.
  - replace (2 * m1 - 1) with (2 * m1 + -1) by lia.
    split; [lia|]. split; lra.
  - destruct H as (H1 & H2 & H3). apply Qeq_alt in H3.
    destruct (Z.even m1).
    + replace (2 * m1 - 1) with (2 * m1 + -1) by lia.
      split; [lia|]. split; lra.
    + replace (2 * (m1 + 1) - 1) with (2 * m1 + 1) by lia.
      replace (2 * (m1 + 1) + 1) with (2 * m1 + 3) by lia.
      split; [lia|]. split; lra.
  - destruct H as (H1 & H2 & H3). apply Qlt_alt in H3.
    replace (2 * m1 - 1) with (2 * m1 + -1) by lia.
    split; [lia|]. split; lra.
  - destruct H as (H1 & H2 & H3). apply Qgt_alt in H3.
    replace (2 * (m1 + 1) - 1) with (2 * m1 + 1) by lia.
    replace (2 * (m1 + 1) + 1) with (2 * m1 + 3) by lia.
    split; [lia|]. split; lra.
Qed.

(** The second normalisation of [binary_round_aux]: a mantissa that rounding
    has pushed to [2^53] is brought back to 53 bits, any other is kept. *)
Lemma shr_fexp_renorm m2 e1 :
  2 ^ 52 <= m2 <= 2 ^ 53 -> -1070 <= e1 <= 960 ->
  exists p e3,
    (shr_fexp prec emax m2 e1 loc_Exact =
       (Build_shr_record (Z.pos p) false false, e3)) /\
    2 ^ 52 <= Z.pos p < 2 ^ 53 /\ (F2Q (Z.pos p) e3 == F2Q m2 e1)%Q /\
    e3 <= e1 + 1.
Proof.
  intros Hm He.
  destruct (Z.eq_dec m2 (2 ^ 53)) as [E|NE].
  - subst m2. exists 4503599627370496%positive, (e1 + 1).
    unfold shr_fexp.
    replace (Zdigits2 (2 ^ 53)) with 54 by (vm_compute; reflexivity).
    rewrite fexp_normal by lia.
    replace (54 + e1 - 53 - e1) with 1 by lia.
    split; [vm_compute; reflexivity|].
    split; [lia|]. split; [|lia].
    rewrite F2Q_shift by lia. reflexivity.
  - assert (Hd2 : Zdigits2 m2 = 53) by (apply Zdigits2_unique; lia).
    destruct m2 as [|p|p]; try lia.
    exists p, e1. unfold shr_fexp. rewrite Hd2, fexp_normal by lia.
    replace (53 + e1 - 53 - e1) with 0 by lia.
    split; [reflexivity|]. split; [lia|]. split; [reflexivity|lia].
Qed.

Theorem binary_round_aux_correct m e l x :
  0 <= m -> located m e l x ->
  (bpow (-1000) <= x)%Q -> (x < bpow 1000)%Q ->
  e <= fexp prec emax (Zdigits2 m + e) ->
  exists m' e',
    binary_round_aux prec emax false m e l = S754_finite false m' e' /\
    nearest53 x (Z.pos m') e'.
Proof.
  intros Hm Hloc Hlo Hhi Hfexp.
  destruct (located_bounds _ _ _ _ Hloc) as [Hxl Hxu].
  (* the mantissa is not zero *)
  assert (Hm0 : 0 < m).
  { destruct (Z.eq_dec m 0) as [->|]; [exfalso|lia].
    simpl in Hfexp. unfold fexp, emin, prec, emax in Hfexp.
    assert (e <= -1074) by lia.
    rewrite F2Q_one in Hxu. simpl in Hxu.
    pose proof (bpow_le e (-1074) H). pose proof (bpow_lt (-1074) (-1000) ltac:(lia)).
    lra. }
  set (d := Zdigits2 m) in *.
  destruct (Zdigits2_bounds m Hm0) as [Hdl Hdu]. fold d in Hdl, Hdu.
  assert (Hd0 : 0 < d) by (unfold d; destruct m; simpl; lia).
  assert (Hbl : (bpow (e + (d - 1)) <= x)%Q).
  { rewrite <- F2Q_bpow by lia. pose proof (F2Q_le _ _ e Hdl). lra. }
  assert (Hbu : (x < bpow (e + d))%Q).
  { rewrite <- F2Q_bpow by lia. pose proof (F2Q_le (m + 1) (2 ^ d) e ltac:(lia)). lra. }
  assert (Hr1 : e + (d - 1) < 1000) by (apply bpow_lt_inv; lra).
  assert (Hr2 : -1000 < e + d) by (apply bpow_lt_inv; lra).
  rewrite fexp_normal in Hfexp by lia.
  unfold binary_round_aux.
  destruct (shr_fexp prec emax m e l) as [r1 e1] eqn:Hs1.
  destruct (shr_fexp_located m e l x Hm Hloc ltac:(fold d; rewrite fexp_normal; lia) r1 e1 Hs1)
    as (He1 & Hm1 & Hloc1).
  fold d in He1. rewrite fexp_normal in He1 by lia.
  set (m1 := shr_m r1) in *. set (l1 := loc_of_shr_record r1) in *.
  destruct (located_bounds _ _ _ _ Hloc1) as [Hx1l Hx1u].
  assert (Hm1u : m1 < 2 ^ 53).
  { apply (F2Q_lt_inv _ _ e1). rewrite F2Q_bpow by lia.
    replace (e1 + 53) with (e + d) by lia. lra. }
  assert (Hm1l : 2 ^ 52 < m1 + 1).
  { apply (F2Q_lt_inv _ _ e1). rewrite F2Q_bpow by lia.
    replace (e1 + 52) with (e + (d - 1)) by lia. lra. }
  destruct (round_nearest_even_located m1 e1 l1 x Hloc1) as (Hm2 & Hh1 & Hh2).
  set (m2 := round_nearest_even m1 l1) in *.
  assert (Hnear : forall m' e', 2 ^ 52 <= m' < 2 ^ 53 ->
            (F2Q m' e' == F2Q m2 e1)%Q -> nearest53 x m' e').
  { intros m' e' Hc Hv. split; [exact Hc|]. exists m2, e1.
    split; [exact Hv|].
    replace (e1 + 52) with (e + (d - 1)) by lia.
    replace (e1 + 53) with (e + d) by lia. auto. }
  clearbody m2.
  destruct (shr_fexp_renorm m2 e1 ltac:(lia) ltac:(lia)) as (p & e3 & Hs2 & Hc & Hv & He3).
  rewrite Hs2. cbn [shr_m].
  replace (e3 <=? emax - prec) with true
    by (symmetry; apply Z.leb_le; unfold emax, prec; lia).
  exists p, e3. split; [reflexivity|]. apply Hnear; assumption.
Qed.

(** No representable number lies strictly between [x] and its rounding. *)
Lemma nearest53_ge x m e b :
  nearest53 x m e -> representable b -> (b <= x)%Q -> (b <= F2Q m e)%Q.
Proof.
  intros (Hc & m2 & e1 & Hv & Hl & Hu & Hh1 & Hh2) (mb & eb & Hmb & Eb) Hbx.
  rewrite Hv, Eb in *. clear Hv Eb b.
  destruct (Z.le_gt_cases e1 eb) as [Hle|Hgt].
  - replace eb with (e1 + (eb - e1)) in * by lia.
    rewrite F2Q_shift in * by lia.
    apply F2Q_le. set (k := mb * 2 ^ (eb - e1)) in *.
    assert (2 * k <= 2 * m2 + 1); [|lia].
    apply (F2Q_le_inv _ _ (e1 - 1)).
    rewrite F2Q_mult2, F2Q_pred_exp. lra.
  - assert (2 ^ 53 <= 2 * m2 + 1).
    { apply (F2Q_le_inv _ _ (e1 - 1)). rewrite F2Q_bpow by lia.
      replace (e1 - 1 + 53) with (e1 + 52) by lia. lra. }
    pose proof (F2Q_le mb (2 ^ 53) eb ltac:(lia)) as H1.
    rewrite F2Q_bpow in H1 by lia.
    pose proof (bpow_le (eb + 53) (e1 + 52) ltac:(lia)) as H2.
    pose proof (F2Q_le (2 ^ 52) m2 e1 ltac:(lia)) as H3.
    rewrite F2Q_bpow in H3 by lia. lra.
Qed.

Lemma nearest53_le x m e b :
  nearest53 x m e -> representable b -> (x <= b)%Q -> (F2Q m e <= b)%Q.
Proof.
  intros (Hc & m2 & e1 & Hv & Hl & Hu & Hh1 & Hh2) (mb & eb & Hmb & Eb) Hbx.
  rewrite Hv, Eb in *. clear Hv Eb b.
  destruct (Z.le_gt_cases e1 eb) as [Hle|Hgt].
  - replace eb with (e1 + (eb - e1)) in * by lia.
    rewrite F2Q_shift in * by lia.
    apply F2Q_le. set (k := mb * 2 ^ (eb - e1)) in *.
    assert (2 * m2 - 1 <= 2 * k); [|lia].
    apply (F2Q_le_inv _ _ (e1 - 1)).
    rewrite (F2Q_mult2 k), F2Q_pred_exp. lra.
  - exfalso.
    pose proof (F2Q_lt mb (2 ^ 53) eb ltac:(lia)) as H1.
    rewrite F2Q_bpow in H1 by lia.
    pose proof (bpow_le (eb + 53) (e1 + 52) ltac:(lia)) as H2.
    lra.
Qed.

Lemma representable_Z z : 0 < z < 2 ^ 53 -> representable (inject_Z z).
Proof.
  intros H. exists z, 0. split; [exact H|]. unfold F2Q.
  change (bpow 0) with 1%Q. ring.
Qed.

Lemma representable_F2Q m e : 0 < m < 2 ^ 53 -> representable (F2Q m e).
Proof. intros H. exists m, e. split; [exact H | reflexivity]. Qed.

(** ** Division *)

Lemma new_location_located q r nb e x :
  0 < nb -> 0 <= r < nb ->
  (x == (inject_Z q + inject_Z r / inject_Z nb) * bpow e)%Q ->
  located q e (new_location nb r) x.
Proof.
  intros Hnb Hr Hx.
  pose proof (bpow_pos e) as Hb.
  assert (Hnq : (0 < inject_Z nb)%Q) by (rewrite <- (Zlt_Qlt 0); exact Hnb).
  set (rho := (inject_Z r / inject_Z nb)%Q) in *.
  assert (Hmid : (F2Q (2 * q + 1) (e - 1) == (inject_Z q + (1 # 2)) * bpow e)%Q).
  { assert (Hbe : (bpow e == 2 * bpow (e - 1))%Q).
    { replace e with (e - 1 + 1) at 1 by lia. rewrite bpow_add.
      change (bpow 1) with 2%Q. ring. }
    unfold F2Q. rewrite Hbe, inject_Z_plus, inject_Z_mult.
    change (inject_Z 2) with 2%Q. change (inject_Z 1) with 1%Q. field. }
  assert (Hq1 : (F2Q (q + 1) e == (inject_Z q + 1) * bpow e)%Q).
  { unfold F2Q. rewrite inject_Z_plus. reflexivity. }
  assert (Hrho : forall c : comparison, (2 * r ?= nb) = c ->
                   match c with
                   | Lt => (rho < (1 # 2))%Q | Eq => (rho == (1 # 2))%Q
                   | Gt => ((1 # 2) < rho)%Q end).
  { intros c Hc. unfold rho. subst c.
    destruct (Z.compare_spec (2 * r) nb) as [E|L|G].
    - rewrite <- E, inject_Z_mult. change (inject_Z 2) with 2%Q.
      field. intros E0. rewrite <- E, inject_Z_mult in Hnq.
      change (inject_Z 2) with 2%Q in Hnq. lra.
    - apply Qlt_shift_div_r; [exact Hnq|].
      rewrite Zlt_Qlt, inject_Z_mult in L. change (inject_Z 2) with 2%Q in L. lra.
    - apply Qlt_shift_div_l; [exact Hnq|].
      rewrite Zlt_Qlt, inject_Z_mult in G. change (inject_Z 2) with 2%Q in G. lra. }
  assert (Hrho0 : r <> 0 -> (0 < rho)%Q).
  { intros Hr0. unfold rho. apply Qlt_shift_div_l; [exact Hnq|].
    rewrite Qmult_0_l. rewrite <- (Zlt_Qlt 0). lia. }
  assert (Hrho1 : (rho < 1)%Q).
  { unfold rho. apply Qlt_shift_div_r; [exact Hnq|].
    rewrite Qmult_1_l. rewrite <- Zlt_Qlt. lia. }
  assert (Hin : r <> 0 -> (F2Q q e < x)%Q /\ (x < F2Q (q + 1) e)%Q).
  { intros Hr0. specialize (Hrho0 Hr0). rewrite Hq1, Hx. unfold F2Q. split; nra. }
  assert (Hex : r = 0 -> (x == F2Q q e)%Q).
  { intros ->. rewrite Hx. unfold rho, F2Q. change (inject_Z 0) with 0%Q.
    field. lra. }
  clearbody rho.
  unfold new_location, new_location_even, new_location_odd.
  change (IntDef.Z.even nb) with (Z.even nb).
  destruct (Z.even nb) eqn:Hev; destruct (Z.eqb_spec r 0) as [E0|Hr0];
    unfold located; auto;
    destruct (Hin Hr0) as [H1 H2]; (split; [exact H1|]); (split; [exact H2|]).
  - specialize (Hrho _ eq_refl).
    destruct (2 * r ?= nb).
    + apply Qeq_alt. rewrite Hmid, Hx, Hrho. reflexivity.
    + apply Qlt_alt. rewrite Hmid, Hx. apply Qmult_lt_compat_r; [exact Hb | lra].
    + apply Qgt_alt. rewrite Hmid, Hx. apply Qmult_lt_compat_r; [exact Hb | lra].
  - assert (Hodd : 2 * r <> nb).
    { intros E. rewrite <- E, Z.even_mul in Hev. discriminate. }
    destruct (Z.compare_spec (2 * r + 1) nb) as [E|L|G].
    + apply Qlt_alt. rewrite Hmid, Hx.
      pose proof (Hrho Lt ltac:(apply Z.compare_lt_iff; lia)) as H.
      cbn beta iota in H. apply Qmult_lt_compat_r; [exact Hb | lra].
    + apply Qlt_alt. rewrite Hmid, Hx.
      pose proof (Hrho Lt ltac:(apply Z.compare_lt_iff; lia)) as H.
      cbn beta iota in H. apply Qmult_lt_compat_r; [exact Hb | lra].
    + apply Qgt_alt. rewrite Hmid, Hx.
      pose proof (Hrho Gt ltac:(apply Z.compare_gt_iff; lia)) as H.
      cbn beta iota in H. apply Qmult_lt_compat_r; [exact Hb | lra].
Qed.

Lemma fexp_mono a b : a <= b -> fexp prec emax a <= fexp prec emax b.
Proof. unfold fexp. lia. Qed.

Lemma Zdigits2_nonneg m : 0 <= Zdigits2 m.
Proof. destruct m; simpl; lia. Qed.

Lemma Zdigits2_ge m k : 0 < k -> 2 ^ (k - 1) <= m -> k <= Zdigits2 m.
Proof.
  intros Hk H.
  assert (0 < m) by (pose proof (Z.pow_pos_nonneg 2 (k - 1)); lia).
  destruct (Zdigits2_bounds m H0) as [_ Hu].
  assert (k - 1 < Zdigits2 m); [|lia].
  apply (Z.pow_lt_mono_r_iff 2); try lia. apply Zdigits2_nonneg.
Qed.

Lemma F2Q_pos m e : 0 < m -> (0 < F2Q m e)%Q.
Proof.
  intros H. unfold F2Q. apply Qmult_lt_0_compat; [|apply bpow_pos].
  rewrite <- (Zlt_Qlt 0). exact H.
Qed.

Theorem SFdiv_correct mx ex my ey x :
  (x == F2Q (Z.pos mx) ex / F2Q (Z.pos my) ey)%Q ->
  (bpow (-1000) <= x)%Q -> (x < bpow 1000)%Q ->
  exists m' e',
    SFdiv prec emax (S754_finite false mx ex) (S754_finite false my ey)
    = S754_finite false m' e' /\
    nearest53 x (Z.pos m') e'.
Proof.
  intros Hx Hlo Hhi.
  unfold SFdiv, SFdiv_core_binary. cbn [xorb].
  set (d1 := Zdigits2 (Z.pos mx)). set (d2 := Zdigits2 (Z.pos my)).
  set (e' := Z.min (fexp prec emax (d1 + ex - (d2 + ey))) (ex - ey)).
  set (s := ex - ey - e').
  assert (Hs : 0 <= s) by (unfold s, e'; lia).
  set (m' := match s with
             | 0 => Z.pos mx
             | Z.pos _ => Z.shiftl (Z.pos mx) s
             | Z.neg _ => 0
             end).
  assert (Hm' : m' = Z.pos mx * 2 ^ s).
  { unfold m'. destruct s as [|p|p] eqn:Es; try lia.
    rewrite Z.shiftl_mul_pow2 by lia. reflexivity. }
  clearbody m'.
  pose proof (Z_div_mod m' (Z.pos my) ltac:(lia)) as Hdm.
  destruct (Z.div_eucl m' (Z.pos my)) as [q r]. destruct Hdm as [Hdm Hr].
  destruct (digits2_bounds mx) as [Hd1l Hd1u].
  destruct (digits2_bounds my) as [Hd2l Hd2u].
  change (Z.pos (digits2_pos mx)) with d1 in Hd1l, Hd1u.
  change (Z.pos (digits2_pos my)) with d2 in Hd2l, Hd2u.
  assert (Hd1 : 0 < d1) by (unfold d1; simpl; lia).
  assert (Hd2 : 0 < d2) by (unfold d2; simpl; lia).
  assert (Hp2 : 0 < 2 ^ s) by (apply Z.pow_pos_nonneg; lia).
  assert (Hq : 0 <= q) by nia.
  apply binary_round_aux_correct; try assumption.
  - apply new_location_located; [lia | exact Hr |].
    rewrite Hx. unfold F2Q.
    assert (E1 : (bpow ex == inject_Z (2 ^ s) * bpow e' * bpow ey)%Q).
    { replace ex with (s + e' + ey) at 1 by (unfold s; lia).
      rewrite !bpow_add, (bpow_Z s Hs). reflexivity. }
    assert (E2 : (inject_Z (Z.pos mx) * inject_Z (2 ^ s) ==
                  inject_Z (Z.pos my) * inject_Z q + inject_Z r)%Q).
    { rewrite <- !inject_Z_mult, <- inject_Z_plus, <- Hdm, Hm'. reflexivity. }
    rewrite E1.
    pose proof (bpow_pos ey). pose proof (bpow_pos e').
    assert ((0 < inject_Z (Z.pos my))%Q) by (rewrite <- (Zlt_Qlt 0); lia).
    assert (E3 : (inject_Z r == inject_Z (Z.pos mx) * inject_Z (2 ^ s) -
                              inject_Z (Z.pos my) * inject_Z q)%Q) by lra.
    rewrite E3. field. split; lra.
  - (* the quotient has enough digits for the rounding to take place *)
    apply Z.le_trans with (fexp prec emax (d1 + ex - (d2 + ey))); [unfold e'; lia|].
    apply fexp_mono.
    destruct (Z.le_gt_cases (d1 - d2 + s) 0) as [Hk|Hk].
    + pose proof (Zdigits2_nonneg q). unfold s in *. lia.
    + assert (d1 - d2 + s <= Zdigits2 q); [|unfold s in *; lia].
      apply Zdigits2_ge; [lia|].
      assert (Eq : q = m' / Z.pos my) by (apply Z.div_unique with r; lia).
      rewrite Eq. apply Z.div_le_lower_bound; [lia|].
      rewrite Hm'.
      assert (Z.pos my * 2 ^ (d1 - d2 + s - 1) <= 2 ^ d2 * 2 ^ (d1 - d2 + s - 1))
        by (apply Z.mul_le_mono_nonneg_r; [apply Z.pow_nonneg|]; lia).
      assert (2 ^ (d1 - 1) * 2 ^ s <= Z.pos mx * 2 ^ s)
        by (apply Z.mul_le_mono_nonneg_r; lia).
      rewrite <- Z.pow_add_r in H, H0 by lia.
      replace (d2 + (d1 - d2 + s - 1)) with (d1 - 1 + s) in H by lia. lia.
Qed.

Lemma fexp_ge t : t - 53 <= fexp prec emax t.
Proof. unfold fexp, prec. lia. Qed.

Theorem SFmul_correct mx ex my ey x :
  2 ^ 52 <= Z.pos mx -> 2 ^ 52 <= Z.pos my ->
  (x == F2Q (Z.pos mx) ex * F2Q (Z.pos my) ey)%Q ->
  (bpow (-1000) <= x)%Q -> (x < bpow 1000)%Q ->
  exists m' e',
    SFmul prec emax (S754_finite false mx ex) (S754_finite false my ey)
    = S754_finite false m' e' /\
    nearest53 x (Z.pos m') e'.
Proof.
  intros Hmx Hmy Hx Hlo Hhi. unfold SFmul. cbn [xorb].
  apply binary_round_aux_correct; try assumption; try lia.
  - unfold located. rewrite Hx. unfold F2Q.
    rewrite Pos2Z.inj_mul, inject_Z_mult, bpow_add. ring.
  - assert (105 <= Zdigits2 (Z.pos (mx * my))).
    { apply Zdigits2_ge; [lia|]. rewrite Pos2Z.inj_mul.
      change (2 ^ (105 - 1)) with (2 ^ 52 * 2 ^ 52). nia. }
    pose proof (fexp_ge (Zdigits2 (Z.pos (mx * my)) + (ex + ey))). lia.
Qed.

(** ** Conversions *)

Lemma Pos_iter_xO p n : Z.pos (Pos.iter xO p n) = Z.pos p * 2 ^ Z.pos n.
Proof.
  induction n as [|n IH] using Pos.peano_ind.
  - simpl. lia.
  - rewrite Pos.iter_succ, Pos2Z.inj_xO, IH, Pos2Z.inj_succ, Z.pow_succ_r by lia.
    lia.
Qed.

Lemma Zdigits2_shift m k :
  0 < m -> 0 <= k -> Zdigits2 (m * 2 ^ k) = Zdigits2 m + k.
Proof.
  intros Hm Hk. destruct (Zdigits2_bounds m Hm) as [Hl Hu].
  assert (0 < Zdigits2 m) by (destruct m; simpl; lia).
  assert (0 < 2 ^ k) by (apply Z.pow_pos_nonneg; lia).
  apply Zdigits2_unique; [|lia]. split.
  - replace (Zdigits2 m + k - 1) with (Zdigits2 m - 1 + k) by lia.
    rewrite Z.pow_add_r by lia. nia.
  - rewrite Z.pow_add_r by lia. nia.
Qed.

Theorem float_of_int_correct z :
  0 < z < 2 ^ 1000 ->
  exists m e,
    float_of_int z = Ok (S754_finite false m e) /\
    nearest53 (inject_Z z) (Z.pos m) e.
Proof.
  intros Hz. destruct z as [|p|p]; try lia.
  unfold float_of_int, binary_normalize, binary_round.
  assert (Hx : (inject_Z (Z.pos p) == F2Q (Z.pos p) 0)%Q).
  { unfold F2Q. change (bpow 0) with 1%Q. ring. }
  assert (Hrange : (bpow (-1000) <= inject_Z (Z.pos p))%Q /\
                   (inject_Z (Z.pos p) < bpow 1000)%Q).
  { split.
    - apply Qle_trans with (bpow 0); [apply bpow_le; lia|].
      change (bpow 0) with (inject_Z 1). rewrite <- Zle_Qle. lia.
    - rewrite (bpow_Z 1000) by lia. rewrite <- Zlt_Qlt. lia. }
  destruct Hrange as [Hlo Hhi].
  set (d := Z.pos (digits2_pos p)).
  assert (Hd : 0 < d) by (unfold d; lia).
  unfold shl_align.
  destruct (fexp prec emax (d + 0) - 0) as [|n|n] eqn:En.
  - destruct (binary_round_aux_correct (Z.pos p) 0 loc_Exact (inject_Z (Z.pos p)))
      as (m & e & Hr & Hn); try assumption; try lia.
    { change (Zdigits2 (Z.pos p)) with d. lia. }
    rewrite Hr. eauto.
  - destruct (binary_round_aux_correct (Z.pos p) 0 loc_Exact (inject_Z (Z.pos p)))
      as (m & e & Hr & Hn); try assumption; try lia.
    { change (Zdigits2 (Z.pos p)) with d. lia. }
    rewrite Hr. eauto.
  - set (e0 := fexp prec emax (d + 0)) in *.
    destruct (binary_round_aux_correct (Z.pos (Pos.iter xO p n)) e0 loc_Exact
                (inject_Z (Z.pos p)))
      as (m & e & Hr & Hn); try assumption; try lia.
    + unfold located. rewrite Pos_iter_xO, Hx.
      replace 0 with (e0 + Z.pos n) at 1 by lia.
      rewrite F2Q_shift by lia. reflexivity.
    + rewrite Pos_iter_xO, Zdigits2_shift by lia.
      change (Zdigits2 (Z.pos p)) with d.
      replace (d + Z.pos n + e0) with (d + 0) by lia. fold e0. lia.
    + rewrite Hr. eauto.
Qed.

Lemma nearest53_exact x m e :
  nearest53 x m e -> representable x -> (F2Q m e == x)%Q.
Proof.
  intros Hn Hr. apply Qle_antisym.
  - apply (nearest53_le x); auto. apply Qle_refl.
  - apply (nearest53_ge x); auto. apply Qle_refl.
Qed.

Lemma F2Q_0 m : (F2Q m 0 == inject_Z m)%Q.
Proof. unfold F2Q. change (bpow 0) with 1%Q. ring. Qed.

(** [int()] of a positive float is the floor of its value. *)
Theorem int_of_float_floor m e :
  exists z,
    int_of_float (S754_finite false m e) = Ok z /\
    (inject_Z z <= F2Q (Z.pos m) e)%Q /\ (F2Q (Z.pos m) e < inject_Z (z + 1))%Q.
Proof.
  unfold int_of_float. cbn [cond_Zopp].
  destruct (Z.leb_spec 0 e) as [He|He]; eexists; (split; [reflexivity|]).
  - rewrite Z.shiftl_mul_pow2 by lia.
    replace e with (0 + e) at 2 3 by lia.
    rewrite F2Q_shift, F2Q_0 by lia. rewrite <- Zle_Qle, <- Zlt_Qlt. lia.
  - rewrite Z.shiftr_div_pow2 by lia.
    set (k := - e). set (P := 2 ^ k).
    assert (HP : 0 < P) by (apply Z.pow_pos_nonneg; lia).
    pose proof (Z.div_mod (Z.pos m) P ltac:(lia)) as Hdm.
    pose proof (Z.mod_pos_bound (Z.pos m) P HP) as Hr.
    set (z := Z.pos m / P) in *.
    assert (Ez : forall a, (inject_Z a == F2Q (a * P) e)%Q).
    { intros a. unfold P. rewrite <- (F2Q_shift a e k) by (unfold k; lia).
      replace (e + k) with 0 by (unfold k; lia). rewrite F2Q_0. reflexivity. }
    rewrite (Ez z), (Ez (z + 1)). split; [apply F2Q_le | apply F2Q_lt]; lia.
Qed.

Lemma float_one_eq : float_one = S754_finite false 4503599627370496 (-52).
Proof. vm_compute. reflexivity. Qed.

Theorem float_gt_one_iff m e :
  2 ^ 52 <= Z.pos m < 2 ^ 53 ->
  float_gt_one (S754_finite false m e) = true <-> (1 < F2Q (Z.pos m) e)%Q.
Proof.
  intros Hm. unfold float_gt_one. rewrite float_one_eq.
  unfold SFltb, SFcompare.
  pose proof (F2Q_le (2 ^ 52) (Z.pos m) e ltac:(lia)) as Hl.
  pose proof (F2Q_lt (Z.pos m) (2 ^ 53) e ltac:(lia)) as Hu.
  rewrite F2Q_bpow in Hl, Hu by lia.
  
  destruct (Z.compare_spec (-52) e) as [E|L|G].
  - subst e.  
    assert (E1 : (1 == F2Q (2 ^ 52) (-52))%Q) by (rewrite F2Q_bpow by lia; reflexivity).
    rewrite E1. 
    change (Pos.compare_cont Eq 4503599627370496 m) with (Pos.compare 4503599627370496 m).
    
    destruct (Pos.compare_spec 4503599627370496 m) as [E|L|G].
    +  split; [discriminate|]. intros H.  rewrite <- E in H. exfalso. revert H. apply Qlt_irrefl.
    + split; [intros _|reflexivity]. apply F2Q_lt.
      apply Pos2Z.pos_lt_pos in L. lia.
    + exfalso. apply Pos2Z.pos_lt_pos in G. lia.
  -  split; [intros _|reflexivity].
    pose proof (bpow_le 1 (e + 52) ltac:(lia)). change (bpow 1) with 2%Q in H. lra.
  - split; [discriminate|]. intros H.
    pose proof (bpow_le (e + 53) 0 ltac:(lia)) as H0. change (bpow 0) with 1%Q in H0. lra.
Qed.

(** ** The arithmetic of [resize_image] *)

Lemma wide_range x :
  (bpow (-62) <= x)%Q -> (x < bpow 62)%Q ->
  (bpow (-1000) <= x)%Q /\ (x < bpow 1000)%Q.
Proof.
  intros H1 H2.
  pose proof (bpow_le (-1000) (-62) ltac:(lia)).
  pose proof (bpow_le 62 1000 ltac:(lia)). split; lra.
Qed.

Lemma bpow_m31 : (bpow (-31) == 1 # 2147483648)%Q.
Proof. reflexivity. Qed.

Lemma bpow_31 : (bpow 31 == 2147483648)%Q.
Proof. reflexivity. Qed.

Lemma bpow_m62 : (bpow (-62) == 1 # 4611686018427387904)%Q.
Proof. reflexivity. Qed.

Lemma bpow_62 : (bpow 62 == 4611686018427387904)%Q.
Proof. reflexivity. Qed.

Lemma dim_Q n : dim n -> (1 <= inject_Z n)%Q /\ (inject_Z n < 2147483648)%Q.
Proof.
  intros [H1 H2]. split.
  - change 1%Q with (inject_Z 1). rewrite <- Zle_Qle. lia.
  - change 2147483648%Q with (inject_Z 2147483648). rewrite <- Zlt_Qlt. lia.
Qed.

Lemma dim_representable n : dim n -> representable (inject_Z n).
Proof. intros [H1 H2]. apply representable_Z. lia. Qed.

(** [width / height] *)
Lemma int_truediv_correct w h :
  dim w -> dim h ->
  exists m e,
    int_truediv w h = Ok (S754_finite false m e) /\
    nearest53 (inject_Z w / inject_Z h) (Z.pos m) e.
Proof.
  intros Hw Hh.
  destruct (dim_Q w Hw) as [Hw1 Hw2]. destruct (dim_Q h Hh) as [Hh1 Hh2].
  unfold int_truediv.
  destruct (Z.eqb_spec h 0) as [E|_]; [unfold dim in Hh; lia|].
  destruct w as [|pw|pw]; try (unfold dim in Hw; lia).
  destruct h as [|ph|ph]; try (unfold dim in Hh; lia).
  cbn [int_operand].
  destruct (SFdiv_correct pw 0 ph 0 (inject_Z (Z.pos pw) / inject_Z (Z.pos ph)))
    as (m & e & Hd & Hn).
  - rewrite !F2Q_0. reflexivity.
  - apply wide_range.
    + rewrite bpow_m62. apply Qle_shift_div_l; lra.
    + rewrite bpow_62. apply Qlt_shift_div_r; lra.
  - apply wide_range.
    + rewrite bpow_m62. apply Qle_shift_div_l; lra.
    + rewrite bpow_62. apply Qlt_shift_div_r; lra.
  - rewrite Hd. eauto.
Qed.

Lemma float_of_int_exact c :
  dim c ->
  exists m e,
    float_of_int c = Ok (S754_finite false m e) /\
    2 ^ 52 <= Z.pos m < 2 ^ 53 /\ (F2Q (Z.pos m) e == inject_Z c)%Q.
Proof.
  intros Hc. destruct (float_of_int_correct c) as (m & e & Hf & Hn).
  - unfold dim in Hc. split; [lia|].
    apply Z.lt_trans with (2 ^ 31); [lia|]. apply Z.pow_lt_mono_r; lia.
  - exists m, e. split; [exact Hf|]. split; [apply Hn|].
    apply nearest53_exact; [exact Hn|]. apply dim_representable, Hc.
Qed.

(** [new_width / aspect_ratio] *)
Lemma int_div_float_correct c m e :
  dim c -> (bpow (-31) <= F2Q (Z.pos m) e)%Q -> (F2Q (Z.pos m) e <= bpow 31)%Q ->
  exists m' e',
    int_div_float c (S754_finite false m e) = Ok (S754_finite false m' e') /\
    nearest53 (inject_Z c / F2Q (Z.pos m) e) (Z.pos m') e'.
Proof.
  intros Hc Hl Hu. destruct (dim_Q c Hc) as [Hc1 Hc2].
  rewrite bpow_m31 in Hl. rewrite bpow_31 in Hu.
  destruct (float_of_int_exact c Hc) as (mc & ec & Hf & Hcan & Hv).
  unfold int_div_float. rewrite Hf. cbn [mbind result_bind float_is_zero].
  destruct (SFdiv_correct mc ec m e (inject_Z c / F2Q (Z.pos m) e))
    as (m' & e' & Hd & Hn).
  - rewrite Hv. reflexivity.
  - apply wide_range.
    + rewrite bpow_m62. apply Qle_shift_div_l; lra.
    + rewrite bpow_62. apply Qlt_shift_div_r; lra.
  - apply wide_range.
    + rewrite bpow_m62. apply Qle_shift_div_l; lra.
    + rewrite bpow_62. apply Qlt_shift_div_r; lra.
  - rewrite Hd. eauto.
Qed.

(** [new_height * aspect_ratio] *)
Lemma int_mul_float_correct c m e :
  dim c -> 2 ^ 52 <= Z.pos m ->
  (bpow (-31) <= F2Q (Z.pos m) e)%Q -> (F2Q (Z.pos m) e <= bpow 31)%Q ->
  exists m' e',
    int_mul_float c (S754_finite false m e) = Ok (S754_finite false m' e') /\
    nearest53 (inject_Z c * F2Q (Z.pos m) e) (Z.pos m') e'.
Proof.
  intros Hc Hm Hl Hu. destruct (dim_Q c Hc) as [Hc1 Hc2].
  rewrite bpow_m31 in Hl. rewrite bpow_31 in Hu.
  destruct (float_of_int_exact c Hc) as (mc & ec & Hf & Hcan & Hv).
  unfold int_mul_float. rewrite Hf. cbn [mbind result_bind].
  destruct (SFmul_correct mc ec m e (inject_Z c * F2Q (Z.pos m) e))
    as (m' & e' & Hd & Hn); try lia.
  - rewrite Hv. reflexivity.
  - apply wide_range; [rewrite bpow_m62 | rewrite bpow_62]; nra.
  - apply wide_range; [rewrite bpow_m62 | rewrite bpow_62]; nra.
  - rewrite Hd. eauto.
Qed.

Lemma int_of_float_floor_of m e :
  exists z, int_of_float (S754_finite false m e) = Ok z /\
            floor_of (F2Q (Z.pos m) e) z /\ 0 <= z.
Proof.
  destruct (int_of_float_floor m e) as (z & Hz & Hl & Hu).
  exists z. split; [exact Hz|]. split.
  - split; [exact Hl|]. rewrite inject_Z_plus in Hu. exact Hu.
  - pose proof (F2Q_pos (Z.pos m) e ltac:(lia)) as Hp.
    assert ((inject_Z 0 < inject_Z (z + 1))%Q) by (change (inject_Z 0) with 0%Q; lra).
    rewrite <- Zlt_Qlt in H. lia.
Qed.

(** What [resize_image] computes before it calls the imaging library: the
    aspect ratio is a nearest double of [w / h], it exceeds 1 exactly when
    [h < w], the scaled side is the integer part of a nearest double of the
    quotient or product. *)
Lemma scaled_size_spec w h cw ch :
  dim w -> dim h -> dim cw -> dim ch ->
  exists ma ea mq eq n,
    int_truediv w h = Ok (S754_finite false ma ea) /\
    nearest53 (inject_Z w / inject_Z h) (Z.pos ma) ea /\
    float_gt_one (S754_finite false ma ea) = (h <? w) /\
    (if h <? w then int_div_float cw (S754_finite false ma ea)
     else int_mul_float ch (S754_finite false ma ea))
    = Ok (S754_finite false mq eq) /\
    nearest53 (if h <? w then inject_Z cw / F2Q (Z.pos ma) ea
               else inject_Z ch * F2Q (Z.pos ma) ea) (Z.pos mq) eq /\
    int_of_float (S754_finite false mq eq) = Ok n /\
    floor_of (F2Q (Z.pos mq) eq) n /\ 0 <= n /\
    scaled_size w h (cw, ch) = Ok (if h <? w then (cw, n) else (n, ch)).
Proof.
  intros Hw Hh Hcw Hch.
  destruct (dim_Q w Hw) as [Hw1 Hw2]. destruct (dim_Q h Hh) as [Hh1 Hh2].
  destruct (int_truediv_correct w h Hw Hh) as (ma & ea & Ha & Hna).
  set (x := (inject_Z w / inject_Z h)%Q) in *.
  assert (Hl : (bpow (-31) <= F2Q (Z.pos ma) ea)%Q).
  { apply (nearest53_ge x); [exact Hna | |].
    - exists 1, (-31). split; [lia|]. rewrite F2Q_one. reflexivity.
    - rewrite bpow_m31. unfold x. apply Qle_shift_div_l; lra. }
  assert (Hu : (F2Q (Z.pos ma) ea <= bpow 31)%Q).
  { apply (nearest53_le x); [exact Hna | |].
    - exists 1, 31. split; [lia|]. rewrite F2Q_one. reflexivity.
    - rewrite bpow_31. unfold x. apply Qle_shift_div_r; lra. }
  assert (Hgt : float_gt_one (S754_finite false ma ea) = (h <? w)).
  { destruct (Z.ltb_spec h w) as [Hlt|Hge].
    - apply float_gt_one_iff; [apply Hna|].
      assert (H1 : (F2Q 2147483649 (-31) <= F2Q (Z.pos ma) ea)%Q).
      { apply (nearest53_ge x); [exact Hna | apply representable_F2Q; lia |].
        assert (E : (F2Q 2147483649 (-31) == 2147483649 # 2147483648)%Q) by reflexivity.
        rewrite E. unfold x. apply Qle_shift_div_l; [lra|].
        assert ((inject_Z h + 1 <= inject_Z w)%Q).
        { change 1%Q with (inject_Z 1). rewrite <- inject_Z_plus, <- Zle_Qle. lia. }
        lra. }
      assert (E : (F2Q 2147483649 (-31) == 2147483649 # 2147483648)%Q) by reflexivity.
      rewrite E in H1. lra.
    - apply not_true_is_false. intros Hc.
      apply float_gt_one_iff in Hc; [|apply Hna].
      assert (H1 : (F2Q (Z.pos ma) ea <= 1)%Q).
      { apply (nearest53_le x); [exact Hna | apply representable_Z; lia |].
        unfold x. apply Qle_shift_div_r; [lra|].
        rewrite Zle_Qle in Hge. lra. }
      lra. }
  destruct (Z.ltb_spec h w) as [Hlt|Hge].
  - destruct (int_div_float_correct cw ma ea Hcw Hl Hu) as (mq & eq & Hq & Hnq).
    destruct (int_of_float_floor_of mq eq) as (n & Hn & Hfl & Hn0).
    exists ma, ea, mq, eq, n. repeat (split; [assumption|]).
    unfold scaled_size. rewrite Ha. cbn [mbind result_bind]. rewrite Hgt.
    cbn [fst snd]. rewrite Hq. cbn [mbind result_bind]. rewrite Hn. reflexivity.
  - destruct (int_mul_float_correct ch ma ea Hch ltac:(apply Hna) Hl Hu)
      as (mq & eq & Hq & Hnq).
    destruct (int_of_float_floor_of mq eq) as (n & Hn & Hfl & Hn0).
    exists ma, ea, mq, eq, n. repeat (split; [assumption|]).
    unfold scaled_size. rewrite Ha. cbn [mbind result_bind]. rewrite Hgt.
    cbn [fst snd]. rewrite Hq. cbn [mbind result_bind]. rewrite Hn. reflexivity.
Qed.

Lemma floor_of_le x z c : floor_of x z -> (x <= inject_Z c)%Q -> z <= c.
Proof. intros [H1 _] H2. rewrite Zle_Qle. lra. Qed.

Lemma floor_of_ge x z c : floor_of x z -> (inject_Z c <= x)%Q -> c <= z.
Proof.
  intros [_ H1] H2.
  assert ((inject_Z c < inject_Z (z + 1))%Q) by (rewrite inject_Z_plus; exact (Qle_lt_trans _ _ _ H2 H1)).
  rewrite <- Zlt_Qlt in H. lia.
Qed.

(** The side that is not pinned to the canvas never exceeds the side that
    is: both scaled sides are bounded by the canvas side of the branch. *)
Lemma scaled_size_bounds w h cw ch :
  dim w -> dim h -> dim cw -> dim ch ->
  exists nw nh,
    scaled_size w h (cw, ch) = Ok (nw, nh) /\ 0 <= nw /\ 0 <= nh /\
    (h < w -> nw = cw /\ nh <= cw) /\
    (w <= h -> nh = ch /\ nw <= ch).
Proof.
  intros Hw Hh Hcw Hch.
  destruct (scaled_size_spec w h cw ch Hw Hh Hcw Hch)
    as (ma & ea & mq & eq & n & Ha & Hna & Hgt & Hq & Hnq & Hn & Hfl & Hn0 & Hs).
  destruct (dim_Q cw Hcw) as [Hc1 Hc2]. destruct (dim_Q ch Hch) as [Hd1 Hd2].
  pose proof (F2Q_pos (Z.pos ma) ea ltac:(lia)) as Hpos.
  rewrite Hs. destruct (Z.ltb_spec h w) as [Hlt|Hge].
  - exists cw, n. split; [reflexivity|].
    assert (Hone : (1 < F2Q (Z.pos ma) ea)%Q) by (apply float_gt_one_iff; [apply Hna | exact Hgt]).
    assert ((F2Q (Z.pos mq) eq <= inject_Z cw)%Q).
    { apply (nearest53_le _ _ _ _ Hnq); [apply dim_representable, Hcw|].
      apply Qle_shift_div_r; [exact Hpos | nra]. }
    pose proof (floor_of_le _ _ _ Hfl H). unfold dim in Hcw. repeat split; lia.
  - exists n, ch. split; [reflexivity|].
    assert (Hone : (F2Q (Z.pos ma) ea <= 1)%Q).
    { apply Qnot_lt_le. intros Hc. apply float_gt_one_iff in Hc; [|apply Hna].
      congruence. }
    assert ((F2Q (Z.pos mq) eq <= inject_Z ch)%Q).
    { apply (nearest53_le _ _ _ _ Hnq); [apply dim_representable, Hch|]. nra. }
    pose proof (floor_of_le _ _ _ Hfl H). unfold dim in Hch. repeat split; lia.
Qed.

Lemma F2Q_below_one : (F2Q 9007199254740991 (-53) == 9007199254740991 # 9007199254740992)%Q.
Proof. reflexivity. Qed.

Lemma F2Q_above_2500 : (F2Q 5368709120001 (-31) == 5368709120001 # 2147483648)%Q.
Proof. reflexivity. Qed.

Lemma F2Q_inv_2500_up :
  (F2Q 7378697629483821 (-64) == 7378697629483821 # 18446744073709551616)%Q.
Proof. reflexivity. Qed.

Lemma F2Q_inv_2500_down :
  (F2Q 7378697629482447 (-64) == 7378697629482447 # 18446744073709551616)%Q.
Proof. reflexivity. Qed.

(** A nearest double of 1/2500 is not below [7378697629483821 * 2^-64], the
    first double whose product with 2500 reaches 1. *)
Lemma nearest53_inv_2500 x m e :
  (x == 1 # 2500)%Q -> nearest53 x m e ->
  (F2Q 7378697629483821 (-64) <= F2Q m e)%Q.
Proof.
  intros Hx (Hc & m2 & e1 & Hv & Hl & Hu & Hh1 & Hh2).
  assert (He : e1 = -64).
  { assert (e1 + 52 < -11).
    { apply bpow_lt_inv. apply Qle_lt_trans with x; [exact Hl|].
      rewrite Hx. reflexivity. }
    assert (-12 < e1 + 53).
    { apply bpow_lt_inv. apply Qle_lt_trans with x; [|exact Hu].
      rewrite Hx. discriminate. }
    lia. }
  subst e1. rewrite Hv. apply F2Q_le.
  assert ((inject_Z (2 ^ 65) <= inject_Z (2500 * (2 * m2 + 1)))%Q).
  { rewrite Hx in Hh2. unfold F2Q in Hh2.
    assert (E : (bpow (-64 - 1) == 1 # 36893488147419103232)%Q) by reflexivity.
    rewrite E in Hh2. rewrite inject_Z_mult.
    change (inject_Z 2500) with 2500%Q.
    change (inject_Z (2 ^ 65)) with 36893488147419103232%Q. lra. }
  rewrite <- Zle_Qle in H. lia.
Qed.

(** On the default canvas the scaled content has no empty side exactly when
    neither side of the source exceeds 2500 times the other. *)
Lemma scaled_size_default w h :
  dim w -> dim h ->
  exists nw nh,
    scaled_size w h default_size = Ok (nw, nh) /\
    (1 <= nw /\ 1 <= nh <-> w <= 2500 * h /\ h <= 2500 * w).
Proof.
  intros Hw Hh.
  assert (Hc : dim 2500) by (unfold dim; lia).
  destruct (scaled_size_spec w h 2500 2500 Hw Hh Hc Hc)
    as (ma & ea & mq & eq & n & Ha & Hna & Hgt & Hq & Hnq & Hn & Hfl & Hn0 & Hs).
  destruct (dim_Q w Hw) as [Hw1 Hw2]. destruct (dim_Q h Hh) as [Hh1 Hh2].
  pose proof (F2Q_pos (Z.pos ma) ea ltac:(lia)) as Hpos.
  set (A := F2Q (Z.pos ma) ea) in *. set (V := F2Q (Z.pos mq) eq) in *.
  change (inject_Z 2500) with 2500%Q in Hnq.
  unfold default_size. rewrite Hs.
  assert (Hbelow : (V <= F2Q 9007199254740991 (-53))%Q -> n <= 0).
  { intros H. rewrite F2Q_below_one in H. destruct Hfl as [Hf1 Hf2].
    assert ((inject_Z n < inject_Z 1)%Q) by (change (inject_Z 1) with 1%Q; lra).
    rewrite <- Zlt_Qlt in H0. lia. }
  assert (Hinj : forall a b : Z, a <= b -> (inject_Z a <= inject_Z b)%Q)
    by (intros a b; rewrite Zle_Qle; auto).
  destruct (Z.ltb_spec h w) as [Hlt|Hge].
  - exists 2500, n. split; [reflexivity|]. split.
    + intros [_ H1]. split; [|unfold dim in *; lia].
      destruct (Z.le_gt_cases w (2500 * h)) as [Hle|Hgt']; [exact Hle|exfalso].
      assert (H2 : (F2Q 5368709120001 (-31) <= A)%Q).
      { apply (nearest53_ge _ _ _ _ Hna); [apply representable_F2Q; lia|].
        rewrite F2Q_above_2500. apply Qle_shift_div_l; [lra|].
        pose proof (Hinj (2500 * h + 1) w ltac:(lia)) as H3.
        rewrite inject_Z_plus, inject_Z_mult in H3.
        change (inject_Z 2500) with 2500%Q in H3.
        change (inject_Z 1) with 1%Q in H3. lra. }
      rewrite F2Q_above_2500 in H2.
      assert (n <= 0); [|lia]. apply Hbelow.
      apply (nearest53_le _ _ _ _ Hnq); [apply representable_F2Q; lia|].
      rewrite F2Q_below_one. apply Qle_shift_div_r; [exact Hpos | lra].
    + intros [H1 _]. split; [lia|].
      assert (H2 : (A <= 2500)%Q).
      { apply (nearest53_le _ _ _ _ Hna).
        - change 2500%Q with (inject_Z 2500). apply representable_Z. lia.
        - apply Qle_shift_div_r; [lra|].
          apply Hinj in H1. rewrite inject_Z_mult in H1.
          change (inject_Z 2500) with 2500%Q in H1. lra. }
      apply (floor_of_ge V); [exact Hfl|]. change (inject_Z 1) with 1%Q.
      apply (nearest53_ge _ _ _ _ Hnq).
      * change 1%Q with (inject_Z 1). apply representable_Z. lia.
      * apply Qle_shift_div_l; [exact Hpos | lra].
  - exists n, 2500. split; [reflexivity|]. split.
    + intros [H1 _]. split; [unfold dim in *; lia|].
      destruct (Z.le_gt_cases h (2500 * w)) as [Hle|Hgt']; [exact Hle|exfalso].
      assert (H2 : (A <= F2Q 7378697629482447 (-64))%Q).
      { apply (nearest53_le _ _ _ _ Hna); [apply representable_F2Q; lia|].
        rewrite F2Q_inv_2500_down. apply Qle_shift_div_r; [lra|].
        pose proof (Hinj (2500 * w + 1) h ltac:(lia)) as H3.
        rewrite inject_Z_plus, inject_Z_mult in H3.
        change (inject_Z 2500) with 2500%Q in H3.
        change (inject_Z 1) with 1%Q in H3. lra. }
      rewrite F2Q_inv_2500_down in H2.
      assert (n <= 0); [|lia]. apply Hbelow.
      apply (nearest53_le _ _ _ _ Hnq); [apply representable_F2Q; lia|].
      rewrite F2Q_below_one. lra.
    + intros [_ H1]. split; [|lia].
      assert (H2 : (F2Q 7378697629483821 (-64) <= A)%Q).
      { destruct (Z.eq_dec h (2500 * w)) as [E|NE].
        - apply (nearest53_inv_2500 (inject_Z w / inject_Z h)); [|exact Hna].
          rewrite E, inject_Z_mult. change (inject_Z 2500) with 2500%Q.
          field. lra.
        - apply (nearest53_ge _ _ _ _ Hna); [apply representable_F2Q; lia|].
          rewrite F2Q_inv_2500_up. apply Qle_shift_div_l; [lra|].
          assert (H3 : h + 1 <= 2500 * w) by lia.
          apply Hinj in H3. rewrite inject_Z_plus, inject_Z_mult in H3.
          change (inject_Z 2500) with 2500%Q in H3.
          change (inject_Z 1) with 1%Q in H3. lra. }
      rewrite F2Q_inv_2500_up in H2.
      apply (floor_of_ge V); [exact Hfl|]. change (inject_Z 1) with 1%Q.
      apply (nearest53_ge _ _ _ _ Hnq).
      * change 1%Q with (inject_Z 1). apply representable_Z. lia.
      * lra.
Qed.

(** ** Paths *)

Lemma has_sep_app a b : has_sep (a ++ b) = has_sep a || has_sep b.
Proof.
  induction a as [|c a IH]; simpl; [reflexivity|].
  rewrite IH. apply orb_assoc.
Qed.

Lemma basename_no_sep p : has_sep p = false -> basename p = p.
Proof. destruct p as [|c p]; simpl; [reflexivity|]. intros ->. reflexivity. Qed.

Lemma has_sep_basename p : has_sep (basename p) = false.
Proof.
  induction p as [|c p IH]; [reflexivity|].
  cbn [basename]. destruct (has_sep (String c p)) eqn:E; [exact IH | exact E].
Qed.

Lemma basename_app a b : has_sep b = false -> basename (a ++ b) = basename a ++ b.
Proof.
  intros Hb. induction a as [|c a IH]; [apply basename_no_sep, Hb|].
  change (String c a ++ b) with (String c (a ++ b)). cbn [basename has_sep].
  rewrite has_sep_app, Hb, orb_false_r.
  destruct (is_sep c || has_sep a); [exact IH | reflexivity].
Qed.

Lemma endswith_sep_has_sep s : endswith_sep s = true -> has_sep s = true.
Proof.
  induction s as [|c s IH]; [discriminate|].
  simpl. destruct s as [|c' s'].
  - intros ->. reflexivity.
  - intros H. rewrite (IH H). apply orb_true_r.
Qed.

Lemma basename_endswith_sep s : endswith_sep s = true -> basename s = "".
Proof.
  induction s as [|c s IH]; [discriminate|]. intros H.
  cbn [basename]. rewrite (endswith_sep_has_sep _ H).
  destruct s as [|c' s']; [reflexivity|]. apply IH. exact H.
Qed.

Lemma endswith_sep_app a b : b <> "" -> endswith_sep (a ++ b) = endswith_sep b.
Proof.
  intros Hb. induction a as [|c a IH]; [reflexivity|].
  change (String c a ++ b) with (String c (a ++ b)).
  cbn [endswith_sep]. destruct (a ++ b) eqn:E; [|exact IH].
  destruct a; simpl in E; [contradiction | discriminate].
Qed.

Lemma startswith_sep_has_sep s : has_sep s = false -> startswith_sep s = false.
Proof. destruct s as [|c s]; simpl; [reflexivity|]. apply orb_false_elim. Qed.

Lemma app_empty_r_str s : s ++ "" = s.
Proof.
  induction s as [|c s IH]; [reflexivity|].
  change (String c s ++ "") with (String c (s ++ "")). rewrite IH. reflexivity.
Qed.

Lemma app_assoc_str a b c : (a ++ b) ++ c = a ++ (b ++ c).
Proof.
  induction a as [|x a IH]; [reflexivity|].
  change ((String x a ++ b) ++ c) with (String x ((a ++ b) ++ c)).
  rewrite IH. reflexivity.
Qed.

(** [os.path.join] with a name that holds no separator appends it, after a
    separator where one is needed. *)
Lemma join_name a b :
  startswith_sep b = false ->
  join a b = a ++ b \/ join a b = a ++ "/" ++ b.
Proof.
  intros Hb. unfold join. rewrite Hb.
  destruct (String.eqb a "" || endswith_sep a); auto.
Qed.

(** The file name survives the flattening. *)
Lemma basename_join a b : has_sep b = false -> basename (join a b) = b.
Proof.
  intros Hb. unfold join. rewrite (startswith_sep_has_sep _ Hb).
  destruct (String.eqb_spec a "") as [->|Ha]; [apply basename_no_sep, Hb|].
  cbn [orb]. destruct (endswith_sep a) eqn:He.
  - rewrite basename_app, (basename_endswith_sep _ He) by exact Hb. reflexivity.
  - rewrite <- app_assoc_str, basename_app by exact Hb.
    rewrite basename_endswith_sep; [reflexivity|].
    rewrite endswith_sep_app by discriminate. reflexivity.
Qed.

Lemma basename_out_path out src : basename (out_path out src) = basename src.
Proof. apply basename_join, has_sep_basename. Qed.

(** A joined path names a file exactly when the name is not empty. *)
Lemma join_names_file a b :
  has_sep b = false ->
  String.eqb (join a b) "" || endswith_sep (join a b) = String.eqb b "".
Proof.
  intros Hb. destruct (String.eqb_spec b "") as [->|Hne].
  - unfold join. cbn [startswith_sep].
    destruct (String.eqb_spec a "") as [->|Ha]; [reflexivity|]. cbn [orb].
    destruct (endswith_sep a) eqn:He.
    + rewrite app_empty_r_str, He. apply orb_true_r.
    + rewrite endswith_sep_app by discriminate. apply orb_true_r.
  - assert (He : endswith_sep b = false).
    { destruct (endswith_sep b) eqn:E; [|reflexivity].
      apply endswith_sep_has_sep in E. congruence. }
    assert (Hn : forall x, String.eqb (x ++ b) "" = false).
    { intros x. apply String.eqb_neq. destruct x; simpl; [exact Hne | discriminate]. }
    destruct (join_name a b (startswith_sep_has_sep _ Hb)) as [-> | ->].
    + rewrite Hn, endswith_sep_app, He by exact Hne. reflexivity.
    + rewrite <- app_assoc_str, Hn, endswith_sep_app, He by exact Hne. reflexivity.
Qed.

Lemma prefix_app a b : String.prefix a (a ++ b) = true.
Proof.
  induction a as [|c a IH]; simpl; [destruct b; reflexivity|].
  destruct (ascii_dec c c); [exact IH | contradiction].
Qed.

Lemma under_child d n :
  d <> "" -> endswith_sep d = false -> startswith_sep n = false ->
  under d (join d n) = true.
Proof.
  intros Hd He Hn. unfold under, join. rewrite Hn, He.
  destruct (String.eqb_spec d ""); [contradiction|]. cbn [orb].
  rewrite <- app_assoc_str. apply prefix_app.
Qed.

Lemma prefix_trans_app a b c : String.prefix a b = true -> String.prefix a (b ++ c) = true.
Proof.
  revert b. induction a as [|x a IH]; intros b; simpl.
  - destruct (b ++ c); reflexivity.
  - destruct b as [|y b]; [discriminate|]. simpl.
    destruct (ascii_dec x y); [apply IH | discriminate].
Qed.

Lemma under_descend d r n :
  under d r = true -> startswith_sep n = false -> under d (join r n) = true.
Proof.
  intros Hr Hn. unfold under in *.
  destruct (join_name r n Hn) as [-> | ->]; apply prefix_trans_app, Hr.
Qed.


(** ** The folder of a path *)

Lemma rstrip_sep_cons c s :
  rstrip_sep (String c s)
  = if String.eqb (rstrip_sep s) "" && is_sep c then "" else String c (rstrip_sep s).
Proof. reflexivity. Qed.

Lemma rstrip_sep_keep s : endswith_sep s = false -> rstrip_sep s = s.
Proof.
  induction s as [|c s IH]; [reflexivity|]. intros H.
  rewrite rstrip_sep_cons. destruct s as [|c' s'].
  - cbn [endswith_sep] in H. cbn [rstrip_sep String.eqb andb]. rewrite H. reflexivity.
  - rewrite IH by exact H. reflexivity.
Qed.

Lemma rstrip_sep_app_sep s : rstrip_sep (s ++ "/") = rstrip_sep s.
Proof.
  induction s as [|c s IH]; [reflexivity|].
  change (String c s ++ "/") with (String c (s ++ "/")).
  rewrite !rstrip_sep_cons, IH. reflexivity.
Qed.

Lemma rstrip_sep_empty_head c s : rstrip_sep (String c s) = "" -> is_sep c = true.
Proof.
  rewrite rstrip_sep_cons.
  destruct (String.eqb (rstrip_sep s) ""); destruct (is_sep c); cbn; congruence.
Qed.

Lemma head_of_no_sep p : has_sep p = false -> head_of p = "".
Proof. destruct p as [|c p]; [reflexivity|]. cbn [head_of]. intros ->. reflexivity. Qed.

Lemma head_of_endswith_sep p : endswith_sep p = true -> head_of p = p.
Proof.
  induction p as [|c p IH]; [discriminate|]. intros H.
  cbn [head_of]. rewrite (endswith_sep_has_sep _ H).
  destruct p as [|c' p']; [reflexivity|]. rewrite IH by exact H. reflexivity.
Qed.

Lemma head_of_app a b : has_sep b = false -> head_of (a ++ b) = head_of a.
Proof.
  intros Hb. induction a as [|c a IH]; [apply head_of_no_sep, Hb|].
  change (String c a ++ b) with (String c (a ++ b)). cbn [head_of has_sep].
  rewrite has_sep_app, Hb, orb_false_r, IH. reflexivity.
Qed.

(** The stripped form of a folder written with trailing separators is one of
    its ancestors. *)
Lemma rstrip_sep_ancestor s : forall acc,
  endswith_sep s = true -> rstrip_sep s <> "" ->
  (acc ++ rstrip_sep s) ∈ ancestors_from acc s.
Proof.
  induction s as [|c s IH]; intros acc He Hr; [discriminate|].
  rewrite rstrip_sep_cons in *. cbn [ancestors_from].
  destruct s as [|c' s'].
  - cbn [endswith_sep] in He. cbn [rstrip_sep String.eqb andb] in Hr.
    rewrite He in Hr. contradiction.
  - apply elem_of_app. right.
    destruct (String.eqb_spec (rstrip_sep (String c' s')) "") as [E|E].
    + destruct (is_sep c) eqn:Hc; [cbn [andb] in Hr; contradiction|].
      cbn [andb]. rewrite E.
      pose proof (rstrip_sep_empty_head _ _ E) as Hc'.
      cbn [ancestors_from]. rewrite Hc'.
      assert (Hne : String.eqb (acc ++ String c "") "" = false).
      { apply String.eqb_neq. destruct acc; discriminate. }
      rewrite Hne. cbn [andb negb]. left.
    + cbn [andb].
      replace (acc ++ String c (rstrip_sep (String c' s')))
        with ((acc ++ String c "") ++ rstrip_sep (String c' s'))
        by (rewrite app_assoc_str; reflexivity).
      apply IH; [exact He | exact E].
Qed.

(** The folder of a file joined to [out] is [out], or [out] without its
    trailing separators. *)
Lemma dirname_join out b :
  out <> "" -> has_sep b = false ->
  dirname (join out b) ∈ (ancestors_from "" out ++ [out])%list.
Proof.
  intros Hout Hb. unfold join. rewrite (startswith_sep_has_sep _ Hb).
  destruct (String.eqb_spec out ""); [contradiction|]. cbn [orb].
  unfold dirname. destruct (endswith_sep out) eqn:He.
  - rewrite head_of_app, head_of_endswith_sep by assumption.
    destruct (String.eqb_spec (rstrip_sep out) "") as [E|E].
    + apply elem_of_app. right. left.
    + apply elem_of_app. left.
      exact (rstrip_sep_ancestor out "" He E).
  - rewrite <- app_assoc_str, head_of_app by exact Hb.
    rewrite head_of_endswith_sep
      by (rewrite endswith_sep_app by discriminate; reflexivity).
    rewrite rstrip_sep_app_sep, rstrip_sep_keep by exact He.
    destruct (String.eqb_spec out ""); [contradiction|].
    apply elem_of_app. right. left.
Qed.

(** ** The output folder *)

Lemma isfile_set_dirs w ds p : isfile (set_dirs w ds) p = isfile w p.
Proof. reflexivity. Qed.

(** [os.makedirs], when it returns: every folder on the way is a directory,
    the directories there were are as they were, the new ones are empty and
    on the way, and no file and no log record is touched. *)
Lemma mkdir_chain_Ok chain : forall w w1,
  mkdir_chain w chain = Ok w1 ->
  (forall d, d ∈ chain -> isdir w1 d = true) /\
  w_files w1 = w_files w /\ w_log w1 = w_log w /\
  (forall p t, w_dirs w !! p = Some t -> w_dirs w1 !! p = Some t) /\
  (forall p, w_dirs w !! p = None -> is_Some (w_dirs w1 !! p) ->
             p ∈ chain /\ w_dirs w1 !! p = Some (Dir [] [])).
Proof.
  induction chain as [|d rest IH]; intros w w1 H.
  - injection H as <-.
    split; [intros d Hd; inversion Hd|]. split; [reflexivity|].
    split; [reflexivity|]. split; [auto|].
    intros p Hn [t Ht]. congruence.
  - cbn [mkdir_chain] in H. destruct (isdir w d) eqn:Hd.
    + destruct (IH _ _ H) as (H1 & H2 & H3 & H4 & H5).
      split; [|split; [exact H2|split; [exact H3|split; [exact H4|]]]].
      * intros x Hx. apply elem_of_cons in Hx as [->|Hx]; [|apply H1, Hx].
        apply bool_decide_eq_true in Hd as [t Ht].
        apply bool_decide_eq_true. rewrite (H4 _ _ Ht). eauto.
      * intros p Hn Hs. destruct (H5 p Hn Hs) as [Hin Hp]. split; [right; exact Hin | exact Hp].
    + destruct (isfile w d); [destruct rest; discriminate|].
      destruct (IH _ _ H) as (H1 & H2 & H3 & H4 & H5).
      cbn [w_files w_log w_dirs set_dirs] in *.
      apply bool_decide_eq_false in Hd.
      assert (Hnone : w_dirs w !! d = None).
      { destruct (w_dirs w !! d) eqn:E; [exfalso; apply Hd; eauto | reflexivity]. }
      split; [|split; [exact H2|split; [exact H3|split]]].
      * intros x Hx. apply elem_of_cons in Hx as [->|Hx]; [|apply H1, Hx].
        apply bool_decide_eq_true. rewrite (H4 d (Dir [] [])); [eauto|].
        apply lookup_insert_eq.
      * intros p t Hp. apply H4. rewrite lookup_insert_ne; [exact Hp | congruence].
      * intros p Hn Hs. destruct (String.eqb_spec d p) as [->|Hne].
        -- split; [left|]. apply H4, lookup_insert_eq.
        -- destruct (H5 p) as [Hin Hp]; [rewrite lookup_insert_ne by exact Hne; exact Hn
                                        | exact Hs |].
           split; [right; exact Hin | exact Hp].
Qed.

Lemma makedirs_Ok w out w1 :
  makedirs w out = Ok w1 ->
  out <> "" /\
  (forall d, d ∈ (ancestors_from "" out ++ [out])%list -> isdir w1 d = true) /\
  w_files w1 = w_files w /\ w_log w1 = w_log w /\
  (forall p t, w_dirs w !! p = Some t -> w_dirs w1 !! p = Some t) /\
  (forall p, w_dirs w !! p = None -> is_Some (w_dirs w1 !! p) ->
             p ∈ (ancestors_from "" out ++ [out])%list /\
             w_dirs w1 !! p = Some (Dir [] [])).
Proof.
  unfold makedirs. destruct (String.eqb_spec out "") as [->|Hne]; [discriminate|].
  intros H. split; [exact Hne|]. exact (mkdir_chain_Ok _ _ _ H).
Qed.

Lemma makedirs_creates w out w1 : makedirs w out = Ok w1 -> isdir w1 out = true.
Proof.
  intros H. apply makedirs_Ok in H as (_ & H & _). apply H.
  apply elem_of_app. right. left.
Qed.

Lemma isfile_makedirs w out w1 p : makedirs w out = Ok w1 -> isfile w1 p = isfile w p.
Proof.
  intros H. apply makedirs_Ok in H as (_ & _ & H & _). unfold isfile. rewrite H. reflexivity.
Qed.

Lemma isdir_makedirs w out w1 p :
  makedirs w out = Ok w1 -> isdir w p = true -> isdir w1 p = true.
Proof.
  intros H Hp. apply makedirs_Ok in H as (_ & _ & _ & _ & H & _).
  apply bool_decide_eq_true in Hp as [t Ht]. apply bool_decide_eq_true.
  rewrite (H _ _ Ht). eauto.
Qed.

(** Once the output folder is ensured, the folder of every output path is
    there. *)
Lemma parent_ok_makedirs w out w1 p :
  makedirs w out = Ok w1 -> parent_ok w1 (out_path out p) = true.
Proof.
  intros H. apply makedirs_Ok in H as (Hne & H & _).
  unfold parent_ok, out_path. rewrite (H (dirname (join out (basename p)))).
  - apply orb_true_r.
  - apply dirname_join; [exact Hne | apply has_sep_basename].
Qed.

(** ** The temporary directory *)

Lemma cleanup_dirs w t : w_dirs (cleanup w t) !! t = None.
Proof. apply lookup_delete_eq. Qed.

Lemma cleanup_under w t p : under t p = true -> w_files (cleanup w t) !! p = None.
Proof.
  intros H. cbn [cleanup w_files]. apply map_lookup_filter_None. right.
  intros x _ E. cbn [fst] in E. congruence.
Qed.

Lemma cleanup_outside w t p :
  under t p = false -> w_files (cleanup w t) !! p = w_files w !! p.
Proof.
  intros H. cbn [cleanup w_files].
  destruct (w_files w !! p) as [c|] eqn:E.
  - apply map_lookup_filter_Some. split; [exact E | exact H].
  - apply map_lookup_filter_None. left. exact E.
Qed.

Lemma cleanup_log w t : w_log (cleanup w t) = w_log w.
Proof. reflexivity. Qed.

(** ** One task *)

Lemma Image_open_Ok w p img :
  Image_open w p = Ok img <-> exists f, w_files w !! p = Some (ImageFile f img).
Proof.
  unfold Image_open. destruct (w_files w !! p) as [[f i|reason|m i|]|]; split;
    try discriminate; try (intros [? ?]; discriminate).
  - intros [= ->]. eauto.
  - intros [f' [= _ ->]]. reflexivity.
Qed.

Lemma Image_open_files w w' p :
  w_files w' !! p = w_files w !! p -> w_dirs w' = w_dirs w ->
  Image_open w' p = Image_open w p.
Proof. intros Hf Hd. unfold Image_open, isdir. rewrite Hf, Hd. reflexivity. Qed.

(** [Image.save] on a path that ends in a file name: it writes exactly when
    the path is [writable]. *)
Lemma Image_save_Ok w img path f w' :
  Image_save w img path f = Ok w' ->
  w' = set_files w (<[path := ImageFile f img]> (w_files w)) /\
  writable w path = true /\ String.eqb path "" || endswith_sep path = false.
Proof.
  unfold Image_save, writable.
  destruct (String.eqb path ""); [discriminate|].
  destruct (parent_ok w path); [|discriminate]. cbn [negb orb andb].
  destruct (endswith_sep path); [discriminate|]. cbn [orb].
  destruct (isdir w path); [discriminate|].
  intros [= <-]. auto.
Qed.

Lemma Image_save_writable w img path f :
  String.eqb path "" || endswith_sep path = false -> writable w path = true ->
  Image_save w img path f = Ok (set_files w (<[path := ImageFile f img]> (w_files w))).
Proof.
  intros Hn Hw. apply orb_false_elim in Hn as [Hn He].
  unfold writable in Hw. apply andb_true_iff in Hw as [Hp Hd].
  apply negb_true_iff in Hd.
  unfold Image_save. rewrite Hn, Hp, He, Hd. reflexivity.
Qed.

(** The outcome of [Image.save] does not depend on the image nor on the
    encoder, and, where the folder of the path is there, on the directories
    of the world only. *)
Lemma Image_save_dirs w w' i1 i2 f1 f2 path :
  w_dirs w' = w_dirs w -> parent_ok w path = true ->
  match Image_save w' i1 path f1, Image_save w i2 path f2 with
  | Ok _, Ok _ => True
  | Raise e1, Raise e2 => e1 = e2
  | _, _ => False
  end.
Proof.
  intros Hd Hp. unfold Image_save.
  assert (Hp' : parent_ok w' path = true) by (unfold parent_ok, isdir in *; rewrite Hd; exact Hp).
  rewrite Hp, Hp'. unfold isdir. rewrite Hd.
  destruct (String.eqb path ""); [reflexivity|]. cbn [negb].
  destruct (endswith_sep path || bool_decide (is_Some (w_dirs w !! path))); [reflexivity|].
  exact I.
Qed.

(** The [try] block, stage by stage. *)
Lemma process_image_body_eq w p out fmt orig size :
  process_image_body w p out fmt orig size =
  match Image_open w p with
  | Raise e => Raise e
  | Ok img =>
      match resize_image img size with
      | Raise e => Raise e
      | Ok r =>
          if supported fmt then
            match Image_save w r (out_path out orig) (encoder fmt) with
            | Ok w' => Ok (w', out_path out orig)
            | Raise e => Raise e
            end
          else Raise (ValueError ("Formato no soportado: " ++ fmt))
      end
  end.
Proof.
  unfold process_image_body.
  destruct (Image_open w p) as [img|e]; [|reflexivity]. cbn [mbind result_bind].
  destruct (resize_image img size) as [r|e]; [|reflexivity]. cbn [mbind result_bind].
  unfold supported, encoder. fold (out_path out orig).
  destruct (String.eqb (lower fmt) "jpg"); cbn [orb];
    [destruct (Image_save w r (out_path out orig) "JPEG"); reflexivity|].
  destruct (String.eqb (lower fmt) "png"); cbn [orb];
    [destruct (Image_save w r (out_path out orig) "PNG"); reflexivity|].
  destruct (String.eqb (lower fmt) "webp"); cbn [orb];
    [destruct (Image_save w r (out_path out orig) "WEBP"); reflexivity|].
  reflexivity.
Qed.

Lemma out_path_names_file out src :
  String.eqb (out_path out src) "" || endswith_sep (out_path out src)
  = String.eqb (basename src) "".
Proof. apply join_names_file, has_sep_basename. Qed.

Lemma out_path_truthy out src :
  String.eqb (basename src) "" = false -> truthy (Some (out_path out src)) = true.
Proof.
  intros H. pose proof (out_path_names_file out src) as Hj.
  rewrite H in Hj. apply orb_false_elim in Hj as [Hj _].
  unfold truthy. rewrite Hj. reflexivity.
Qed.

(** A successful task, for any canvas. *)
Lemma process_image_success w p out fmt orig size w' o :
  process_image w p out fmt orig size = (w', Some o) ->
  o = out_path out orig /\ supported fmt = true /\
  String.eqb (basename orig) "" = false /\ writable w o = true /\
  exists f img r,
    w_files w !! p = Some (ImageFile f img) /\ resize_image img size = Ok r /\
    w' = set_files w (<[o := ImageFile (encoder fmt) r]> (w_files w)).
Proof.
  unfold process_image. rewrite process_image_body_eq.
  destruct (Image_open w p) as [img|e] eqn:Ho; [|discriminate].
  apply Image_open_Ok in Ho as [f Hf].
  destruct (resize_image img size) as [r|e] eqn:Hr; [|discriminate].
  destruct (supported fmt); [|discriminate].
  destruct (Image_save w r (out_path out orig) (encoder fmt)) as [w2|e] eqn:Hs;
    [|discriminate].
  apply Image_save_Ok in Hs as (-> & Hw & Hn).
  rewrite out_path_names_file in Hn.
  intros [= <- <-]. split; [reflexivity|]. split; [reflexivity|].
  split; [exact Hn|]. split; [exact Hw|]. exists f, img, r. auto.
Qed.

(** A task either writes its one file and returns its path, or logs one
    record and returns nothing. *)
Lemma process_image_task w p out fmt :
  process_image w p out fmt p default_size =
  match task_error w p out fmt with
  | Some e => (logger_error w (error_record p e), None)
  | None =>
      match w_files w !! p with
      | Some (ImageFile _ img) =>
          match resize_image img default_size with
          | Ok r => (set_files w (<[out_path out p := ImageFile (encoder fmt) r]>
                                    (w_files w)),
                     Some (out_path out p))
          | Raise _ => (w, None)
          end
      | _ => (w, None)
      end
  end.
Proof.
  unfold process_image, task_error. rewrite process_image_body_eq.
  destruct (Image_open w p) as [img|e] eqn:Ho; [|reflexivity].
  apply Image_open_Ok in Ho as [f Hf]. rewrite Hf.
  destruct (resize_image img default_size) as [r|e]; [|reflexivity].
  destruct (supported fmt); [|reflexivity].
  destruct (Image_save w r (out_path out p) (encoder fmt)) as [w2|e] eqn:Hs;
    [|reflexivity].
  apply Image_save_Ok in Hs as (-> & _). reflexivity.
Qed.

Lemma task_error_None w p out fmt :
  task_error w p out fmt = None <->
  processable w p = true /\ supported fmt = true /\ writable w (out_path out p) = true.
Proof.
  unfold task_error, processable. rewrite process_image_body_eq. unfold Image_open.
  destruct (w_files w !! p) as [[f img|reason|m i|]|];
    try (split; [discriminate|intros (? & ? & ?); discriminate]).
  destruct (resize_image img default_size) as [r|e]; cbn [is_ok andb];
    [|split; [discriminate|intros (? & ? & ?); discriminate]].
  destruct (supported fmt); [|split; [discriminate|intros (? & ? & ?); discriminate]].
  destruct (Image_save w r (out_path out p) (encoder fmt)) as [w2|e] eqn:Hs.
  - apply Image_save_Ok in Hs as (_ & Hw & Hn). rewrite out_path_names_file in Hn.
    rewrite Hn. split; auto.
  - split; [discriminate|]. intros (Hb & _ & Hw). apply negb_true_iff in Hb.
    rewrite Image_save_writable in Hs; [discriminate| |exact Hw].
    rewrite out_path_names_file. exact Hb.
Qed.

Lemma task_error_indep w w' p out fmt :
  w_files w' !! p = w_files w !! p -> w_dirs w' = w_dirs w ->
  parent_ok w (out_path out p) = true ->
  task_error w' p out fmt = task_error w p out fmt.
Proof.
  intros Hf Hd Hp. unfold task_error. rewrite !process_image_body_eq.
  rewrite (Image_open_files w w' p Hf Hd).
  destruct (Image_open w p) as [img|e]; [|reflexivity].
  destruct (resize_image img default_size) as [r|e]; [|reflexivity].
  destruct (supported fmt); [|reflexivity].
  pose proof (Image_save_dirs w w' r r (encoder fmt) (encoder fmt) (out_path out p) Hd Hp) as H.
  destruct (Image_save w' r (out_path out p) (encoder fmt)),
           (Image_save w r (out_path out p) (encoder fmt)); try contradiction; congruence.
Qed.

Lemma processable_indep w w' p :
  w_files w' !! p = w_files w !! p -> processable w' p = processable w p.
Proof. intros H. unfold processable. rewrite H. reflexivity. Qed.

Lemma succeeds_task_error w out fmt p :
  succeeds w out fmt p = true <-> task_error w p out fmt = None.
Proof.
  unfold succeeds. destruct (task_error w p out fmt); split; congruence.
Qed.

Lemma resize_image_shape img cw ch out :
  resize_image img (cw, ch) = Ok out ->
  width out = cw /\ height out = ch /\ mode out = ModeRGB.
Proof.
  unfold resize_image. intros H.
  destruct (scaled_size (width img) (height img) (cw, ch)) as [[nw nh]|e];
    [|discriminate].
  cbn [mbind result_bind] in H.
  destruct (Image_resize img (nw, nh)) as [r|e]; [|discriminate].
  cbn [mbind result_bind] in H. unfold Image_new in H. cbn [fst snd] in H.
  destruct ((cw <? 0) || (ch <? 0)); [discriminate|].
  cbn [mbind result_bind] in H. injection H as <-.
  cbn. auto.
Qed.

Lemma holds_canvas_keep w w' fmt o :
  w_files w' !! o = w_files w !! o -> holds_canvas w' fmt o = holds_canvas w fmt o.
Proof. unfold holds_canvas. intros ->. reflexivity. Qed.

Lemma isfile_keep w w' q :
  w_files w' !! q = w_files w !! q -> isfile w' q = isfile w q.
Proof. unfold isfile. intros ->. reflexivity. Qed.

(** What a task leaves of the world. *)
Lemma process_image_frame w p out fmt w' r :
  process_image w p out fmt p default_size = (w', r) ->
  w_dirs w' = w_dirs w /\
  (forall q, q <> out_path out p -> w_files w' !! q = w_files w !! q) /\
  match r with
  | Some o =>
      o = out_path out p /\ truthy r = true /\ w_log w' = w_log w /\
      task_error w p out fmt = None /\ holds_canvas w' fmt o = true
  | None =>
      w_files w' = w_files w /\
      exists e, task_error w p out fmt = Some e /\
                w_log w' = (w_log w ++ [error_record p e])%list
  end.
Proof.
  intros H. destruct r as [o|].
  - pose proof H as H'. apply process_image_success in H'
      as (-> & Hs & Hb & Hw & f & img & x & Hf & Hr & ->).
    cbn [w_dirs w_files w_log set_files].
    split; [reflexivity|]. split; [intros q Hq; apply lookup_insert_ne; congruence|].
    split; [reflexivity|]. split; [apply out_path_truthy, Hb|].
    split; [reflexivity|]. split.
    + apply task_error_None. split; [|split; assumption].
      unfold processable. rewrite Hf, Hr, Hb. reflexivity.
    + apply resize_image_shape in Hr as (Ew & Eh & Em).
      unfold holds_canvas. cbn [w_files set_files]. rewrite lookup_insert_eq.
      rewrite String.eqb_refl, Ew, Eh, Em. reflexivity.
  - rewrite process_image_task in H.
    destruct (task_error w p out fmt) as [e|] eqn:Ht.
    + injection H as <-. cbn. repeat split; eauto.
    + exfalso. apply task_error_None in Ht as (Hp & _). unfold processable in Hp.
      destruct (w_files w !! p) as [[f img|reason|m i|]|]; try discriminate.
      destruct (resize_image img default_size); discriminate.
Qed.

(** What every task keeps, whatever it returns. *)
Lemma process_image_keeps w p out fmt w' r :
  process_image w p out fmt p default_size = (w', r) ->
  (forall q, isfile w q = true -> isfile w' q = true) /\
  (forall o, holds_canvas w fmt o = true -> holds_canvas w' fmt o = true).
Proof.
  intros H. apply process_image_frame in H as (_ & Hfr & Hr). split.
  - intros q Hq. destruct (String.eqb_spec q (out_path out p)) as [->|Hne].
    + destruct r as [o|].
      * destruct Hr as (-> & _ & _ & _ & Hc). unfold holds_canvas in Hc.
        unfold isfile. destruct (w_files w' !! out_path out p); [|discriminate].
        apply bool_decide_eq_true. eauto.
      * destruct Hr as (Hf & _). unfold isfile in *. rewrite Hf. exact Hq.
    + rewrite (isfile_keep w w'); [exact Hq | apply Hfr, Hne].
  - intros o Ho. destruct (String.eqb_spec o (out_path out p)) as [->|Hne].
    + destruct r as [o'|].
      * destruct Hr as (-> & _ & _ & _ & Hc). exact Hc.
      * destruct Hr as (Hf & _). unfold holds_canvas in *. rewrite Hf. exact Ho.
    + rewrite (holds_canvas_keep w w'); [exact Ho | apply Hfr, Hne].
Qed.

(** ** The order of completion *)

Lemma insert_at_perm {A} k (x : A) l : insert_at k x l ≡ₚ x :: l.
Proof.
  unfold insert_at. rewrite <- Permutation_middle, take_drop. reflexivity.
Qed.

Lemma completion_perm {A} (l : list A) : forall picks, completion picks l ≡ₚ l.
Proof.
  induction l as [|x l IH]; intros picks; [reflexivity|].
  cbn [completion]. rewrite insert_at_perm, IH. reflexivity.
Qed.

Lemma futures_of_fst l : (futures_of l).*1 = seq 0 (length l).
Proof. unfold futures_of. apply fst_zip. rewrite length_seq. reflexivity. Qed.

Lemma futures_of_snd l : (futures_of l).*2 = l.
Proof. unfold futures_of. apply snd_zip. rewrite length_seq. reflexivity. Qed.

Lemma completion_fst picks l :
  (completion picks (futures_of l)).*1 ≡ₚ seq 0 (length l).
Proof. rewrite completion_perm. rewrite futures_of_fst. reflexivity. Qed.

Lemma completion_snd picks l : (completion picks (futures_of l)).*2 ≡ₚ l.
Proof. rewrite completion_perm. rewrite futures_of_snd. reflexivity. Qed.

Lemma completion_NoDup picks l : NoDup (completion picks (futures_of l)).*1.
Proof. rewrite completion_fst. apply NoDup_seq. Qed.

(** ** Collecting the results *)

Lemma collect_spec done idxs : forall acc,
  collect done idxs acc
  = (acc ++ omap (fun i => kept (future_result done i)) idxs)%list.
Proof.
  induction idxs as [|i rest IH]; intros acc; [cbn; rewrite app_nil_r; reflexivity|].
  cbn [collect omap list_omap]. rewrite IH. unfold kept at 2.
  destruct (truthy (future_result done i)); [|reflexivity].
  rewrite <- app_assoc. reflexivity.
Qed.

(** A future holds what its task has left in it. *)
Lemma future_result_in (done : list (nat * option string)) i r :
  NoDup done.*1 -> (i, r) ∈ done -> future_result done i = r.
Proof.
  unfold future_result. induction done as [|[j x] rest IH]; intros Hnd Hin;
    [inversion Hin|].
  cbn [List.find fst]. apply NoDup_cons in Hnd as [Hj Hnd].
  apply elem_of_cons in Hin as [[= <- <-]|Hin].
  - rewrite Nat.eqb_refl. reflexivity.
  - destruct (Nat.eqb_spec j i) as [->|Hne]; [|apply IH; assumption].
    exfalso. apply Hj. apply list_elem_of_fmap. exists (i, r). split; [reflexivity | exact Hin].
Qed.

Lemma omap_ext_in {A B} (f g : A -> option B) (l : list A) :
  (forall x, x ∈ l -> f x = g x) -> omap f l = omap g l.
Proof.
  induction l as [|x l IH]; intros H; [reflexivity|].
  cbn [omap list_omap]. rewrite (H x) by left.
  rewrite IH; [reflexivity|]. intros y Hy. apply H. right. exact Hy.
Qed.

Lemma omap_fmap_fst {A B C} (f : A -> option C) (l : list (A * B)) :
  omap f l.*1 = omap (fun d => f d.1) l.
Proof.
  induction l as [|x l IH]; [reflexivity|].
  cbn [fmap list_fmap omap list_omap]. rewrite <- IH. reflexivity.
Qed.

Lemma omap_fmap_snd {A B C} (f : B -> option C) (l : list (A * B)) :
  omap f l.*2 = omap (fun d => f d.2) l.
Proof.
  induction l as [|x l IH]; [reflexivity|].
  cbn [fmap list_fmap omap list_omap]. rewrite <- IH. reflexivity.
Qed.

(** Collected in the order of submission, the results are those the tasks
    have left, in another order. *)
Lemma collect_perm (done : list (nat * option string)) idxs :
  NoDup done.*1 -> idxs ≡ₚ done.*1 ->
  omap (fun i => kept (future_result done i)) idxs
  ≡ₚ omap (fun d => kept d.2) done.
Proof.
  intros Hnd Hp. rewrite Hp, omap_fmap_fst.
  rewrite (omap_ext_in (fun d => kept (future_result done d.1)) (fun d => kept d.2));
    [reflexivity|].
  intros [i r] Hin. cbn [fst snd]. rewrite (future_result_in done i r Hnd Hin).
  reflexivity.
Qed.

(** ** The pool and the walk, whatever the files *)

Lemma batch_keeps_refl w fmt : batch_keeps w w fmt.
Proof. repeat split; auto. Qed.

Lemma batch_keeps_trans w1 w2 w3 fmt :
  batch_keeps w1 w2 fmt -> batch_keeps w2 w3 fmt -> batch_keeps w1 w3 fmt.
Proof.
  intros (A1 & A2 & A3) (B1 & B2 & B3). split; [congruence|]. split; auto.
Qed.

Lemma process_image_batch_keeps w p out fmt w' r :
  process_image w p out fmt p default_size = (w', r) -> batch_keeps w w' fmt.
Proof.
  intros H. pose proof (process_image_keeps _ _ _ _ _ _ H) as [K1 K2].
  apply process_image_frame in H as (Hd & _). split; [exact Hd|]. split; assumption.
Qed.

Lemma kept_Some o : truthy (Some o) = true -> kept (Some o) = Some o.
Proof. unfold kept. intros ->. reflexivity. Qed.

(** The tasks in the order they end: each leaves a result under its index;
    a path when it has written its canvas, nothing when it has logged its
    record. *)
Lemma run_tasks_gen out fmt order : forall w done,
  exists ds recs,
    (run_tasks w order out fmt done).2 = (done ++ ds)%list /\
    ds.*1 = order.*1 /\
    w_log (run_tasks w order out fmt done).1 = (w_log w ++ recs)%list /\
    (length (omap (fun d => kept d.2) ds) + length recs = length order)%nat /\
    (forall d o, d ∈ ds -> kept d.2 = Some o ->
       (exists p, p ∈ order.*2 /\ o = out_path out p) /\
       holds_canvas (run_tasks w order out fmt done).1 fmt o = true) /\
    batch_keeps w (run_tasks w order out fmt done).1 fmt /\
    (forall x, (forall p, p ∈ order.*2 -> out_path out p <> x) ->
               w_files (run_tasks w order out fmt done).1 !! x = w_files w !! x).
Proof.
  induction order as [|[i p] rest IH]; intros w done.
  - exists [], []. cbn. rewrite !app_nil_r.
    split; [reflexivity|]. split; [reflexivity|]. split; [reflexivity|].
    split; [reflexivity|]. split; [intros d o Hd; inversion Hd|].
    split; [apply batch_keeps_refl | reflexivity].
  - cbn [run_tasks].
    destruct (process_image w p out fmt p default_size) as [w1 r] eqn:Hp.
    destruct (IH w1 (done ++ [(i, r)])%list)
      as (ds & recs & H1 & H2 & H3 & H4 & H5 & HK & H7).
    pose proof (process_image_batch_keeps _ _ _ _ _ _ Hp) as HK1.
    apply process_image_frame in Hp as (Hd & Hfr & Hr).
    set (R := run_tasks w1 rest out fmt (done ++ [(i, r)])%list) in *.
    assert (Hframe : forall x, (forall q, q ∈ ((i, p) :: rest).*2 -> out_path out q <> x) ->
                               w_files R.1 !! x = w_files w !! x).
    { intros x Hx. rewrite H7.
      - apply Hfr. intros E. apply (Hx p); [left | auto].
      - intros q Hq. apply Hx. right. exact Hq. }
    destruct r as [o|].
    + destruct Hr as (-> & Htr & Hlog & Ht & Hc).
      exists ((i, Some (out_path out p)) :: ds), recs.
      split; [rewrite H1, <- app_assoc; reflexivity|].
      split; [cbn [fmap list_fmap fst]; f_equal; exact H2|].
      split; [rewrite H3, Hlog; reflexivity|].
      split; [cbn [omap list_omap snd]; rewrite (kept_Some _ Htr); cbn [length]; lia|].
      split; [|split; [exact (batch_keeps_trans _ _ _ _ HK1 HK) | exact Hframe]].
      intros d o Hin Hk. apply elem_of_cons in Hin as [->|Hin].
      * cbn [snd] in Hk. rewrite (kept_Some _ Htr) in Hk. injection Hk as <-.
        split; [exists p; split; [left | reflexivity]|].
        destruct HK as (_ & _ & K3). apply K3, Hc.
      * destruct (H5 d o Hin Hk) as ((q & Hq & ->) & Hcan).
        split; [exists q; split; [right; exact Hq | reflexivity] | exact Hcan].
    + destruct Hr as (Hf & e & Ht & Hlog).
      exists ((i, None) :: ds), (error_record p e :: recs).
      split; [rewrite H1, <- app_assoc; reflexivity|].
      split; [cbn [fmap list_fmap fst]; f_equal; exact H2|].
      split; [rewrite H3, Hlog, <- app_assoc; reflexivity|].
      split; [cbn [omap list_omap snd kept truthy length]; lia|].
      split; [|split; [exact (batch_keeps_trans _ _ _ _ HK1 HK) | exact Hframe]].
      intros d o Hin Hk. apply elem_of_cons in Hin as [->|Hin]; [discriminate|].
      destruct (H5 d o Hin Hk) as ((q & Hq & ->) & Hcan).
      split; [exists q; split; [right; exact Hq | reflexivity] | exact Hcan].
Qed.

Lemma futures_of_length l : length (futures_of l) = length l.
Proof.
  rewrite <- (length_fmap snd), futures_of_snd. reflexivity.
Qed.

(** One pool, whatever the order of completion: as many new paths and new
    records as files submitted. *)
Lemma run_pool_gen picks out fmt files w acc :
  exists new recs,
    (run_pool picks w files out fmt acc).2 = (acc ++ new)%list /\
    w_log (run_pool picks w files out fmt acc).1 = (w_log w ++ recs)%list /\
    (length new + length recs = length files)%nat /\
    Forall (fun o => (exists p, p ∈ files /\ o = out_path out p) /\
                     holds_canvas (run_pool picks w files out fmt acc).1 fmt o = true)
           new /\
    batch_keeps w (run_pool picks w files out fmt acc).1 fmt /\
    (forall x, (forall p, p ∈ files -> out_path out p <> x) ->
               w_files (run_pool picks w files out fmt acc).1 !! x = w_files w !! x).
Proof.
  unfold run_pool. fold (futures_of files).
  set (order := completion picks (futures_of files)).
  destruct (run_tasks_gen out fmt order w []) as (ds & recs & H1 & H2 & H3 & H4 & H5 & HK & H7).
  destruct (run_tasks w order out fmt []) as [w' done'].
  cbn [fst snd app] in *. subst done'.
  rewrite collect_spec. change (map fst (futures_of files)) with (futures_of files).*1.
  rewrite futures_of_fst.
  assert (Hperm : omap (fun i => kept (future_result ds i)) (seq 0 (length files))
                  ≡ₚ omap (fun d => kept d.2) ds).
  { apply collect_perm; rewrite H2; [apply completion_NoDup|].
    symmetry. apply completion_fst. }
  assert (Hin : forall p, p ∈ order.*2 <-> p ∈ files)
    by (intros p; unfold order; rewrite completion_snd; reflexivity).
  eexists _, recs. split; [reflexivity|]. split; [exact H3|]. split.
  - rewrite Hperm, H4. unfold order.
    rewrite (Permutation_length (completion_perm _ _)). apply futures_of_length.
  - split; [|split; [exact HK|]].
    + apply Forall_forall. intros o Ho. rewrite Hperm in Ho.
      apply list_elem_of_omap in Ho as (d & Hd & Hk).
      destruct (H5 d o Hd Hk) as ((p & Hp & ->) & Hc).
      split; [exists p; split; [apply Hin, Hp | reflexivity] | exact Hc].
    + intros x Hx. apply H7. intros p Hp. apply Hx, Hin, Hp.
Qed.

Lemma tasks_of_cons root ds files rest :
  tasks_of ((root, ds, files) :: rest) = (map (join root) files ++ tasks_of rest)%list.
Proof. reflexivity. Qed.

(** The whole walk, whatever its files and the orders of completion. *)
Lemma process_walk_gen out fmt triples : forall sched w acc,
  exists new recs,
    (process_walk sched w triples out fmt acc).2 = (acc ++ new)%list /\
    w_log (process_walk sched w triples out fmt acc).1 = (w_log w ++ recs)%list /\
    (length new + length recs = length (tasks_of triples))%nat /\
    Forall (fun o => (exists p, p ∈ tasks_of triples /\ o = out_path out p) /\
                     holds_canvas (process_walk sched w triples out fmt acc).1 fmt o = true)
           new /\
    batch_keeps w (process_walk sched w triples out fmt acc).1 fmt /\
    (forall x, (forall p, p ∈ tasks_of triples -> out_path out p <> x) ->
               w_files (process_walk sched w triples out fmt acc).1 !! x = w_files w !! x).
Proof.
  induction triples as [|[[root ds] files] rest IH]; intros sched w acc.
  - exists [], []. cbn. rewrite !app_nil_r.
    split; [reflexivity|]. split; [reflexivity|]. split; [reflexivity|].
    split; [constructor|]. split; [apply batch_keeps_refl | reflexivity].
  - cbn [process_walk]. rewrite tasks_of_cons.
    destruct (run_pool_gen (hd [] sched) out fmt (map (join root) files) w acc)
      as (n1 & r1 & A1 & A2 & A3 & A4 & AK & A6).
    destruct (run_pool (hd [] sched) w (map (join root) files) out fmt acc) as [w1 acc1].
    cbn [fst snd] in *. subst acc1.
    destruct (IH (tl sched) w1 (acc ++ n1)%list) as (n2 & r2 & B1 & B2 & B3 & B4 & BK & B6).
    set (R := process_walk (tl sched) w1 rest out fmt (acc ++ n1)%list) in *.
    exists (n1 ++ n2)%list, (r1 ++ r2)%list.
    split; [rewrite B1, app_assoc; reflexivity|].
    split; [rewrite B2, A2, app_assoc; reflexivity|].
    split; [rewrite !length_app; lia|].
    split; [|split; [exact (batch_keeps_trans _ _ _ _ AK BK)|]].
    + apply Forall_app. split.
      * eapply Forall_impl; [exact A4|]. intros o ((p & Hp & ->) & Hc).
        split; [exists p; split; [apply elem_of_app; left; exact Hp | reflexivity]|].
        destruct BK as (_ & _ & K3). apply K3, Hc.
      * eapply Forall_impl; [exact B4|]. intros o ((p & Hp & ->) & Hc).
        split; [exists p; split; [apply elem_of_app; right; exact Hp | reflexivity]|].
        exact Hc.
    + intros x Hx. rewrite B6, A6; [reflexivity| |];
        intros p Hp; apply Hx, elem_of_app; [left | right]; exact Hp.
Qed.

(** ** The pool and the walk, when no output is a source *)

Lemma outcome_task w out fmt p :
  outcome w out fmt p
  = match task_error w p out fmt with
    | None => Some (out_path out p)
    | Some _ => None
    end.
Proof.
  unfold outcome.
  destruct (process_image w p out fmt p default_size) as [w' r] eqn:H.
  apply process_image_frame in H as (_ & _ & Hr). cbn [snd].
  destruct r as [o|].
  - destruct Hr as (-> & _ & _ & -> & _). reflexivity.
  - destruct Hr as (_ & e & -> & _). reflexivity.
Qed.

Lemma kept_outcome w out fmt p :
  kept (outcome w out fmt p)
  = if succeeds w out fmt p then Some (out_path out p) else None.
Proof.
  unfold outcome, succeeds.
  destruct (process_image w p out fmt p default_size) as [w' r] eqn:H.
  apply process_image_frame in H as (_ & _ & Hr). cbn [snd].
  destruct r as [o|].
  - destruct Hr as (-> & Htr & _ & -> & _). apply kept_Some, Htr.
  - destruct Hr as (_ & e & -> & _). reflexivity.
Qed.

Lemma omap_kept_outcome w out fmt (files : list string) :
  omap (fun p => kept (outcome w out fmt p)) files
  = map (out_path out) (List.filter (succeeds w out fmt) files).
Proof.
  induction files as [|p l IH]; [reflexivity|].
  cbn [omap list_omap List.filter]. rewrite kept_outcome, IH.
  destruct (succeeds w out fmt p); reflexivity.
Qed.

Lemma parent_ok_dirs w w' path :
  w_dirs w' = w_dirs w -> parent_ok w' path = parent_ok w path.
Proof. intros H. unfold parent_ok, isdir. rewrite H. reflexivity. Qed.

(** The tasks in any order, when the output of none that succeeds is the
    source of another: each does what it would do first. *)
Lemma run_tasks_apart out fmt order : forall w done,
  (forall p q, p ∈ order.*2 -> q ∈ order.*2 ->
               task_error w p out fmt = None -> out_path out p <> q) ->
  (forall p, p ∈ order.*2 -> parent_ok w (out_path out p) = true) ->
  (run_tasks w order out fmt done).2
  = (done ++ ((fun ip => (ip.1, outcome w out fmt ip.2)) <$> order))%list /\
  w_log (run_tasks w order out fmt done).1
  = (w_log w ++ omap (fun p => error_record p <$> task_error w p out fmt) order.*2)%list /\
  (forall x, (forall p, p ∈ order.*2 -> task_error w p out fmt = None ->
                        out_path out p <> x) ->
             w_files (run_tasks w order out fmt done).1 !! x = w_files w !! x) /\
  (forall p, p ∈ order.*2 -> task_error w p out fmt = None ->
             holds_canvas (run_tasks w order out fmt done).1 fmt (out_path out p) = true).
Proof.
  induction order as [|[i p] rest IH]; intros w done Hsep Hpar.
  - cbn. rewrite !app_nil_r. repeat split; auto. intros p Hp. inversion Hp.
  - cbn [run_tasks fmap list_fmap fst snd].
    assert (Hout : outcome w out fmt p = (process_image w p out fmt p default_size).2)
      by reflexivity.
    destruct (process_image w p out fmt p default_size) as [w1 r] eqn:Hp.
    cbn [snd] in Hout. rewrite Hout.
    destruct (run_tasks_gen out fmt rest w1 (done ++ [(i, r)])%list)
      as (_ & _ & _ & _ & _ & _ & _ & (_ & _ & Kc) & _).
    apply process_image_frame in Hp as (Hd1 & Hfr1 & Hr1).
    assert (Hsame : forall q, q ∈ rest.*2 -> w_files w1 !! q = w_files w !! q).
    { intros q Hq. destruct r as [o|].
      - destruct Hr1 as (-> & _ & _ & Ht & _). apply Hfr1.
        intros E. apply (Hsep p q); auto; [left | right; exact Hq].
      - destruct Hr1 as (-> & _). reflexivity. }
    assert (Hte : forall q, q ∈ rest.*2 ->
                   task_error w1 q out fmt = task_error w q out fmt).
    { intros q Hq. apply task_error_indep; [apply Hsame, Hq | exact Hd1|].
      apply Hpar. right. exact Hq. }
    assert (Hmap : ((fun ip : nat * string => (ip.1, outcome w1 out fmt ip.2)) <$> rest)
                   = ((fun ip => (ip.1, outcome w out fmt ip.2)) <$> rest)).
    { apply list_fmap_ext. intros k [j q] Hk. cbn [fst snd].
      rewrite !outcome_task, Hte; [reflexivity|].
      apply list_elem_of_fmap. exists (j, q). split; [reflexivity|].
      apply list_elem_of_lookup. eauto. }
    assert (Homap : omap (fun q => error_record q <$> task_error w1 q out fmt) rest.*2
                    = omap (fun q => error_record q <$> task_error w q out fmt) rest.*2).
    { apply omap_ext_in. intros q Hq. rewrite Hte by exact Hq. reflexivity. }
    destruct (IH w1 (done ++ [(i, r)])%list) as (I1 & I2 & I3 & I4).
    { intros a b Ha Hb Hta. rewrite Hte in Hta by exact Ha.
      apply Hsep; auto; right; assumption. }
    { intros q Hq. rewrite (parent_ok_dirs w w1 _ Hd1). apply Hpar. right. exact Hq. }
    set (R := run_tasks w1 rest out fmt (done ++ [(i, r)])%list) in *.
    split; [rewrite I1, Hmap, <- app_assoc; reflexivity|].
    assert (Hframe : forall x, (forall q, q ∈ p :: rest.*2 -> task_error w q out fmt = None ->
                                          out_path out q <> x) ->
                               w_files R.1 !! x = w_files w !! x).
    { intros x Hx. rewrite I3.
      - destruct r as [o|].
        + destruct Hr1 as (-> & _ & _ & Ht & _). apply Hfr1.
          intros E. apply (Hx p); [left | exact Ht | auto].
        + destruct Hr1 as (-> & _). reflexivity.
      - intros q Hq Htq. rewrite Hte in Htq by exact Hq. apply Hx; [right|]; assumption. }
    destruct r as [o|].
    + destruct Hr1 as (-> & Htr & Hlog & Ht & Hc).
      split; [rewrite I2, Homap, Hlog; cbn [omap list_omap]; rewrite Ht; reflexivity|].
      split; [exact Hframe|].
      intros q Hq Htq. apply elem_of_cons in Hq as [->|Hq].
      * apply Kc, Hc.
      * apply I4; [exact Hq|]. rewrite Hte by exact Hq. exact Htq.
    + destruct Hr1 as (Hf & e & Ht & Hlog).
      split; [rewrite I2, Homap, Hlog; cbn [omap list_omap]; rewrite Ht;
              cbn [fmap option_fmap option_map]; rewrite <- app_assoc; reflexivity|].
      split; [exact Hframe|].
      intros q Hq Htq. apply elem_of_cons in Hq as [->|Hq]; [congruence|].
      apply I4; [exact Hq|]. rewrite Hte by exact Hq. exact Htq.
Qed.

(** One pool, when no output of a task that succeeds is a source: the
    successes come back in the order of submission, whatever the order of
    completion; the records are those of the failures, in the order of
    completion. *)
Lemma run_pool_apart picks out fmt files w acc :
  (forall p q, p ∈ files -> q ∈ files ->
               task_error w p out fmt = None -> out_path out p <> q) ->
  (forall p, p ∈ files -> parent_ok w (out_path out p) = true) ->
  (run_pool picks w files out fmt acc).2
  = (acc ++ map (out_path out) (List.filter (succeeds w out fmt) files))%list /\
  (exists recs,
     w_log (run_pool picks w files out fmt acc).1 = (w_log w ++ recs)%list /\
     recs ≡ₚ omap (fun p => error_record p <$> task_error w p out fmt) files) /\
  (forall x, (forall p, p ∈ files -> task_error w p out fmt = None ->
                        out_path out p <> x) ->
             w_files (run_pool picks w files out fmt acc).1 !! x = w_files w !! x) /\
  (forall p, p ∈ files -> task_error w p out fmt = None ->
             holds_canvas (run_pool picks w files out fmt acc).1 fmt (out_path out p) = true).
Proof.
  intros Hsep Hpar. unfold run_pool. fold (futures_of files).
  set (order := completion picks (futures_of files)).
  assert (Hin : forall p, p ∈ order.*2 <-> p ∈ files)
    by (intros p; unfold order; rewrite completion_snd; reflexivity).
  destruct (run_tasks_apart out fmt order w []) as (H1 & H2 & H3 & H4).
  { intros p q Hp Hq. apply Hsep; apply Hin; assumption. }
  { intros p Hp. apply Hpar, Hin, Hp. }
  destruct (run_tasks w order out fmt []) as [w' done'].
  cbn [fst snd app] in *. subst done'.
  set (ds := (fun ip : nat * string => (ip.1, outcome w out fmt ip.2)) <$> order).
  assert (Hfst : ds.*1 = order.*1).
  { unfold ds. rewrite <- list_fmap_compose. apply list_fmap_ext. intros k [j q] _. reflexivity. }
  split; [|split; [|split]].
  - rewrite collect_spec. f_equal.
    change (map fst (futures_of files)) with (futures_of files).*1.
    rewrite omap_fmap_fst.
    rewrite (omap_ext_in _ (fun d => kept (outcome w out fmt d.2))).
    + rewrite <- (omap_fmap_snd (fun p => kept (outcome w out fmt p))), futures_of_snd.
      apply omap_kept_outcome.
    + intros [i p] Hip. cbn [fst snd]. f_equal.
      apply future_result_in; [rewrite Hfst; apply completion_NoDup|].
      apply list_elem_of_fmap. exists (i, p). split; [reflexivity|].
      unfold order. rewrite completion_perm. exact Hip.
  - eexists. split; [exact H2|]. unfold order. rewrite completion_snd. reflexivity.
  - intros x Hx. apply H3. intros p Hp. apply Hx, Hin, Hp.
  - intros p Hp. apply H4, Hin, Hp.
Qed.

(** The whole walk, when no output of a task that succeeds is a source. *)
Lemma process_walk_apart out fmt triples : forall sched w acc,
  (forall p q, p ∈ tasks_of triples -> q ∈ tasks_of triples ->
               task_error w p out fmt = None -> out_path out p <> q) ->
  (forall p, p ∈ tasks_of triples -> parent_ok w (out_path out p) = true) ->
  (process_walk sched w triples out fmt acc).2
  = (acc ++ map (out_path out) (List.filter (succeeds w out fmt) (tasks_of triples)))%list /\
  (exists recs,
     w_log (process_walk sched w triples out fmt acc).1 = (w_log w ++ recs)%list /\
     recs ≡ₚ omap (fun p => error_record p <$> task_error w p out fmt) (tasks_of triples)) /\
  (forall x, (forall p, p ∈ tasks_of triples -> task_error w p out fmt = None ->
                        out_path out p <> x) ->
             w_files (process_walk sched w triples out fmt acc).1 !! x = w_files w !! x) /\
  (forall p, p ∈ tasks_of triples -> task_error w p out fmt = None ->
             holds_canvas (process_walk sched w triples out fmt acc).1 fmt (out_path out p)
             = true).
Proof.
  induction triples as [|[[root ds] files] rest IH]; intros sched w acc Hsep Hpar.
  - cbn. rewrite !app_nil_r. split; [reflexivity|].
    split; [exists []; rewrite app_nil_r; split; reflexivity|].
    split; [reflexivity|]. intros p Hp. inversion Hp.
  - cbn [process_walk]. rewrite tasks_of_cons in *.
    set (files1 := map (join root) files) in *.
    destruct (run_pool_apart (hd [] sched) out fmt files1 w acc) as (A1 & (r1 & A2 & A2p) & A3 & A4).
    { intros p q Hp Hq. apply Hsep; apply elem_of_app; left; assumption. }
    { intros p Hp. apply Hpar, elem_of_app. left. exact Hp. }
    destruct (run_pool_gen (hd [] sched) out fmt files1 w acc)
      as (_ & _ & _ & _ & _ & _ & (Hd1 & _) & _).
    destruct (run_pool (hd [] sched) w files1 out fmt acc) as [w1 acc1].
    cbn [fst snd] in *. subst acc1.
    assert (Hsame : forall q, q ∈ tasks_of rest -> w_files w1 !! q = w_files w !! q).
    { intros q Hq. apply A3. intros p Hp Ht.
      apply Hsep; [apply elem_of_app; left; exact Hp | apply elem_of_app; right; exact Hq | exact Ht]. }
    assert (Hte : forall q, q ∈ tasks_of rest ->
                   task_error w1 q out fmt = task_error w q out fmt).
    { intros q Hq. apply task_error_indep; [apply Hsame, Hq | exact Hd1|].
      apply Hpar, elem_of_app. right. exact Hq. }
    destruct (IH (tl sched) w1 (acc ++ map (out_path out)
                                         (List.filter (succeeds w out fmt) files1))%list)
      as (B1 & (r2 & B2 & B2p) & B3 & B4).
    { intros a b Ha Hb Hta. rewrite Hte in Hta by exact Ha.
      apply Hsep; [apply elem_of_app; right; exact Ha
                  | apply elem_of_app; right; exact Hb | exact Hta]. }
    { intros q Hq. rewrite (parent_ok_dirs w w1 _ Hd1). apply Hpar, elem_of_app.
      right. exact Hq. }
    destruct (process_walk_gen out fmt rest (tl sched) w1
                (acc ++ map (out_path out) (List.filter (succeeds w out fmt) files1))%list)
      as (_ & _ & _ & _ & _ & _ & (_ & _ & Kc) & _).
    set (R := process_walk (tl sched) w1 rest out fmt
                (acc ++ map (out_path out) (List.filter (succeeds w out fmt) files1))%list) in *.
    assert (Hfil : List.filter (succeeds w1 out fmt) (tasks_of rest)
                   = List.filter (succeeds w out fmt) (tasks_of rest)).
    { apply List.filter_ext_in. intros q Hq. unfold succeeds.
      rewrite Hte; [reflexivity | apply list_elem_of_In, Hq]. }
    assert (Hom : omap (fun q => error_record q <$> task_error w1 q out fmt) (tasks_of rest)
                  = omap (fun q => error_record q <$> task_error w q out fmt) (tasks_of rest)).
    { apply omap_ext_in. intros q Hq. rewrite Hte by exact Hq. reflexivity. }
    split; [rewrite B1, Hfil, List.filter_app, map_app, app_assoc; reflexivity|].
    split; [|split].
    + exists (r1 ++ r2)%list. split; [rewrite B2, A2, app_assoc; reflexivity|].
      rewrite omap_app, A2p, B2p, Hom. reflexivity.
    + intros x Hx. rewrite B3.
      * apply A3. intros p Hp Ht. apply Hx; [apply elem_of_app; left; exact Hp | exact Ht].
      * intros q Hq Htq. rewrite Hte in Htq by exact Hq.
        apply Hx; [apply elem_of_app; right; exact Hq | exact Htq].
    + intros p Hp Ht. apply elem_of_app in Hp as [Hp|Hp].
      * apply Kc, A4; assumption.
      * apply B4; [exact Hp|]. rewrite Hte by exact Hp. exact Ht.
Qed.

(** ** The kinds of input *)

Lemma process_images_makedirs_fails sched w tmp input out fmt e :
  makedirs w out = Raise e ->
  process_images sched w tmp input out fmt = (w, Raise e).
Proof. intros H. unfold process_images. rewrite H. reflexivity. Qed.

Lemma process_images_directory sched w w1 tmp input out fmt tree :
  makedirs w out = Ok w1 ->
  isfile w input && is_archive_name input = false ->
  w_dirs w1 !! input = Some tree ->
  process_images sched w tmp input out fmt =
  ((process_walk sched w1 (walk input tree) out fmt []).1,
   Ok (process_walk sched w1 (walk input tree) out fmt []).2).
Proof.
  intros Hm Hf Hd. unfold process_images. rewrite Hm, (isfile_makedirs _ _ _ _ Hm), Hf.
  unfold isdir. rewrite Hd. rewrite bool_decide_eq_true_2 by eauto.
  destruct (process_walk sched w1 (walk input tree) out fmt []).
  reflexivity.
Qed.

Lemma process_images_archive sched w w1 tmp input out fmt members intact :
  makedirs w out = Ok w1 ->
  w_files w !! input = Some (ZipArchive members intact) ->
  is_archive_name input = true ->
  process_images sched w tmp input out fmt =
  extract_and_process_images sched w1 tmp members intact out fmt.
Proof.
  intros Hm Hf Ha. unfold process_images. rewrite Hm, (isfile_makedirs _ _ _ _ Hm), Ha.
  pose proof (makedirs_Ok _ _ _ Hm) as (_ & _ & Hfiles & _).
  unfold isfile. rewrite Hfiles, Hf.
  rewrite bool_decide_eq_true_2 by eauto. reflexivity.
Qed.

Lemma process_images_invalid sched w w1 tmp input out fmt :
  makedirs w out = Ok w1 ->
  isfile w input && is_archive_name input = false ->
  isdir w1 input = false ->
  process_images sched w tmp input out fmt =
  (w1, Raise (ValueError "La entrada debe ser un archivo ZIP, RAR o una carpeta")).
Proof.
  intros Hm Hf Hd. unfold process_images.
  rewrite Hm, (isfile_makedirs _ _ _ _ Hm), Hf, Hd. reflexivity.
Qed.

Lemma extract_and_process_images_eq sched w tmp members intact out fmt :
  extract_and_process_images sched w tmp members intact out fmt =
  if intact then
    (cleanup (process_walk sched (extracted_world w tmp members)
                (walk tmp (listing members)) out fmt []).1 tmp,
     Ok (process_walk sched (extracted_world w tmp members)
           (walk tmp (listing members)) out fmt []).2)
  else
    (cleanup (extracted_world w tmp members) tmp,
     Raise (BadZipFile "Bad CRC-32 for a member of the archive")).
Proof.
  unfold extract_and_process_images, extractall. cbn [w_files w_dirs w_log set_dirs].
  fold (extracted_world w tmp members).
  destruct intact; [|reflexivity].
  destruct (process_walk sched (extracted_world w tmp members)
              (walk tmp (listing members)) out fmt []).
  reflexivity.
Qed.

(** The walk over an extracted archive submits the files [extractall] has
    written, each once and in the same order. *)
Lemma tasks_walk_listing : forall (t : DirTree Payload) root,
  tasks_of (walk root (listing t)) = map fst (extracted root t).
Proof.
  fix IH 1. intros [files subdirs] root.
  cbn [listing walk extracted]. unfold tasks_of at 1.
  cbn [flat_map fst snd]. fold tasks_of.
  rewrite map_app. f_equal.
  - rewrite !map_map. reflexivity.
  - induction subdirs as [|[d sub] rest IHr]; [reflexivity|].
    unfold tasks_of. rewrite flat_map_app. fold tasks_of.
    rewrite map_app, <- IHr. f_equal. apply IH.
Qed.

(** The tasks of an archive run with the output folder in place. *)
Lemma isdir_extracted_world w tmp members p :
  isdir w p = true -> isdir (extracted_world w tmp members) p = true.
Proof.
  unfold isdir. cbn [extracted_world w_dirs]. intros H.
  apply bool_decide_eq_true in H as [t Ht]. apply bool_decide_eq_true.
  destruct (String.eqb_spec tmp p) as [->|Hne].
  - rewrite lookup_insert_eq. eauto.
  - rewrite !lookup_insert_ne by exact Hne. eauto.
Qed.

Lemma parent_ok_extracted_world w tmp members path :
  parent_ok w path = true -> parent_ok (extracted_world w tmp members) path = true.
Proof.
  unfold parent_ok. intros H. apply orb_true_iff in H as [H|H].
  - rewrite H. reflexivity.
  - rewrite (isdir_extracted_world _ _ _ _ H). apply orb_true_r.
Qed.

(* ===================================================================== *)
(** * Part III: the claims of the specification *)
(* ===================================================================== *)

Lemma resize_image_of_scaled img cw ch nw nh :
  scaled_size (width img) (height img) (cw, ch) = Ok (nw, nh) ->
  resize_image img (cw, ch) =
  if (nw <? 1) || (nh <? 1) then Raise (ValueError "height and width must be > 0")
  else if (cw <? 0) || (ch <? 0) then Raise (ValueError "Width and height must be >= 0")
  else Ok (Pasted (Blank ModeRGB cw ch (255, 255, 255)) (Resized img nw nh)
             ((cw - nw) `div` 2) ((ch - nh) `div` 2)).
Proof.
  intros Hs. unfold resize_image. rewrite Hs. cbn [mbind result_bind].
  unfold Image_resize. cbn [fst snd].
  destruct ((nw <? 1) || (nh <? 1)); [reflexivity|]. cbn [mbind result_bind].
  unfold Image_new. cbn [fst snd].
  destruct ((cw <? 0) || (ch <? 0)); reflexivity.
Qed.

(** ** C1 *)

(** C1, as stated, fails: a decoded image 2501 pixels wide and 1 pixel high
    has positive sides, and [resize_image] raises on it instead of returning
    a canvas. *)
Lemma resize_image_thin_line_raises :
  0 < width thin_line /\ 0 < height thin_line /\
  resize_image thin_line default_size
  = Raise (ValueError "height and width must be > 0").
Proof. vm_compute. repeat split; reflexivity. Qed.

(** C1, amended: for every image and canvas with sides in [1, 2^31), the
    scaled size is computed; whenever neither scaled side is below 1,
    [resize_image] returns an image of exactly the canvas size, in RGB mode
    with no alpha channel, and the content is pasted so that the right margin
    exceeds the left one by 0 or 1 pixel, and likewise the bottom and the top
    ones. *)
Theorem resize_image_canvas img cw ch :
  dim (width img) -> dim (height img) -> dim cw -> dim ch ->
  exists nw nh,
    scaled_size (width img) (height img) (cw, ch) = Ok (nw, nh) /\
    (1 <= nw -> 1 <= nh ->
     exists out l r t b,
       resize_image img (cw, ch) = Ok out /\
       width out = cw /\ height out = ch /\
       mode out = ModeRGB /\ has_alpha (mode out) = false /\
       margins out = Some (l, r, t, b) /\
       0 <= r - l <= 1 /\ 0 <= b - t <= 1).
Proof.
  intros Hw Hh Hcw Hch.
  destruct (scaled_size_bounds _ _ _ _ Hw Hh Hcw Hch) as (nw & nh & Hs & _).
  exists nw, nh. split; [exact Hs|]. intros Hnw Hnh.
  rewrite (resize_image_of_scaled _ _ _ _ _ Hs).
  unfold dim in Hcw, Hch.
  replace ((nw <? 1) || (nh <? 1)) with false
    by (symmetry; apply orb_false_intro; apply Z.ltb_ge; lia).
  replace ((cw <? 0) || (ch <? 0)) with false
    by (symmetry; apply orb_false_intro; apply Z.ltb_ge; lia).
  eexists _, _, _, _, _. split; [reflexivity|].
  cbn [width height mode margins has_alpha].
  repeat (split; [reflexivity|]).
  pose proof (Z.div_mod (cw - nw) 2 ltac:(lia)).
  pose proof (Z.mod_pos_bound (cw - nw) 2 ltac:(lia)).
  pose proof (Z.div_mod (ch - nh) 2 ltac:(lia)).
  pose proof (Z.mod_pos_bound (ch - nh) 2 ltac:(lia)).
  lia.
Qed.

Lemma resize_image_canvas_witness :
  exists nw nh,
    scaled_size (width photo) (height photo) (2500, 2500) = Ok (nw, nh) /\
    (1 <= nw -> 1 <= nh ->
     exists out l r t b,
       resize_image photo (2500, 2500) = Ok out /\
       width out = 2500 /\ height out = 2500 /\
       mode out = ModeRGB /\ has_alpha (mode out) = false /\
       margins out = Some (l, r, t, b) /\
       0 <= r - l <= 1 /\ 0 <= b - t <= 1).
Proof.
  apply (resize_image_canvas photo 2500 2500); unfold dim; simpl; lia.
Defined.

(** ** C2 *)

(** C2, as stated, fails on a canvas that is wider than high: a 200 x 100
    source on a 2500 x 100 canvas is scaled to 2500 x 1250, higher than the
    canvas. *)
Lemma scaled_size_overflows_canvas :
  100 < 200 /\ scaled_size 200 100 (2500, 100) = Ok (2500, 1250) /\
  ~ 1250 <= 100.
Proof. split; [lia|]. split; [vm_compute; reflexivity | lia]. Qed.

(** C2, amended: with all sides in [1, 2^31), a source wider than high is
    scaled to the canvas width and to a height of at most the canvas width;
    any other source is scaled to the canvas height and to a width of at
    most the canvas height.  So the scaled height stays within the canvas
    height when the canvas is not wider than high, the scaled width within
    the canvas width when it is not higher than wide: on a square canvas,
    as the default one, both bounds of the claim hold. *)
Theorem scaled_size_fits w h cw ch :
  dim w -> dim h -> dim cw -> dim ch ->
  exists nw nh,
    scaled_size w h (cw, ch) = Ok (nw, nh) /\
    (h < w -> nw = cw /\ nh <= cw /\ (cw <= ch -> nh <= ch)) /\
    (w <= h -> nh = ch /\ nw <= ch /\ (ch <= cw -> nw <= cw)).
Proof.
  intros Hw Hh Hcw Hch.
  destruct (scaled_size_bounds _ _ _ _ Hw Hh Hcw Hch)
    as (nw & nh & Hs & _ & _ & H1 & H2).
  exists nw, nh. split; [exact Hs|]. split; intros H.
  - destruct (H1 H). repeat split; lia.
  - destruct (H2 H). repeat split; lia.
Qed.

Lemma scaled_size_fits_witness :
  exists nw nh,
    scaled_size 800 600 (2500, 2500) = Ok (nw, nh) /\
    (600 < 800 -> nw = 2500 /\ nh <= 2500 /\ (2500 <= 2500 -> nh <= 2500)) /\
    (800 <= 600 -> nh = 2500 /\ nw <= 2500 /\ (2500 <= 2500 -> nw <= 2500)).
Proof. apply (scaled_size_fits 800 600 2500 2500); unfold dim; lia. Defined.

(** ** C3 *)

(** C3, as stated, fails: for a 3 x 2 source the quotient 2500 / 1.5 is
    1666.66..., rounding to nearest gives 1667, and the code computes 1666. *)
Lemma scaled_size_not_rounded :
  exists a q,
    int_truediv 3 2 = Ok a /\ float_gt_one a = true /\
    int_div_float 2500 a = Ok q /\
    round_half_even q = Ok 1667 /\
    scaled_size 3 2 default_size = Ok (2500, 1666).
Proof.
  eexists _, _. split; [vm_compute; reflexivity|].
  split; [vm_compute; reflexivity|]. split; [vm_compute; reflexivity|].
  split; vm_compute; reflexivity.
Qed.

(** C3, amended: the scaled sides are truncated, not rounded.  With all
    sides in [1, 2^31), the aspect ratio is the double [width / height]; it
    exceeds 1 exactly when the source is wider than high; then the new
    height is the integer part of the double [canvasWidth / aspect],
    otherwise the new width is the integer part of the double
    [canvasHeight * aspect]. *)
Theorem scaled_size_truncates w h cw ch :
  dim w -> dim h -> dim cw -> dim ch ->
  exists a q n,
    int_truediv w h = Ok a /\ float_gt_one a = (h <? w) /\
    (if h <? w then int_div_float cw a else int_mul_float ch a) = Ok q /\
    int_of_float q = Ok n /\ floor_of (SF2Q q) n /\
    scaled_size w h (cw, ch) = Ok (if h <? w then (cw, n) else (n, ch)).
Proof.
  intros Hw Hh Hcw Hch.
  destruct (scaled_size_spec w h cw ch Hw Hh Hcw Hch)
    as (ma & ea & mq & eq & n & Ha & _ & Hgt & Hq & _ & Hn & Hfl & _ & Hs).
  exists (S754_finite false ma ea), (S754_finite false mq eq), n.
  repeat (split; [assumption|]). exact Hs.
Qed.

Lemma scaled_size_truncates_witness :
  exists a q n,
    int_truediv 3 2 = Ok a /\ float_gt_one a = (2 <? 3) /\
    (if 2 <? 3 then int_div_float 2500 a else int_mul_float 2500 a) = Ok q /\
    int_of_float q = Ok n /\ floor_of (SF2Q q) n /\
    scaled_size 3 2 (2500, 2500) = Ok (if 2 <? 3 then (2500, n) else (n, 2500)).
Proof. apply (scaled_size_truncates 3 2 2500 2500); unfold dim; lia. Defined.

(** ** C4 *)

(** C4, as stated, fails: a decoded image 1 pixel wide and 2501 pixels high
    makes [resize_image] raise. *)
Lemma resize_image_tall_line_raises :
  0 < width tall_line /\ 0 < height tall_line /\
  is_ok (resize_image tall_line default_size) = false.
Proof. vm_compute. repeat split; reflexivity. Qed.

(** C4, amended: on the default canvas, for every decoded image with sides
    in [1, 2^31), [resize_image] returns when neither side of the image
    exceeds 2500 times the other, and otherwise raises the imaging library's
    "height and width must be > 0". *)
Theorem resize_image_raises_iff img :
  dim (width img) -> dim (height img) ->
  (width img <= 2500 * height img /\ height img <= 2500 * width img ->
   is_ok (resize_image img default_size) = true) /\
  (~ (width img <= 2500 * height img /\ height img <= 2500 * width img) ->
   resize_image img default_size
   = Raise (ValueError "height and width must be > 0")).
Proof.
  intros Hw Hh.
  destruct (scaled_size_default _ _ Hw Hh) as (nw & nh & Hs & Hiff).
  unfold default_size in *.
  rewrite (resize_image_of_scaled _ _ _ _ _ Hs). split.
  - intros H. apply Hiff in H as [H1 H2].
    replace ((nw <? 1) || (nh <? 1)) with false
      by (symmetry; apply orb_false_intro; apply Z.ltb_ge; lia).
    reflexivity.
  - intros H.
    destruct ((nw <? 1) || (nh <? 1)) eqn:E; [reflexivity|].
    exfalso. apply H, Hiff. apply orb_false_elim in E as [E1 E2].
    apply Z.ltb_ge in E1, E2. lia.
Qed.

Lemma resize_image_raises_iff_witness :
  (width photo <= 2500 * height photo /\ height photo <= 2500 * width photo ->
   is_ok (resize_image photo default_size) = true) /\
  (~ (width photo <= 2500 * height photo /\ height photo <= 2500 * width photo) ->
   resize_image photo default_size
   = Raise (ValueError "height and width must be > 0")).
Proof. apply (resize_image_raises_iff photo); unfold dim; simpl; lia. Defined.
(** ** Lemmas shared by the claims on the batch *)

Lemma outputs_apart_spec out tasks :
  outputs_apart out tasks = true ->
  forall p q, p ∈ tasks -> q ∈ tasks -> out_path out p <> q.
Proof.
  unfold outputs_apart. rewrite forallb_forall. intros H p q Hp Hq E.
  apply list_elem_of_In in Hp, Hq. specialize (H p Hp).
  rewrite forallb_forall in H. specialize (H q Hq).
  apply negb_true_iff, String.eqb_neq in H. contradiction.
Qed.

(** With the output folder in place and a supported format, a task succeeds
    exactly on a file that is processable and whose output path is not taken
    by a directory. *)
Lemma succeeds_supported w w1 out fmt p :
  makedirs w out = Ok w1 -> supported fmt = true ->
  succeeds w1 out fmt p = processable w p && negb (isdir w1 (out_path out p)).
Proof.
  intros Hm Hs.
  pose proof (makedirs_Ok _ _ _ Hm) as (_ & _ & Hf & _).
  assert (Hp : processable w1 p = processable w p)
    by (apply processable_indep; rewrite Hf; reflexivity).
  pose proof (parent_ok_makedirs _ _ _ p Hm) as Hpar.
  destruct (succeeds w1 out fmt p) eqn:E.
  - apply succeeds_task_error, task_error_None in E as (E1 & _ & E3).
    unfold writable in E3. rewrite Hpar in E3. cbn [andb] in E3.
    rewrite <- Hp, E1, E3. reflexivity.
  - destruct (processable w p && negb (isdir w1 (out_path out p))) eqn:E'; [|reflexivity].
    apply andb_true_iff in E' as [E1 E2].
    assert (succeeds w1 out fmt p = true); [|congruence].
    apply succeeds_task_error, task_error_None. rewrite Hp.
    split; [exact E1|]. split; [exact Hs|]. unfold writable. rewrite Hpar, E2. reflexivity.
Qed.

Lemma task_error_unsupported_any w p out fmt :
  supported fmt = false -> task_error w p out fmt <> None.
Proof. intros Hs E. apply task_error_None in E as (_ & E & _). congruence. Qed.

Lemma failures_length w out fmt tasks :
  length (omap (fun p => error_record p <$> task_error w p out fmt) tasks)
  = length (List.filter (fun p => negb (succeeds w out fmt p)) tasks).
Proof.
  induction tasks as [|p rest IH]; [reflexivity|].
  cbn [omap list_omap List.filter]. unfold succeeds at 1.
  destruct (task_error w p out fmt); cbn; rewrite IH; reflexivity.
Qed.

Lemma failures_length_all w out fmt tasks :
  supported fmt = false ->
  length (omap (fun p => error_record p <$> task_error w p out fmt) tasks) = length tasks.
Proof.
  intros Hs. induction tasks as [|p rest IH]; [reflexivity|].
  cbn [omap list_omap].
  destruct (task_error w p out fmt) eqn:E;
    [|exfalso; exact (task_error_unsupported_any _ _ _ _ Hs E)].
  cbn. rewrite IH. reflexivity.
Qed.

Lemma filter_succeeds_none w out fmt tasks :
  supported fmt = false -> List.filter (succeeds w out fmt) tasks = [].
Proof.
  intros Hs. induction tasks as [|p l IH]; [reflexivity|].
  cbn [List.filter]. unfold succeeds at 1.
  destruct (task_error w p out fmt) eqn:E;
    [exact IH | exfalso; exact (task_error_unsupported_any _ _ _ _ Hs E)].
Qed.

Lemma task_error_decode w p out fmt :
  decodable w p = false ->
  exists e, Image_open w p = Raise e /\ task_error w p out fmt = Some e.
Proof.
  unfold decodable, task_error. rewrite process_image_body_eq. unfold Image_open.
  destruct (w_files w !! p) as [[f img|reason|m i|]|]; try discriminate; eauto.
Qed.

Lemma task_error_unsupported w p out fmt f img :
  supported fmt = false ->
  w_files w !! p = Some (ImageFile f img) ->
  is_ok (resize_image img default_size) = true ->
  task_error w p out fmt = Some (ValueError ("Formato no soportado: " ++ fmt)).
Proof.
  intros Hs Hf Hr. unfold task_error. rewrite process_image_body_eq.
  unfold Image_open. rewrite Hf.
  destruct (resize_image img default_size); [|discriminate]. rewrite Hs. reflexivity.
Qed.

Lemma foldl_write_other l q : forall fs,
  q ∉ l.*1 -> foldl write_file fs l !! q = fs !! q.
Proof.
  induction l as [|[p c] l IH]; intros fs H; [reflexivity|].
  cbn [foldl]. rewrite IH.
  - unfold write_file. cbn [fst snd]. apply lookup_insert_ne.
    intros ->. apply H. left.
  - intros Hin. apply H. right. exact Hin.
Qed.

(** ** C5 *)

(** C5, as stated, fails: the folder [/lines] holds one valid image and no
    other file, the format is a supported one, the output folder lies
    elsewhere, and the batch returns no success: the image, 2501 x 1, is
    stopped by the resizer. *)
Lemma batch_drops_valid_image :
  w_dirs sample_world !! "/lines" = Some (Dir [("thin.png", tt)] []) /\
  decodable sample_world "/lines/thin.png" = true /\
  supported "jpg" = true /\
  (process_images [] sample_world "/tmp/tmpk3" "/lines" "/out" "jpg").2 = Ok [].
Proof. vm_compute. repeat split; reflexivity. Qed.

(** C5, amended: a file that does not decode makes [process_image] log one
    record with its path and the decoder's reason and return nothing, without
    raising.  For a folder and an output folder written in normal form, the
    output folder being neither the folder nor below it and no output path
    being the path of a source, once the output folder is in place and with
    a supported format, the batch returns, in the order of submission and
    whatever the order in which the tasks end, one output path for every
    file that decodes, is not stopped by the resizer, has a file name and
    finds no directory at its output path; it logs one record for each of
    the others, in the order in which their tasks end. *)
Theorem batch_isolates_failures sched w w1 tmp input out fmt tree :
  supported fmt = true ->
  canonical input = true -> canonical out = true -> inside input out = false ->
  makedirs w out = Ok w1 ->
  isfile w input && is_archive_name input = false ->
  w_dirs w1 !! input = Some tree ->
  outputs_apart out (tasks_of (walk input tree)) = true ->
  exists w' recs,
    process_images sched w tmp input out fmt
    = (w', Ok (map (out_path out)
                 (List.filter
                    (fun p => processable w p && negb (isdir w1 (out_path out p)))
                    (tasks_of (walk input tree))))) /\
    w_log w' = (w_log w ++ recs)%list /\
    recs ≡ₚ omap (fun p => error_record p <$> task_error w1 p out fmt)
              (tasks_of (walk input tree)) /\
    length recs
    = length (List.filter
                (fun p => negb (processable w p && negb (isdir w1 (out_path out p))))
                (tasks_of (walk input tree))) /\
    (forall w0 p, decodable w0 p = false ->
       exists e, Image_open w0 p = Raise e /\
         process_image w0 p out fmt p default_size
         = (logger_error w0 (error_record p e), None)).
Proof.
  intros Hs _ _ _ Hm Hf Hd Hsep.
  rewrite (process_images_directory _ _ _ _ _ _ _ _ Hm Hf Hd).
  set (tasks := tasks_of (walk input tree)) in *.
  destruct (process_walk_apart out fmt (walk input tree) sched w1 [])
    as (H1 & (recs & H2 & H2p) & _).
  { intros p q Hp Hq _. apply (outputs_apart_spec _ _ Hsep); assumption. }
  { intros p _. apply (parent_ok_makedirs _ _ _ _ Hm). }
  fold tasks in H1, H2p.
  pose proof (makedirs_Ok _ _ _ Hm) as (_ & _ & _ & Hlog & _).
  exists (process_walk sched w1 (walk input tree) out fmt []).1, recs.
  split; [|split; [|split; [|split]]].
  - rewrite H1. cbn [app].
    rewrite (List.filter_ext _ _ (fun p => succeeds_supported w w1 out fmt p Hm Hs)).
    reflexivity.
  - rewrite H2, Hlog. reflexivity.
  - exact H2p.
  - rewrite H2p, failures_length.
    rewrite (List.filter_ext (fun p => negb (succeeds w1 out fmt p))
               (fun p => negb (processable w p && negb (isdir w1 (out_path out p)))));
      [reflexivity|].
    intros p. rewrite (succeeds_supported w w1 out fmt p Hm Hs). reflexivity.
  - intros w0 p Hp. destruct (task_error_decode w0 p out fmt Hp) as (e & He & Hte).
    exists e. split; [exact He|]. rewrite process_image_task, Hte. reflexivity.
Qed.

Lemma batch_isolates_failures_witness :
  exists w' recs,
    process_images [[1%nat]] sample_world "/tmp/tmpk3" "/pics" "/out" "JPG"
    = (w', Ok (map (out_path "/out")
                 (List.filter
                    (fun p => processable sample_world p
                              && negb (isdir sample_world_out (out_path "/out" p)))
                    (tasks_of (walk "/pics" sample_tree))))) /\
    w_log w' = (w_log sample_world ++ recs)%list /\
    recs ≡ₚ omap (fun p => error_record p <$> task_error sample_world_out p "/out" "JPG")
              (tasks_of (walk "/pics" sample_tree)) /\
    length recs
    = length (List.filter
                (fun p => negb (processable sample_world p
                                && negb (isdir sample_world_out (out_path "/out" p))))
                (tasks_of (walk "/pics" sample_tree))) /\
    (forall w0 p, decodable w0 p = false ->
       exists e, Image_open w0 p = Raise e /\
         process_image w0 p "/out" "JPG" p default_size
         = (logger_error w0 (error_record p e), None)).
Proof.
  apply (batch_isolates_failures [[1%nat]] sample_world sample_world_out "/tmp/tmpk3"
           "/pics" "/out" "JPG" sample_tree); vm_compute; reflexivity.
Defined.

(** ** C6 *)

(** C6, as stated, fails: with the format "bmp", the task on a text file
    fails with the decoder's reason, not with an unsupported-format one. *)
Lemma unsupported_format_other_reason :
  supported "bmp" = false /\
  w_dirs sample_world !! "/broken" = Some (Dir [("notes.txt", tt)] []) /\
  process_images [] sample_world "/tmp/tmpk3" "/broken" "/out" "bmp"
  = ({| w_files := w_files sample_world;
        w_dirs := <["/out" := Dir [] []]> (w_dirs sample_world);
        w_log := ["Error procesando /broken/notes.txt: cannot identify image file '/broken/notes.txt'"] |},
     Ok []).
Proof. vm_compute. repeat split; reflexivity. Qed.

(** C6, amended: an output format that is none of "jpg", "png", "webp" in
    any letter case is not checked before the tasks run.  Once the output
    folder is in place, for a folder as for an archive that extracts, the
    batch returns no success and raises nothing, writes no file, and every
    task fails and logs one record, whatever the order in which the tasks
    end; the reason is "Formato no soportado" when the file decodes and
    passes the resizer, and the decoder's or the resizer's otherwise. *)
Theorem batch_unsupported_format sched w w1 tmp input out fmt :
  supported fmt = false ->
  makedirs w out = Ok w1 ->
  (forall tree,
     isfile w input && is_archive_name input = false ->
     w_dirs w1 !! input = Some tree ->
     exists w' recs,
       process_images sched w tmp input out fmt = (w', Ok []) /\
       w_files w' = w_files w /\
       w_log w' = (w_log w ++ recs)%list /\
       recs ≡ₚ omap (fun p => error_record p <$> task_error w1 p out fmt)
                 (tasks_of (walk input tree)) /\
       length recs = length (tasks_of (walk input tree))) /\
  (forall members,
     w_files w !! input = Some (ZipArchive members true) ->
     is_archive_name input = true ->
     exists w' recs,
       process_images sched w tmp input out fmt = (w', Ok []) /\
       (forall q, under tmp q = false -> q ∉ (extracted tmp members).*1 ->
                  w_files w' !! q = w_files w !! q) /\
       w_log w' = (w_log w ++ recs)%list /\
       recs ≡ₚ omap (fun p => error_record p
                                <$> task_error (extracted_world w1 tmp members) p out fmt)
                 (extracted tmp members).*1 /\
       length recs = length (extracted tmp members)) /\
  (forall w0 p, exists e,
     task_error w0 p out fmt = Some e /\
     process_image w0 p out fmt p default_size
     = (logger_error w0 (error_record p e), None) /\
     (forall f img,
        w_files w0 !! p = Some (ImageFile f img) ->
        is_ok (resize_image img default_size) = true ->
        e = ValueError ("Formato no soportado: " ++ fmt))).
Proof.
  intros Hs Hm.
  pose proof (makedirs_Ok _ _ _ Hm) as (_ & _ & Hfiles & Hlog & _).
  split; [|split].
  - intros tree Hf Hd.
    rewrite (process_images_directory _ _ _ _ _ _ _ _ Hm Hf Hd).
    destruct (process_walk_apart out fmt (walk input tree) sched w1 [])
      as (H1 & (recs & H2 & H2p) & H3 & _).
    { intros p q _ _ E. exfalso. exact (task_error_unsupported_any _ _ _ _ Hs E). }
    { intros p _. apply (parent_ok_makedirs _ _ _ _ Hm). }
    eexists _, recs. split; [|split; [|split; [|split]]].
    + rewrite H1, (filter_succeeds_none _ _ _ _ Hs). reflexivity.
    + apply map_eq. intros x. rewrite H3, Hfiles; [reflexivity|].
      intros p _ E. exfalso. exact (task_error_unsupported_any _ _ _ _ Hs E).
    + rewrite H2, Hlog. reflexivity.
    + exact H2p.
    + rewrite H2p. apply failures_length_all, Hs.
  - intros members Hf Ha.
    rewrite (process_images_archive _ _ _ _ _ _ _ _ _ Hm Hf Ha).
    rewrite extract_and_process_images_eq.
    set (we := extracted_world w1 tmp members).
    destruct (process_walk_apart out fmt (walk tmp (listing members)) sched we [])
      as (H1 & (recs & H2 & H2p) & H3 & _).
    { intros p q _ _ E. exfalso. exact (task_error_unsupported_any _ _ _ _ Hs E). }
    { intros p _. apply parent_ok_extracted_world, (parent_ok_makedirs _ _ _ _ Hm). }
    rewrite tasks_walk_listing in *.
    change (map fst (extracted tmp members)) with (extracted tmp members).*1 in *.
    eexists _, recs. split; [|split; [|split; [|split]]].
    + rewrite H1, (filter_succeeds_none _ _ _ _ Hs). reflexivity.
    + intros q Hq Hnot. rewrite cleanup_outside by exact Hq. rewrite H3.
      * unfold we. cbn [extracted_world w_files].
        rewrite foldl_write_other by exact Hnot. rewrite Hfiles. reflexivity.
      * intros p _ E. exfalso. exact (task_error_unsupported_any _ _ _ _ Hs E).
    + rewrite cleanup_log, H2. unfold we. cbn [extracted_world w_log].
      rewrite Hlog. reflexivity.
    + exact H2p.
    + rewrite H2p, failures_length_all by exact Hs. apply length_fmap.
  - intros w0 p. destruct (task_error w0 p out fmt) as [e|] eqn:E;
      [|exfalso; exact (task_error_unsupported_any _ _ _ _ Hs E)].
    exists e. split; [reflexivity|]. split.
    + rewrite process_image_task, E. reflexivity.
    + intros f img Hfile Hr.
      rewrite (task_error_unsupported w0 p out fmt f img Hs Hfile Hr) in E.
      congruence.
Qed.

Lemma batch_unsupported_format_witness :
  (exists w' recs,
     process_images [[1%nat]] sample_world "/tmp/tmpk3" "/pics" "/out" "bmp"
     = (w', Ok []) /\
     w_files w' = w_files sample_world /\
     w_log w' = (w_log sample_world ++ recs)%list /\
     recs ≡ₚ omap (fun p => error_record p <$> task_error sample_world_out p "/out" "bmp")
               (tasks_of (walk "/pics" sample_tree)) /\
     length recs = length (tasks_of (walk "/pics" sample_tree))) /\
  (exists w' recs,
     process_images [[1%nat]] sample_world "/tmp/tmpk3" "/album.zip" "/out" "bmp"
     = (w', Ok []) /\
     (forall q, under "/tmp/tmpk3" q = false ->
                q ∉ (extracted "/tmp/tmpk3" sample_archive).*1 ->
                w_files w' !! q = w_files sample_world !! q) /\
     w_log w' = (w_log sample_world ++ recs)%list /\
     recs ≡ₚ omap (fun p => error_record p
                              <$> task_error
                                    (extracted_world sample_world_out "/tmp/tmpk3"
                                       sample_archive) p "/out" "bmp")
               (extracted "/tmp/tmpk3" sample_archive).*1 /\
     length recs = length (extracted "/tmp/tmpk3" sample_archive)) /\
  (forall w0 p, exists e,
     task_error w0 p "/out" "bmp" = Some e /\
     process_image w0 p "/out" "bmp" p default_size
     = (logger_error w0 (error_record p e), None) /\
     (forall f img,
        w_files w0 !! p = Some (ImageFile f img) ->
        is_ok (resize_image img default_size) = true ->
        e = ValueError ("Formato no soportado: " ++ "bmp"))).
Proof.
  destruct (batch_unsupported_format [[1%nat]] sample_world sample_world_out
              "/tmp/tmpk3" "/pics" "/out" "bmp") as (Hdir & _ & Htask);
    [vm_compute; reflexivity | vm_compute; reflexivity |].
  destruct (batch_unsupported_format [[1%nat]] sample_world sample_world_out
              "/tmp/tmpk3" "/album.zip" "/out" "bmp") as (_ & Harc & _);
    [vm_compute; reflexivity | vm_compute; reflexivity |].
  split; [|split; [|exact Htask]].
  - apply (Hdir sample_tree); vm_compute; reflexivity.
  - apply (Harc sample_archive); vm_compute; reflexivity.
Defined.
(** ** C7 *)

(** What [os.makedirs] goes through lies above the folder asked for. *)
Lemma ancestors_from_under s : forall acc p,
  p ∈ ancestors_from acc s -> String.prefix (p ++ "/") (acc ++ s) = true.
Proof.
  induction s as [|c s IH]; intros acc p Hp; [inversion Hp|].
  cbn [ancestors_from] in Hp. apply elem_of_app in Hp as [Hp|Hp].
  - destruct (is_sep c) eqn:Hc; [|inversion Hp].
    destruct (negb (String.eqb acc "")); [|inversion Hp].
    cbn [andb] in Hp. apply list_elem_of_singleton in Hp as ->.
    apply Ascii.eqb_eq in Hc as ->.
    replace (acc ++ String "/" s) with ((acc ++ "/") ++ s)
      by (rewrite app_assoc_str; reflexivity).
    apply prefix_app.
  - replace (acc ++ String c s) with ((acc ++ String c "") ++ s)
      by (rewrite app_assoc_str; reflexivity).
    apply IH, Hp.
Qed.

Lemma under_ancestors_from a : forall s acc,
  String.prefix (a ++ "/") s = true -> acc ++ a <> "" ->
  (acc ++ a) ∈ ancestors_from acc s.
Proof.
  induction a as [|x a IH]; intros s acc Hp Hne.
  - change ("" ++ "/") with "/" in Hp.
    destruct s as [|c s]; [cbn in Hp; discriminate|]. cbn [String.prefix] in Hp.
    destruct (ascii_dec "/" c) as [<-|]; [|discriminate].
    rewrite app_empty_r_str in *. cbn [ancestors_from].
    change (is_sep "/") with true.
    replace (String.eqb acc "") with false
      by (symmetry; apply String.eqb_neq; exact Hne).
    cbn [andb negb]. apply elem_of_app. left. left.
  - change (String x a ++ "/") with (String x (a ++ "/")) in Hp.
    destruct s as [|c s]; [cbn in Hp; discriminate|]. cbn [String.prefix] in Hp.
    destruct (ascii_dec x c) as [<-|]; [|discriminate].
    cbn [ancestors_from]. apply elem_of_app. right.
    replace (acc ++ String x a) with ((acc ++ String x "") ++ a)
      by (rewrite app_assoc_str; reflexivity).
    apply IH; [exact Hp|]. destruct acc; discriminate.
Qed.

(** The folders [os.makedirs] goes through are the folder asked for and
    those it lies below. *)
Lemma inside_chain input out :
  input <> "" ->
  inside input out = true <-> input ∈ (ancestors_from "" out ++ [out])%list.
Proof.
  intros Hne. unfold inside, under. split.
  - intros H. apply elem_of_app. apply orb_true_iff in H as [H|H].
    + apply String.eqb_eq in H as ->. right. left.
    + left. exact (under_ancestors_from input out "" H Hne).
  - intros H. apply elem_of_app in H as [H|H].
    + pose proof (ancestors_from_under out "" input H) as Hu.
      change ("" ++ out) with out in Hu. rewrite Hu. apply orb_true_r.
    + apply list_elem_of_singleton in H as ->. rewrite String.eqb_refl. reflexivity.
Qed.

Lemma canonical_nonempty p : canonical p = true -> p <> "".
Proof. intros H ->. discriminate. Qed.

(** C7, as stated, fails: [/fresh] is no file and no directory, and with the
    output folder [/fresh/out] the batch returns an empty list and raises
    nothing: the input has been created on the way to the output folder. *)
Lemma absent_input_accepted :
  isfile sample_world "/fresh" = false /\ isdir sample_world "/fresh" = false /\
  (process_images [] sample_world "/tmp/tmpk3" "/fresh" "/fresh/out" "jpg").2 = Ok [].
Proof. vm_compute. repeat split; reflexivity. Qed.

(** An input that is no archive file and no directory, with the output
    folder in place: it is rejected, unless the output folder is the input
    or lies below it. *)
Lemma invalid_input_cases sched w w1 tmp input out fmt :
  input <> "" ->
  makedirs w out = Ok w1 ->
  isfile w input && is_archive_name input = false ->
  isdir w input = false ->
  w_files w1 = w_files w /\ w_log w1 = w_log w /\
  (inside input out = false ->
   isdir w1 input = false /\
   process_images sched w tmp input out fmt
   = (w1, Raise (ValueError "La entrada debe ser un archivo ZIP, RAR o una carpeta"))) /\
  (inside input out = true ->
   isdir w1 input = true /\
   process_images sched w tmp input out fmt = (w1, Ok [])).
Proof.
  intros Hne Hm Hf Hd.
  pose proof (makedirs_Ok _ _ _ Hm) as (_ & Hall & Hfiles & Hlog & _ & Hnew).
  assert (Hnone : w_dirs w !! input = None).
  { apply bool_decide_eq_false in Hd.
    destruct (w_dirs w !! input) eqn:E; [exfalso; apply Hd; eauto | reflexivity]. }
  split; [exact Hfiles|]. split; [exact Hlog|]. split.
  - intros Hin.
    assert (Hd1 : isdir w1 input = false).
    { destruct (isdir w1 input) eqn:E; [|reflexivity].
      apply bool_decide_eq_true in E. destruct (Hnew input Hnone E) as [Hc _].
      apply (inside_chain input out Hne) in Hc. congruence. }
    split; [exact Hd1|]. apply process_images_invalid; assumption.
  - intros Hin. apply (inside_chain input out Hne) in Hin.
    pose proof (Hall input Hin) as Hd1. split; [exact Hd1|].
    destruct (Hnew input Hnone) as [_ Htree];
      [apply bool_decide_eq_true in Hd1; exact Hd1|].
    rewrite (process_images_directory _ _ _ _ _ _ _ _ Hm Hf Htree). reflexivity.
Qed.

(** C7, amended: let the input path and the output folder be written in
    normal form, the input be neither a regular file named [.zip] or [.rar]
    in any letter case nor a directory, and the output folder be in place
    after [os.makedirs], which touches no file and logs nothing.  When the
    output folder is neither the input nor below it, the input is still no
    directory and [process_images] raises the invalid-input error before any
    task: nothing but the output folder has changed.  When the output folder
    is the input or lies below it, the input has become an empty directory
    and [process_images] returns the empty list. *)
Theorem invalid_input_rejected sched w w1 tmp input out fmt :
  canonical input = true -> canonical out = true ->
  makedirs w out = Ok w1 ->
  isfile w input && is_archive_name input = false ->
  isdir w input = false ->
  w_files w1 = w_files w /\ w_log w1 = w_log w /\
  (inside input out = false ->
   isdir w1 input = false /\
   process_images sched w tmp input out fmt
   = (w1, Raise (ValueError "La entrada debe ser un archivo ZIP, RAR o una carpeta"))) /\
  (inside input out = true ->
   isdir w1 input = true /\
   process_images sched w tmp input out fmt = (w1, Ok [])).
Proof.
  intros Hci _. apply invalid_input_cases, canonical_nonempty, Hci.
Qed.

Lemma invalid_input_rejected_witness :
  w_files sample_world_out = w_files sample_world /\
  w_log sample_world_out = w_log sample_world /\
  (inside "/pics/photo.png" "/out" = false ->
   isdir sample_world_out "/pics/photo.png" = false /\
   process_images [] sample_world "/tmp/tmpk3" "/pics/photo.png" "/out" "jpg"
   = (sample_world_out,
      Raise (ValueError "La entrada debe ser un archivo ZIP, RAR o una carpeta"))) /\
  (inside "/pics/photo.png" "/out" = true ->
   isdir sample_world_out "/pics/photo.png" = true /\
   process_images [] sample_world "/tmp/tmpk3" "/pics/photo.png" "/out" "jpg"
   = (sample_world_out, Ok [])).
Proof.
  apply (invalid_input_rejected [] sample_world sample_world_out "/tmp/tmpk3"
           "/pics/photo.png" "/out" "jpg"); vm_compute; reflexivity.
Defined.

(** ** C8 *)

Lemma holds_canvas_file w fmt o :
  holds_canvas w fmt o = true ->
  exists img, w_files w !! o = Some (ImageFile (encoder fmt) img) /\
              width img = 2500 /\ height img = 2500 /\ mode img = ModeRGB.
Proof.
  unfold holds_canvas.
  destruct (w_files w !! o) as [[f img|reason|m i|]|]; try discriminate.
  intros H. apply andb_true_iff in H as [H Hm].
  apply andb_true_iff in H as [H Hh]. apply andb_true_iff in H as [Hf Hw].
  apply String.eqb_eq in Hf as ->. apply Z.eqb_eq in Hw, Hh.
  exists img. repeat split; auto. destruct (mode img); congruence.
Qed.

(** C8: a successful task writes to the output folder joined with the base
    name of its source, whatever folder the source lies in, so sources with
    one base name share one output path.  For an archive with two images of
    the same name [b] in two folders, once the output folder is in place and
    with no directory at the output path, both tasks succeed and return the
    same path, one file exists at it afterwards, and no other file outside
    the temporary directory has changed. *)
Theorem flattening_collides sched w w1 tmp input out fmt d1 d2 b f1 i1 f2 i2 :
  makedirs w out = Ok w1 ->
  w_files w !! input
  = Some (ZipArchive (Dir [] [(d1, Dir [(b, PImage f1 i1)] []);
                              (d2, Dir [(b, PImage f2 i2)] [])]) true) ->
  is_archive_name input = true ->
  supported fmt = true ->
  is_ok (resize_image i1 default_size) = true ->
  is_ok (resize_image i2 default_size) = true ->
  has_sep b = false -> String.eqb b "" = false ->
  startswith_sep d1 = false -> startswith_sep d2 = false ->
  String.eqb tmp "" = false -> endswith_sep tmp = false ->
  String.eqb (join (join tmp d1) b) (join (join tmp d2) b) = false ->
  under tmp (join out b) = false ->
  String.eqb tmp (join out b) = false ->
  isdir w1 (join out b) = false ->
  (forall w0 src folder size w2 o,
     process_image w0 src folder fmt src size = (w2, Some o) ->
     o = join folder (basename src)) /\
  out_path out (join (join tmp d1) b) = join out b /\
  out_path out (join (join tmp d2) b) = join out b /\
  exists w' img,
    process_images sched w tmp input out fmt = (w', Ok [join out b; join out b]) /\
    w_files w' !! join out b = Some (ImageFile (encoder fmt) img) /\
    (forall q, q <> join out b -> under tmp q = false ->
               w_files w' !! q = w_files w !! q).
Proof.
  intros Hm Hf Ha Hs Hr1 Hr2 Hb Hbne Hd1 Hd2 Htmp Htmpe Hne Hout Htne Hnd.
  set (s1 := join (join tmp d1) b) in *. set (s2 := join (join tmp d2) b) in *.
  apply String.eqb_neq in Hne, Htmp, Htne.
  pose proof (makedirs_Ok _ _ _ Hm) as (_ & _ & Hfiles1 & _).
  assert (Hb1 : basename s1 = b) by apply basename_join, Hb.
  assert (Hb2 : basename s2 = b) by apply basename_join, Hb.
  assert (Ho1 : out_path out s1 = join out b) by (unfold out_path; rewrite Hb1; reflexivity).
  assert (Ho2 : out_path out s2 = join out b) by (unfold out_path; rewrite Hb2; reflexivity).
  assert (Hsb : startswith_sep b = false) by apply startswith_sep_has_sep, Hb.
  assert (Hu1 : under tmp s1 = true)
    by (apply under_descend; [apply under_child; assumption | exact Hsb]).
  assert (Hu2 : under tmp s2 = true)
    by (apply under_descend; [apply under_child; assumption | exact Hsb]).
  split.
  { intros w0 src folder size w2 o H. apply process_image_success in H. apply H. }
  split; [exact Ho1|]. split; [exact Ho2|].
  rewrite (process_images_archive _ _ _ _ _ _ _ _ _ Hm Hf Ha).
  rewrite extract_and_process_images_eq.
  set (members := Dir [] [(d1, Dir [(b, PImage f1 i1)] []); (d2, Dir [(b, PImage f2 i2)] [])]).
  set (we := extracted_world w1 tmp members).
  assert (Htasks : tasks_of (walk tmp (listing members)) = [s1; s2]) by reflexivity.
  assert (Hfiles : w_files we
                   = <[s2 := ImageFile f2 i2]> (<[s1 := ImageFile f1 i1]> (w_files w1)))
    by reflexivity.
  assert (Hwr : writable we (join out b) = true).
  { unfold writable. apply andb_true_iff. split.
    - rewrite <- Ho1. apply parent_ok_extracted_world, (parent_ok_makedirs _ _ _ _ Hm).
    - apply negb_true_iff. unfold isdir, we in *. cbn [extracted_world w_dirs].
      rewrite !lookup_insert_ne by exact Htne. exact Hnd. }
  assert (Hp1 : task_error we s1 out fmt = None).
  { apply task_error_None. split; [|split; [exact Hs | rewrite Ho1; exact Hwr]].
    unfold processable.
    rewrite Hfiles, lookup_insert_ne, lookup_insert_eq by congruence.
    rewrite Hr1, Hb1, Hbne. reflexivity. }
  assert (Hp2 : task_error we s2 out fmt = None).
  { apply task_error_None. split; [|split; [exact Hs | rewrite Ho2; exact Hwr]].
    unfold processable.
    rewrite Hfiles, lookup_insert_eq. rewrite Hr2, Hb2, Hbne. reflexivity. }
  assert (Hall : forall p, p ∈ [s1; s2] -> out_path out p = join out b).
  { intros p Hp. apply elem_of_cons in Hp as [->|Hp]; [exact Ho1|].
    apply elem_of_cons in Hp as [->|Hp]; [exact Ho2 | inversion Hp]. }
  assert (Hapart : forall q, q ∈ [s1; s2] -> join out b <> q).
  { intros q Hq E. rewrite <- E in Hq.
    apply elem_of_cons in Hq as [Hq|Hq];
      [|apply elem_of_cons in Hq as [Hq|Hq]; [|inversion Hq]];
      rewrite Hq in Hout; congruence. }
  destruct (process_walk_apart out fmt (walk tmp (listing members)) sched we [])
    as (H1 & _ & H3 & H4); rewrite ?Htasks in *.
  { intros p q Hp Hq _. rewrite (Hall p Hp). apply Hapart, Hq. }
  { intros p Hp. rewrite (Hall p Hp). unfold writable in Hwr.
    apply andb_true_iff in Hwr as [Hwr _]. exact Hwr. }
  pose proof (H4 s2 ltac:(right; left) Hp2) as Hcan. rewrite Ho2 in Hcan.
  apply holds_canvas_file in Hcan as (img & Himg & _).
  eexists _, img. split; [|split].
  - rewrite H1. cbn [List.filter app map].
    rewrite (proj2 (succeeds_task_error we out fmt s1) Hp1).
    rewrite (proj2 (succeeds_task_error we out fmt s2) Hp2).
    cbn [map]. rewrite Ho1, Ho2. reflexivity.
  - rewrite cleanup_outside by exact Hout. exact Himg.
  - intros q Hq Hqu. rewrite cleanup_outside by exact Hqu.
    rewrite H3.
    + rewrite Hfiles, !lookup_insert_ne by congruence. rewrite Hfiles1. reflexivity.
    + intros p Hp _. rewrite (Hall p Hp). congruence.
Qed.

Lemma flattening_collides_witness :
  (forall w0 src folder size w2 o,
     process_image w0 src folder "png" src size = (w2, Some o) ->
     o = join folder (basename src)) /\
  out_path "/out" (join (join "/tmp/tmpk3" "a") "photo.png") = join "/out" "photo.png" /\
  out_path "/out" (join (join "/tmp/tmpk3" "b") "photo.png") = join "/out" "photo.png" /\
  exists w' img,
    process_images [] sample_world "/tmp/tmpk3" "/album.zip" "/out" "png"
    = (w', Ok [join "/out" "photo.png"; join "/out" "photo.png"]) /\
    w_files w' !! join "/out" "photo.png" = Some (ImageFile (encoder "png") img) /\
    (forall q, q <> join "/out" "photo.png" -> under "/tmp/tmpk3" q = false ->
               w_files w' !! q = w_files sample_world !! q).
Proof.
  apply (flattening_collides [] sample_world sample_world_out "/tmp/tmpk3" "/album.zip"
           "/out" "png" "a" "b" "photo.png" "PNG" photo "PNG" (Decoded 300 400 ModeL));
    vm_compute; reflexivity.
Defined.

(** ** C9 *)

(** C9: when the input is an archive that opens, with the output folder in
    place, the temporary directory and every file below it are gone when
    [process_images] returns, whether it returns the list of outputs
    (archive intact) or raises (a damaged member stops the extraction). *)
Theorem temporary_directory_removed sched w w1 tmp input out fmt members intact :
  makedirs w out = Ok w1 ->
  w_files w !! input = Some (ZipArchive members intact) ->
  is_archive_name input = true ->
  exists w' r,
    process_images sched w tmp input out fmt = (w', r) /\
    w_dirs w' !! tmp = None /\ isdir w' tmp = false /\
    (forall p, under tmp p = true -> w_files w' !! p = None) /\
    (if intact then exists l, r = Ok l else exists e, r = Raise e).
Proof.
  intros Hm Hf Ha.
  rewrite (process_images_archive _ _ _ _ _ _ _ _ _ Hm Hf Ha).
  rewrite extract_and_process_images_eq.
  destruct intact; eexists _, _; (split; [reflexivity|]);
    (split; [apply cleanup_dirs|]);
    (split; [unfold isdir; rewrite cleanup_dirs; apply bool_decide_eq_false;
             intros [? ?]; discriminate|]);
    (split; [intros p Hp; apply cleanup_under, Hp|]); eauto.
Qed.

Lemma temporary_directory_removed_witness :
  exists w' r,
    process_images [] sample_world "/tmp/tmpk3" "/damaged.zip" "/out" "jpg" = (w', r) /\
    w_dirs w' !! "/tmp/tmpk3" = None /\ isdir w' "/tmp/tmpk3" = false /\
    (forall p, under "/tmp/tmpk3" p = true -> w_files w' !! p = None) /\
    (if false then exists l, r = Ok l else exists e, r = Raise e).
Proof.
  apply (temporary_directory_removed [] sample_world sample_world_out "/tmp/tmpk3"
           "/damaged.zip" "/out" "jpg" sample_archive false); vm_compute; reflexivity.
Defined.

(** ** C10 *)

(** C10: a successful task returns a path whose file name is the source's,
    extension included, whatever the output format; the file written there
    is encoded by the encoder of the format.  So "photo.png" with "jpg"
    gives a file named "photo.png" that holds JPEG data. *)
Theorem output_name_kept w src out fmt size w' o :
  process_image w src out fmt src size = (w', Some o) ->
  basename o = basename src /\ o = join out (basename src) /\
  supported fmt = true /\
  exists img, w_files w' !! o = Some (ImageFile (encoder fmt) img).
Proof.
  intros H. apply process_image_success in H
    as (-> & Hs & _ & _ & f & img & r & _ & _ & ->).
  split; [apply basename_out_path|]. split; [reflexivity|]. split; [exact Hs|].
  exists r. cbn [w_files set_files]. apply lookup_insert_eq.
Qed.

Lemma output_name_kept_witness :
  basename "/out/photo.png" = basename "/pics/photo.png" /\
  "/out/photo.png" = join "/out" (basename "/pics/photo.png") /\
  supported "jpg" = true /\
  exists img,
    w_files (process_image sample_world_out "/pics/photo.png" "/out" "jpg"
               "/pics/photo.png" default_size).1 !! "/out/photo.png"
    = Some (ImageFile (encoder "jpg") img).
Proof.
  apply (output_name_kept sample_world_out "/pics/photo.png" "/out" "jpg" default_size).
  vm_compute. reflexivity.
Defined.
(* ===================================================================== *)
(** * Part IV: further properties of the code *)
(* ===================================================================== *)

(** ** Tasks and batches, whatever the files and the format *)

(** X1: a task on [p] changes no directory and no file but the one at its
    output path; when it returns a path the log is left as it was, and when
    it returns nothing no file has changed and exactly one record was
    appended: [process_image] never lets an exception out. *)
Theorem task_touches_one_file w p out fmt :
  exists w' r,
    process_image w p out fmt p default_size = (w', r) /\
    w_dirs w' = w_dirs w /\
    (forall q, q <> join out (basename p) -> w_files w' !! q = w_files w !! q) /\
    (r <> None -> r = Some (join out (basename p)) /\ w_log w' = w_log w) /\
    (r = None ->
     w_files w' = w_files w /\ exists rec, w_log w' = (w_log w ++ [rec])%list).
Proof.
  destruct (process_image w p out fmt p default_size) as [w' r] eqn:Hp.
  exists w', r. split; [reflexivity|].
  apply process_image_frame in Hp as (Hd & Hfr & Hr).
  split; [exact Hd|]. split; [exact Hfr|]. split.
  - intros Hne. destruct r as [o|]; [|contradiction].
    destruct Hr as (-> & _ & Hlog & _). split; [reflexivity | exact Hlog].
  - intros ->. destruct Hr as (Hf & e & _ & Hlog). split; [exact Hf|]. eauto.
Qed.

(** A batch over a folder, with the output folder in place: it returns, and
    the paths returned and the records logged are as many as the files
    walked. *)
Lemma directory_accounting sched w w1 tmp input out fmt tree :
  makedirs w out = Ok w1 ->
  isfile w input && is_archive_name input = false ->
  w_dirs w1 !! input = Some tree ->
  exists w' results recs,
    process_images sched w tmp input out fmt = (w', Ok results) /\
    w_log w' = (w_log w ++ recs)%list /\
    (length results + length recs = length (tasks_of (walk input tree)))%nat.
Proof.
  intros Hm Hf Hd. rewrite (process_images_directory _ _ _ _ _ _ _ _ Hm Hf Hd).
  destruct (process_walk_gen out fmt (walk input tree) sched w1 [])
    as (new & recs & H1 & H2 & H3 & _).
  pose proof (makedirs_Ok _ _ _ Hm) as (_ & _ & _ & Hlog & _).
  eexists _, _, recs. split; [reflexivity|]. rewrite H1, H2, Hlog. cbn [app].
  split; [reflexivity | exact H3].
Qed.

(** X2: for a folder and an output folder written in normal form, the
    output folder being neither the folder nor below it, with the output
    folder in place, whatever the files, the format and the order in which
    the tasks end, [process_images] returns a list and raises nothing, and
    every file walked is accounted for once: it is in the list returned or
    it has left one record in the log. *)
Theorem every_file_accounted sched w w1 tmp input out fmt tree :
  canonical input = true -> canonical out = true -> inside input out = false ->
  makedirs w out = Ok w1 ->
  isfile w input && is_archive_name input = false ->
  w_dirs w1 !! input = Some tree ->
  exists w' results recs,
    process_images sched w tmp input out fmt = (w', Ok results) /\
    w_log w' = (w_log w ++ recs)%list /\
    (length results + length recs = length (tasks_of (walk input tree)))%nat.
Proof. intros _ _ _. apply directory_accounting. Qed.

Lemma every_file_accounted_witness :
  exists w' results recs,
    process_images [[1%nat]; []] sample_world "/tmp/tmpk3" "/pics" "/out" "webp"
    = (w', Ok results) /\
    w_log w' = (w_log sample_world ++ recs)%list /\
    (length results + length recs = length (tasks_of (walk "/pics" sample_tree)))%nat.
Proof.
  apply (every_file_accounted [[1%nat]; []] sample_world sample_world_out "/tmp/tmpk3"
           "/pics" "/out" "webp" sample_tree); vm_compute; reflexivity.
Defined.

(** X3: the outputs are flat: with the output folder in place, every path
    [process_images] returns for a folder is the output folder joined with
    the base name of a file walked, a name without separator, and has that
    base name itself. *)
Theorem outputs_are_flat sched w w1 tmp input out fmt tree :
  makedirs w out = Ok w1 ->
  isfile w input && is_archive_name input = false ->
  w_dirs w1 !! input = Some tree ->
  exists w' results,
    process_images sched w tmp input out fmt = (w', Ok results) /\
    Forall (fun o => exists p, p ∈ tasks_of (walk input tree) /\
                               o = join out (basename p) /\
                               has_sep (basename p) = false /\
                               basename o = basename p) results.
Proof.
  intros Hm Hf Hd. rewrite (process_images_directory _ _ _ _ _ _ _ _ Hm Hf Hd).
  destruct (process_walk_gen out fmt (walk input tree) sched w1 [])
    as (new & recs & H1 & _ & _ & H4 & _).
  eexists _, _. split; [reflexivity|]. rewrite H1. cbn [app].
  eapply Forall_impl; [exact H4|]. intros o ((p & Hp & ->) & _).
  exists p. split; [exact Hp|]. split; [reflexivity|].
  split; [apply has_sep_basename | apply basename_out_path].
Qed.

Lemma outputs_are_flat_witness :
  exists w' results,
    process_images [] sample_world "/tmp/tmpk3" "/pics" "/out" "png" = (w', Ok results) /\
    Forall (fun o => exists p, p ∈ tasks_of (walk "/pics" sample_tree) /\
                               o = join "/out" (basename p) /\
                               has_sep (basename p) = false /\
                               basename o = basename p) results.
Proof.
  apply (outputs_are_flat [] sample_world sample_world_out "/tmp/tmpk3" "/pics" "/out"
           "png" sample_tree); vm_compute; reflexivity.
Defined.

(** X4: when no output path is the path of a source, a batch over a folder,
    with the output folder in place, leaves every source as it was, and
    every other file that is not an output path; no directory changes but
    for the output folder and the folders above it. *)
Theorem sources_are_kept sched w w1 tmp input out fmt tree :
  makedirs w out = Ok w1 ->
  isfile w input && is_archive_name input = false ->
  w_dirs w1 !! input = Some tree ->
  outputs_apart out (tasks_of (walk input tree)) = true ->
  exists w' results,
    process_images sched w tmp input out fmt = (w', Ok results) /\
    (forall p, p ∈ tasks_of (walk input tree) -> w_files w' !! p = w_files w !! p) /\
    (forall x, (forall p, p ∈ tasks_of (walk input tree) -> join out (basename p) <> x) ->
               w_files w' !! x = w_files w !! x) /\
    w_dirs w' = w_dirs w1.
Proof.
  intros Hm Hf Hd Hsep. rewrite (process_images_directory _ _ _ _ _ _ _ _ Hm Hf Hd).
  pose proof (outputs_apart_spec _ _ Hsep) as Hap.
  pose proof (makedirs_Ok _ _ _ Hm) as (_ & _ & Hfiles & _).
  destruct (process_walk_gen out fmt (walk input tree) sched w1 [])
    as (_ & _ & _ & _ & _ & _ & (Hdirs & _) & H7).
  eexists _, _. split; [reflexivity|]. split; [|split].
  - intros p Hp. rewrite H7, Hfiles; [reflexivity|].
    intros q Hq. apply Hap; assumption.
  - intros x Hx. rewrite H7, Hfiles; [reflexivity|]. intros q Hq. apply Hx, Hq.
  - exact Hdirs.
Qed.

Lemma sources_are_kept_witness :
  exists w' results,
    process_images [] sample_world "/tmp/tmpk3" "/pics" "/out" "jpg" = (w', Ok results) /\
    (forall p, p ∈ tasks_of (walk "/pics" sample_tree) ->
               w_files w' !! p = w_files sample_world !! p) /\
    (forall x, (forall p, p ∈ tasks_of (walk "/pics" sample_tree) ->
                          join "/out" (basename p) <> x) ->
               w_files w' !! x = w_files sample_world !! x) /\
    w_dirs w' = w_dirs sample_world_out.
Proof.
  apply (sources_are_kept [] sample_world sample_world_out "/tmp/tmpk3" "/pics" "/out"
           "jpg" sample_tree); vm_compute; reflexivity.
Defined.

(** ** The output folder *)

Lemma output_folder_kept sched w w1 tmp input out fmt :
  makedirs w out = Ok w1 -> String.eqb tmp out = false ->
  isdir (process_images sched w tmp input out fmt).1 out = true.
Proof.
  intros Hm Hne. apply String.eqb_neq in Hne.
  pose proof (makedirs_creates _ _ _ Hm) as Hout.
  unfold process_images. rewrite Hm.
  destruct (isfile w1 input && is_archive_name input).
  - destruct (w_files w1 !! input) as [[f i|reason|members intact|]|];
      try exact Hout.
    rewrite extract_and_process_images_eq.
    apply bool_decide_eq_true in Hout as [t Ht]. apply bool_decide_eq_true.
    destruct intact; cbn [fst cleanup w_dirs].
    + destruct (process_walk_gen out fmt (walk tmp (listing members)) sched
                  (extracted_world w1 tmp members) [])
        as (_ & _ & _ & _ & _ & _ & (H5 & _) & _).
      rewrite H5. cbn [extracted_world w_dirs].
      rewrite lookup_delete_ne, !lookup_insert_ne, Ht by congruence. eauto.
    + cbn [extracted_world w_dirs].
      rewrite lookup_delete_ne, !lookup_insert_ne, Ht by congruence. eauto.
  - destruct (isdir w1 input); [|exact Hout].
    destruct (w_dirs w1 !! input) as [tree|]; [|exact Hout].
    destruct (process_walk_gen out fmt (walk input tree) sched w1 [])
      as (_ & _ & _ & _ & _ & _ & (H5 & _) & _).
    destruct (process_walk sched w1 (walk input tree) out fmt []) as [w' l].
    cbn [fst] in *. unfold isdir in *. rewrite H5. exact Hout.
Qed.

(** X6: [process_images] starts with the output folder, whatever the input
    is.  When [os.makedirs] raises, a regular file standing in the way, the
    error reaches the caller and nothing else has happened.  When it
    returns, the output folder exists by the time [process_images] returns
    or raises, provided it is not the temporary directory itself: a
    rejected input still leaves the folder behind. *)
Theorem output_folder_exists sched w tmp input out fmt :
  String.eqb tmp out = false ->
  (forall e, makedirs w out = Raise e ->
     process_images sched w tmp input out fmt = (w, Raise e)) /\
  (forall w1, makedirs w out = Ok w1 ->
     isdir (process_images sched w tmp input out fmt).1 out = true).
Proof.
  intros Hne. split.
  - intros e He. apply process_images_makedirs_fails, He.
  - intros w1 Hm. exact (output_folder_kept _ _ _ _ _ _ _ Hm Hne).
Qed.

Lemma output_folder_exists_witness :
  process_images [] sample_world "/tmp/tmpk3" "/pics" "/album.zip/out" "jpg"
  = (sample_world,
     Raise (NotADirectoryError "[Errno 20] Not a directory: '/album.zip/out'")) /\
  isdir (process_images [] sample_world "/tmp/tmpk3" "/nowhere" "/out/today" "jpg").1
        "/out/today" = true.
Proof.
  split.
  - apply (output_folder_exists [] sample_world "/tmp/tmpk3" "/pics" "/album.zip/out" "jpg");
      vm_compute; reflexivity.
  - eapply (output_folder_exists [] sample_world "/tmp/tmpk3" "/nowhere" "/out/today" "jpg");
      vm_compute; reflexivity.
Defined.

(** ** Archives that are not zip archives *)

(** X7: a regular file named [.zip] or [.rar] that is not a zip archive, as
    every genuine rar file, takes the archive branch and makes
    [process_images] raise [BadZipFile] to the caller: no task runs, nothing
    is logged, no temporary directory appears, and only the output folder
    has been created. *)
Theorem archive_name_without_zip sched w w1 tmp input out fmt :
  makedirs w out = Ok w1 ->
  isfile w input = true -> is_archive_name input = true ->
  (forall members intact, w_files w !! input <> Some (ZipArchive members intact)) ->
  process_images sched w tmp input out fmt
  = (w1, Raise (BadZipFile "File is not a zip file")).
Proof.
  intros Hm Hf Ha Hz. unfold process_images.
  rewrite Hm, (isfile_makedirs _ _ _ _ Hm), Hf, Ha. cbn [andb].
  pose proof (makedirs_Ok _ _ _ Hm) as (_ & _ & Hfiles & _). rewrite Hfiles.
  destruct (w_files w !! input) as [[f i|reason|members intact|]|]; try reflexivity.
  exfalso. exact (Hz members intact eq_refl).
Qed.

Lemma archive_name_without_zip_witness :
  process_images [] sample_world "/tmp/tmpk3" "/album.rar" "/out" "jpg"
  = (sample_world_out, Raise (BadZipFile "File is not a zip file")).
Proof.
  apply (archive_name_without_zip [] sample_world sample_world_out "/tmp/tmpk3"
           "/album.rar" "/out" "jpg");
    try (vm_compute; reflexivity).
  intros members intact. vm_compute. discriminate.
Defined.

(** ** The button *)

(** X8: with an empty input field the handler asks for an input and leaves
    the world untouched, the output folder included.  With a folder as
    input, written in normal form as the output folder is, the output
    folder being neither the folder nor below it and being in place after
    [os.makedirs], the handler reports a count, whatever the files, the
    format and the order in which the tasks end, and the count shown and
    the records logged add up to the number of files walked. *)
Theorem event_reports_count sched w w1 tmp cwd input fmt tree :
  String.eqb input "" = false ->
  canonical input = true -> canonical (join cwd "processed_images") = true ->
  inside input (join cwd "processed_images") = false ->
  makedirs w (join cwd "processed_images") = Ok w1 ->
  isfile w input && is_archive_name input = false ->
  w_dirs w1 !! input = Some tree ->
  process_images_event sched w tmp cwd "" fmt
  = (w, "Por favor, selecciona una entrada.") /\
  exists w' n recs,
    process_images_event sched w tmp cwd input fmt
    = (w', "Se procesaron " ++ pretty n ++ " imágenes.") /\
    w_log w' = (w_log w ++ recs)%list /\
    (n + length recs = length (tasks_of (walk input tree)))%nat.
Proof.
  intros Hne _ _ _ Hm Hf Hd. split; [reflexivity|].
  destruct (directory_accounting sched w w1 tmp input (join cwd "processed_images")
              fmt tree Hm Hf Hd)
    as (w' & results & recs & Hp & Hl & Hn).
  exists w', (length results), recs.
  unfold process_images_event. rewrite Hne, Hp. auto.
Qed.

Lemma event_reports_count_witness :
  process_images_event [[1%nat]] sample_world "/tmp/tmpk3" "/home/ana" "" "jpg"
  = (sample_world, "Por favor, selecciona una entrada.") /\
  exists w' n recs,
    process_images_event [[1%nat]] sample_world "/tmp/tmpk3" "/home/ana" "/pics" "jpg"
    = (w', "Se procesaron " ++ pretty n ++ " imágenes.") /\
    w_log w' = (w_log sample_world ++ recs)%list /\
    (n + length recs = length (tasks_of (walk "/pics" sample_tree)))%nat.
Proof.
  apply (event_reports_count [[1%nat]] sample_world
           (set_dirs sample_world
              (<["/home/ana/processed_images" := Dir [] []]> (w_dirs sample_world)))
           "/tmp/tmpk3" "/home/ana" "/pics" "jpg" sample_tree); vm_compute; reflexivity.
Defined.

(** X9: what the handler shows for an input, written in normal form as the
    output folder is, that is neither an archive file nor a folder.  When
    [os.makedirs] raises on the folder [processed_images] of the working
    directory, the label shows its error and nothing has changed.  When it
    returns, the label shows the invalid-input message after "Error: ", and
    the folder has been created all the same; unless the folder, or one
    above it, is the input itself, which has then been created too: the
    label shows a count of 0. *)
Theorem event_reports_error sched w tmp cwd input fmt :
  String.eqb input "" = false ->
  canonical input = true -> canonical (join cwd "processed_images") = true ->
  isfile w input && is_archive_name input = false ->
  isdir w input = false ->
  (forall e, makedirs w (join cwd "processed_images") = Raise e ->
     process_images_event sched w tmp cwd input fmt = (w, "Error: " ++ str_exn e)) /\
  (forall w1, makedirs w (join cwd "processed_images") = Ok w1 ->
     w_files w1 = w_files w /\ w_log w1 = w_log w /\
     isdir w1 (join cwd "processed_images") = true /\
     (inside input (join cwd "processed_images") = false ->
      process_images_event sched w tmp cwd input fmt
      = (w1, "Error: La entrada debe ser un archivo ZIP, RAR o una carpeta")) /\
     (inside input (join cwd "processed_images") = true ->
      process_images_event sched w tmp cwd input fmt
      = (w1, "Se procesaron 0 imágenes."))).
Proof.
  intros Hne Hci _ Hf Hd. unfold process_images_event. rewrite Hne. split.
  - intros e He. rewrite (process_images_makedirs_fails _ _ _ _ _ _ _ He). reflexivity.
  - intros w1 Hm.
    destruct (invalid_input_cases sched w w1 tmp input (join cwd "processed_images") fmt
                (canonical_nonempty _ Hci) Hm Hf Hd) as (H1 & H2 & H3 & H4).
    split; [exact H1|]. split; [exact H2|].
    split; [apply (makedirs_creates _ _ _ Hm)|]. split.
    + intros Hin. destruct (H3 Hin) as [_ ->]. reflexivity.
    + intros Hin. destruct (H4 Hin) as [_ ->]. reflexivity.
Qed.

Lemma event_reports_error_witness :
  (forall e, makedirs sample_world (join "/album.zip" "processed_images") = Raise e ->
     process_images_event [] sample_world "/tmp/tmpk3" "/album.zip" "/pics/photo.png" "jpg"
     = (sample_world, "Error: " ++ str_exn e)) /\
  (forall w1, makedirs sample_world (join "/home/ana" "processed_images") = Ok w1 ->
     w_files w1 = w_files sample_world /\ w_log w1 = w_log sample_world /\
     isdir w1 (join "/home/ana" "processed_images") = true /\
     (inside "/pics/photo.png" (join "/home/ana" "processed_images") = false ->
      process_images_event [] sample_world "/tmp/tmpk3" "/home/ana" "/pics/photo.png" "jpg"
      = (w1, "Error: La entrada debe ser un archivo ZIP, RAR o una carpeta")) /\
     (inside "/pics/photo.png" (join "/home/ana" "processed_images") = true ->
      process_images_event [] sample_world "/tmp/tmpk3" "/home/ana" "/pics/photo.png" "jpg"
      = (w1, "Se procesaron 0 imágenes."))).
Proof.
  split.
  - apply (event_reports_error [] sample_world "/tmp/tmpk3" "/album.zip"
             "/pics/photo.png" "jpg"); vm_compute; reflexivity.
  - apply (event_reports_error [] sample_world "/tmp/tmpk3" "/home/ana"
             "/pics/photo.png" "jpg"); vm_compute; reflexivity.
Defined.

(** ** The scaled size against the exact proportion *)

(** A nearest double is within a relative error of [2^-53]. *)
Lemma nearest53_rel x m e :
  nearest53 x m e ->
  (x * (1 - bpow (-53)) <= F2Q m e)%Q /\ (F2Q m e <= x * (1 + bpow (-53)))%Q.
Proof.
  intros (_ & m2 & e1 & Hv & Hl & _ & H1 & H2). rewrite Hv.
  assert (Hh : (bpow (e1 - 1) == bpow (e1 + 52) * bpow (-53))%Q).
  { rewrite <- bpow_add. replace (e1 + 52 + -53) with (e1 - 1) by lia. reflexivity. }
  assert (Hm : (F2Q (2 * m2 - 1) (e1 - 1) == F2Q m2 e1 - bpow (e1 - 1))%Q).
  { replace (2 * m2 - 1) with (2 * m2 + -1) by lia.
    rewrite F2Q_plus, F2Q_mult2, F2Q_pred_exp. unfold F2Q at 2.
    change (inject_Z (-1)) with (-1)%Q. ring. }
  assert (Hp : (F2Q (2 * m2 + 1) (e1 - 1) == F2Q m2 e1 + bpow (e1 - 1))%Q).
  { rewrite F2Q_plus, F2Q_mult2, F2Q_pred_exp, F2Q_one. reflexivity. }
  rewrite Hm in H1. rewrite Hp in H2. rewrite Hh in H1, H2.
  pose proof (bpow_pos (-53)) as Hu.
  assert (Hb : (bpow (e1 + 52) * bpow (-53) <= x * bpow (-53))%Q)
    by (apply Qmult_le_compat_r; [exact Hl | apply Qlt_le_weak, Hu]).
  split; lra.
Qed.

Lemma bpow_m53 : (bpow (-53) == 1 # 9007199254740992)%Q.
Proof. reflexivity. Qed.

(** From [n <= v], [v * a <= c (1 + u)] and [w (1 - u) <= a * h]. *)
Lemma chain_upper (n w h c a v u : Q) :
  (0 <= n)%Q -> (0 <= h)%Q -> (0 <= a)%Q ->
  (n <= v)%Q -> (v * a <= c * (1 + u))%Q -> (w * (1 - u) <= a * h)%Q ->
  (n * w * (1 - u) <= c * h * (1 + u))%Q.
Proof.
  intros Hn Hh Ha H1 H2 H3.
  apply Qle_trans with (n * (a * h))%Q.
  - rewrite <- Qmult_assoc. rewrite (Qmult_comm n), (Qmult_comm n).
    apply Qmult_le_compat_r; assumption.
  - apply Qle_trans with (v * a * h)%Q.
    + rewrite Qmult_assoc. apply Qmult_le_compat_r; [|exact Hh].
      apply Qmult_le_compat_r; assumption.
    + assert (E : (c * h * (1 + u) == c * (1 + u) * h)%Q) by ring.
      rewrite E. apply Qmult_le_compat_r; assumption.
Qed.

(** From [v < n'], [c (1 - u) <= v * a] and [a * h <= w (1 + u)]. *)
Lemma chain_lower (n' w h c a v u : Q) :
  (0 <= n')%Q -> (0 < h)%Q -> (0 < a)%Q -> (0 <= w * (1 + u))%Q ->
  (v < n')%Q -> (c * (1 - u) <= v * a)%Q -> (a * h <= w * (1 + u))%Q ->
  (c * h * (1 - u) < n' * w * (1 + u))%Q.
Proof.
  intros Hn Hh Ha Hw H1 H2 H3.
  apply Qle_lt_trans with (v * a * h)%Q.
  - assert (E : (c * h * (1 - u) == c * (1 - u) * h)%Q) by ring.
    rewrite E. apply Qmult_le_compat_r; [assumption | apply Qlt_le_weak, Hh].
  - apply Qlt_le_trans with (n' * (a * h))%Q.
    + rewrite Qmult_assoc. apply Qmult_lt_compat_r; [exact Hh|].
      apply Qmult_lt_compat_r; assumption.
    + rewrite <- Qmult_assoc. rewrite (Qmult_comm n'), (Qmult_comm n').
      apply Qmult_le_compat_r; assumption.
Qed.

(** Two whole numbers within a relative [2^-52] of each other, the larger
    below [2^51], are no more than the rounding of one step apart. *)
Lemma whole_upper N M :
  0 <= M < 2 ^ 51 ->
  (inject_Z N * (1 - bpow (-53)) <= inject_Z M * (1 + bpow (-53)))%Q -> N <= M.
Proof.
  intros HM H. rewrite bpow_m53 in H.
  destruct (Z.le_gt_cases N M) as [|Hgt]; [assumption|exfalso].
  assert (H1 : (inject_Z M + 1 <= inject_Z N)%Q).
  { change 1%Q with (inject_Z 1). rewrite <- inject_Z_plus, <- Zle_Qle. lia. }
  assert (H2 : (inject_Z M < 2251799813685248)%Q).
  { change 2251799813685248%Q with (inject_Z (2 ^ 51)). rewrite <- Zlt_Qlt. lia. }
  assert (H3 : (0 <= inject_Z M)%Q).
  { change 0%Q with (inject_Z 0). rewrite <- Zle_Qle. lia. }
  lra.
Qed.

Lemma whole_lower N M :
  0 <= M < 2 ^ 51 ->
  (inject_Z M * (1 - bpow (-53)) < inject_Z N * (1 + bpow (-53)))%Q -> M <= N.
Proof.
  intros HM H. rewrite bpow_m53 in H.
  destruct (Z.le_gt_cases M N) as [|Hgt]; [assumption|exfalso].
  assert (H1 : (inject_Z N + 1 <= inject_Z M)%Q).
  { change 1%Q with (inject_Z 1). rewrite <- inject_Z_plus, <- Zle_Qle. lia. }
  assert (H2 : (inject_Z M < 2251799813685248)%Q).
  { change 2251799813685248%Q with (inject_Z (2 ^ 51)). rewrite <- Zlt_Qlt. lia. }
  assert (H3 : (0 <= inject_Z M)%Q).
  { change 0%Q with (inject_Z 0). rewrite <- Zle_Qle. lia. }
  lra.
Qed.

Lemma chain_upper_mul (n w h c a v u : Q) :
  (0 <= h)%Q -> (0 <= c)%Q -> (0 <= u)%Q ->
  (n <= v)%Q -> (v <= c * a * (1 + u))%Q -> (a * h <= w * (1 + u))%Q ->
  (n * h <= c * w * (1 + u) * (1 + u))%Q.
Proof.
  intros Hh Hc Hu H1 H2 H3.
  apply Qle_trans with (v * h)%Q; [apply Qmult_le_compat_r; assumption|].
  apply Qle_trans with (c * a * (1 + u) * h)%Q;
    [apply Qmult_le_compat_r; assumption|].
  assert (E1 : (c * a * (1 + u) * h == a * h * (c * (1 + u)))%Q) by ring.
  assert (E2 : (c * w * (1 + u) * (1 + u) == w * (1 + u) * (c * (1 + u)))%Q) by ring.
  rewrite E1, E2. apply Qmult_le_compat_r; [assumption|].
  apply Qmult_le_0_compat; lra.
Qed.

Lemma chain_lower_mul (n' w h c a v u : Q) :
  (0 < h)%Q -> (0 <= c)%Q -> (u <= 1)%Q ->
  (v < n')%Q -> (c * a * (1 - u) <= v)%Q -> (w * (1 - u) <= a * h)%Q ->
  (c * w * (1 - u) * (1 - u) < n' * h)%Q.
Proof.
  intros Hh Hc Hu H1 H2 H3.
  apply Qle_lt_trans with (v * h)%Q; [|apply Qmult_lt_compat_r; assumption].
  apply Qle_trans with (c * a * (1 - u) * h)%Q;
    [|apply Qmult_le_compat_r; [assumption | apply Qlt_le_weak, Hh]].
  assert (E1 : (c * a * (1 - u) * h == a * h * (c * (1 - u)))%Q) by ring.
  assert (E2 : (c * w * (1 - u) * (1 - u) == w * (1 - u) * (c * (1 - u)))%Q) by ring.
  rewrite E1, E2. apply Qmult_le_compat_r; [assumption|].
  apply Qmult_le_0_compat; lra.
Qed.

Lemma whole_upper_mul N M :
  0 <= M < 2 ^ 51 ->
  (inject_Z N <= inject_Z M * (1 + bpow (-53)) * (1 + bpow (-53)))%Q -> N <= M.
Proof.
  intros HM H. rewrite bpow_m53 in H.
  destruct (Z.le_gt_cases N M) as [|Hgt]; [assumption|exfalso].
  assert (H1 : (inject_Z M + 1 <= inject_Z N)%Q).
  { change 1%Q with (inject_Z 1). rewrite <- inject_Z_plus, <- Zle_Qle. lia. }
  assert (H2 : (inject_Z M < 2251799813685248)%Q).
  { change 2251799813685248%Q with (inject_Z (2 ^ 51)). rewrite <- Zlt_Qlt. lia. }
  assert (H3 : (0 <= inject_Z M)%Q).
  { change 0%Q with (inject_Z 0). rewrite <- Zle_Qle. lia. }
  lra.
Qed.

Lemma whole_lower_mul N M :
  0 <= M < 2 ^ 51 ->
  (inject_Z M * (1 - bpow (-53)) * (1 - bpow (-53)) < inject_Z N)%Q -> M <= N.
Proof.
  intros HM H. rewrite bpow_m53 in H.
  destruct (Z.le_gt_cases M N) as [|Hgt]; [assumption|exfalso].
  assert (H1 : (inject_Z N + 1 <= inject_Z M)%Q).
  { change 1%Q with (inject_Z 1). rewrite <- inject_Z_plus, <- Zle_Qle. lia. }
  assert (H2 : (inject_Z M < 2251799813685248)%Q).
  { change 2251799813685248%Q with (inject_Z (2 ^ 51)). rewrite <- Zlt_Qlt. lia. }
  assert (H3 : (0 <= inject_Z M)%Q).
  { change 0%Q with (inject_Z 0). rewrite <- Zle_Qle. lia. }
  lra.
Qed.

Lemma small_product c h : 0 < c < 2 ^ 20 -> dim h -> 0 <= c * h < 2 ^ 51.
Proof.
  intros Hc [Hh1 Hh2]. split; [nia|].
  apply Z.lt_le_trans with (2 ^ 20 * 2 ^ 31); [nia|].
  rewrite <- Z.pow_add_r by lia. apply Z.pow_le_mono_r; lia.
Qed.

Lemma small_dim c : 0 < c < 2 ^ 20 -> dim c.
Proof.
  intros [H1 H2]. split; [exact H1|].
  apply Z.lt_trans with (2 ^ 20); [exact H2|]. apply Z.pow_lt_mono_r; lia.
Qed.

(** X10: on a canvas with sides below [2^20], the default one among them,
    the scaled side is the exact proportional side [c * h / w] rounded down
    to a whole number, or one less than it when it is whole already: the two
    roundings of the double arithmetic never cost more than that one pixel,
    and never add one. *)
Theorem scaled_size_proportional w h cw ch :
  dim w -> dim h -> 0 < cw < 2 ^ 20 -> 0 < ch < 2 ^ 20 ->
  exists nw nh,
    scaled_size w h (cw, ch) = Ok (nw, nh) /\
    (h < w -> nw = cw /\ nh * w <= cw * h <= (nh + 1) * w) /\
    (w <= h -> nh = ch /\ nw * h <= ch * w <= (nw + 1) * h).
Proof.
  intros Hw Hh Hcw Hch.
  destruct (scaled_size_spec w h cw ch Hw Hh (small_dim _ Hcw) (small_dim _ Hch))
    as (ma & ea & mq & eq & n & _ & Hna & _ & _ & Hnq & _ & [Hf1 Hf2] & Hn0 & Hs).
  destruct (dim_Q w Hw) as [Hw1 _]. destruct (dim_Q h Hh) as [Hh1 _].
  destruct (dim_Q cw (small_dim _ Hcw)) as [Hc1 _].
  destruct (dim_Q ch (small_dim _ Hch)) as [Hd1 _].
  pose proof (F2Q_pos (Z.pos ma) ea ltac:(lia)) as Ha.
  apply nearest53_rel in Hna as [Ha1 Ha2]. apply nearest53_rel in Hnq as [Hq1 Hq2].
  set (a := F2Q (Z.pos ma) ea) in *. set (v := F2Q (Z.pos mq) eq) in *.
  pose proof bpow_m53 as Hu. set (u := bpow (-53)) in *.
  assert (Hn : (0 <= inject_Z n)%Q)
    by (change 0%Q with (inject_Z 0); rewrite <- Zle_Qle; exact Hn0).
  assert (Ha1' : (inject_Z w * (1 - u) <= a * inject_Z h)%Q).
  { assert (E : (inject_Z w * (1 - u)
                 == inject_Z w / inject_Z h * (1 - u) * inject_Z h)%Q)
      by (field; lra).
    rewrite E. apply Qmult_le_compat_r; [exact Ha1 | lra]. }
  assert (Ha2' : (a * inject_Z h <= inject_Z w * (1 + u))%Q).
  { assert (E : (inject_Z w * (1 + u)
                 == inject_Z w / inject_Z h * (1 + u) * inject_Z h)%Q)
      by (field; lra).
    rewrite E. apply Qmult_le_compat_r; [exact Ha2 | lra]. }
  rewrite Hs. destruct (Z.ltb_spec h w) as [Hlt|Hge].
  - exists cw, n. split; [reflexivity|]. split; [|lia]. intros _.
    split; [reflexivity|].
    assert (Hq1' : (inject_Z cw * (1 - u) <= v * a)%Q).
    { assert (E : (inject_Z cw * (1 - u) == inject_Z cw / a * (1 - u) * a)%Q)
        by (field; lra).
      rewrite E. apply Qmult_le_compat_r; [exact Hq1 | lra]. }
    assert (Hq2' : (v * a <= inject_Z cw * (1 + u))%Q).
    { assert (E : (inject_Z cw * (1 + u) == inject_Z cw / a * (1 + u) * a)%Q)
        by (field; lra).
      rewrite E. apply Qmult_le_compat_r; [exact Hq2 | lra]. }
    split.
    + apply whole_upper; [apply small_product; assumption|].
      rewrite !inject_Z_mult. fold u.
      apply (chain_upper _ _ _ _ a v); try assumption; lra.
    + apply whole_lower; [apply small_product; assumption|].
      rewrite !inject_Z_mult, inject_Z_plus. fold u.
      change (inject_Z 1) with 1%Q.
      apply (chain_lower _ _ _ _ a v); try assumption; lra.
  - exists n, ch. split; [reflexivity|]. split; [lia|]. intros _.
    split; [reflexivity|]. split.
    + apply whole_upper_mul; [apply small_product; assumption|].
      rewrite !inject_Z_mult. fold u.
      apply (chain_upper_mul _ _ _ _ a v); try assumption; lra.
    + apply whole_lower_mul; [apply small_product; assumption|].
      rewrite !inject_Z_mult, inject_Z_plus. fold u.
      change (inject_Z 1) with 1%Q.
      apply (chain_lower_mul _ _ _ _ a v); try assumption; lra.
Qed.

Lemma scaled_size_proportional_witness :
  exists nw nh,
    scaled_size 800 600 (2500, 2500) = Ok (nw, nh) /\
    (600 < 800 -> nw = 2500 /\ nh * 800 <= 2500 * 600 <= (nh + 1) * 800) /\
    (800 <= 600 -> nh = 2500 /\ nw * 600 <= 2500 * 800 <= (nw + 1) * 600).
Proof.
  apply (scaled_size_proportional 800 600 2500 2500); unfold dim; lia.
Defined.

(** The bound of [scaled_size_proportional] is reached: the proportional
    height of a 25 x 17 source is 1700, and the code gives 1699. *)
Lemma scaled_size_one_pixel_short :
  scaled_size 25 17 default_size = Ok (2500, 1699) /\ 2500 * 17 = 1700 * 25.
Proof. vm_compute. split; reflexivity. Qed.

(** ** Square sources *)

Lemma scaled_size_square_aux w cw ch :
  dim w -> dim cw -> dim ch -> scaled_size w w (cw, ch) = Ok (ch, ch).
Proof.
  intros Hw Hcw Hch.
  destruct (scaled_size_spec w w cw ch Hw Hw Hcw Hch)
    as (ma & ea & mq & eq & n & _ & Hna & _ & _ & Hnq & _ & Hfl & _ & Hs).
  rewrite Hs. rewrite Z.ltb_irrefl in *.
  destruct (dim_Q w Hw) as [Hw1 _].
  assert (Hone : (inject_Z w / inject_Z w == 1)%Q) by (field; lra).
  assert (Ha : (F2Q (Z.pos ma) ea == 1)%Q).
  { rewrite <- Hone. apply nearest53_exact; [exact Hna|].
    exists 1, 0. split; [lia|]. rewrite Hone, F2Q_0. reflexivity. }
  assert (Hprod : (inject_Z ch * F2Q (Z.pos ma) ea == inject_Z ch)%Q)
    by (rewrite Ha; ring).
  assert (Hq : (F2Q (Z.pos mq) eq == inject_Z ch)%Q).
  { rewrite <- Hprod. apply nearest53_exact; [exact Hnq|].
    destruct (dim_representable ch Hch) as (mb & eb & Hmb & Eb).
    exists mb, eb. split; [exact Hmb|]. rewrite Hprod. exact Eb. }
  assert (n = ch); [|congruence].
  apply Z.le_antisymm.
  - apply (floor_of_le _ _ _ Hfl). rewrite Hq. apply Qle_refl.
  - apply (floor_of_ge _ _ _ Hfl). rewrite Hq. apply Qle_refl.
Qed.

(** X11: a square source is scaled to the canvas height on both sides,
    exactly, whatever the canvas width: on a square canvas it fills the
    canvas and no margin is left, on a canvas narrower than high the
    content is wider than the canvas. *)
Theorem scaled_size_square w cw ch :
  dim w -> dim cw -> dim ch ->
  scaled_size w w (cw, ch) = Ok (ch, ch) /\
  forall img, width img = w -> height img = w ->
    resize_image img (ch, ch)
    = Ok (Pasted (Blank ModeRGB ch ch (255, 255, 255)) (Resized img ch ch) 0 0) /\
    margins (Pasted (Blank ModeRGB ch ch (255, 255, 255)) (Resized img ch ch) 0 0)
    = Some (0, 0, 0, 0).
Proof.
  intros Hw Hcw Hch. split; [apply scaled_size_square_aux; assumption|].
  intros img Ew Eh.
  pose proof (scaled_size_square_aux w ch ch Hw Hch Hch) as Hs.
  rewrite <- Ew in Hs at 1. rewrite <- Eh in Hs.
  rewrite (resize_image_of_scaled _ _ _ _ _ Hs).
  destruct Hch as [Hc1 Hc2].
  replace (ch <? 1) with false by (symmetry; apply Z.ltb_ge; lia).
  replace (ch <? 0) with false by (symmetry; apply Z.ltb_ge; lia).
  cbn [orb]. rewrite Z.sub_diag. change (0 `div` 2) with 0.
  split; [reflexivity|]. cbn [margins width height].
  repeat f_equal; lia.
Qed.

Lemma scaled_size_square_witness :
  scaled_size 1024 1024 (1200, 2500) = Ok (2500, 2500) /\
  forall img, width img = 1024 -> height img = 1024 ->
    resize_image img (2500, 2500)
    = Ok (Pasted (Blank ModeRGB 2500 2500 (255, 255, 255)) (Resized img 2500 2500) 0 0) /\
    margins (Pasted (Blank ModeRGB 2500 2500 (255, 255, 255)) (Resized img 2500 2500) 0 0)
    = Some (0, 0, 0, 0).
Proof.
  apply (scaled_size_square 1024 1200 2500); unfold dim; lia.
Defined.

(** ** Processing an output again *)

(** X12: whatever [resize_image] returns for a square canvas can be given
    to it again: the second pass never raises, resamples the first canvas
    at its own size and leaves no margin.  So a folder of outputs, the
    folder [processed_images] of an earlier run, holds no image that is
    dropped for its shape. *)
Theorem resize_image_again img c out :
  dim c -> resize_image img (c, c) = Ok out ->
  resize_image out (c, c)
  = Ok (Pasted (Blank ModeRGB c c (255, 255, 255)) (Resized out c c) 0 0).
Proof.
  intros Hc H. apply resize_image_shape in H as (Ew & Eh & _).
  pose proof (scaled_size_square_aux c c c Hc Hc Hc) as Hs.
  rewrite <- Ew in Hs at 1. rewrite <- Eh in Hs at 1.
  rewrite (resize_image_of_scaled _ _ _ _ _ Hs).
  destruct Hc as [Hc1 Hc2].
  replace (c <? 1) with false by (symmetry; apply Z.ltb_ge; lia).
  replace (c <? 0) with false by (symmetry; apply Z.ltb_ge; lia).
  cbn [orb]. rewrite Z.sub_diag. reflexivity.
Qed.

Lemma resize_image_again_witness :
  exists out,
    resize_image photo (2500, 2500) = Ok out /\
    resize_image out (2500, 2500)
    = Ok (Pasted (Blank ModeRGB 2500 2500 (255, 255, 255)) (Resized out 2500 2500) 0 0).
Proof.
  eexists. split; [vm_compute; reflexivity|].
  apply (resize_image_again photo 2500); [unfold dim; lia | vm_compute; reflexivity].
Defined.
(** ** What the batch leaves in the output folder *)

(** X13: when [process_images] returns for a folder, the output folder in
    place, every path in the list names a file that holds a canvas of
    2500 x 2500 pixels in RGB written by the encoder of the format, also
    where a later file of the batch has written to the same path, and in
    whatever order the tasks have ended. *)
Theorem outputs_exist sched w w1 tmp input out fmt tree :
  makedirs w out = Ok w1 ->
  isfile w input && is_archive_name input = false ->
  w_dirs w1 !! input = Some tree ->
  exists w' results,
    process_images sched w tmp input out fmt = (w', Ok results) /\
    Forall (fun o => holds_canvas w' fmt o = true) results.
Proof.
  intros Hm Hf Hd. rewrite (process_images_directory _ _ _ _ _ _ _ _ Hm Hf Hd).
  eexists _, _. split; [reflexivity|].
  destruct (process_walk_gen out fmt (walk input tree) sched w1 [])
    as (new & recs & H1 & _ & _ & H4 & _).
  rewrite H1. cbn [app]. eapply Forall_impl; [exact H4|].
  intros o [_ Ho]. exact Ho.
Qed.

Lemma outputs_exist_witness :
  exists w' results,
    process_images [[1%nat]] sample_world "/tmp/tmpk3" "/pics" "/out" "webp"
    = (w', Ok results) /\
    Forall (fun o => holds_canvas w' "webp" o = true) results.
Proof.
  apply (outputs_exist [[1%nat]] sample_world sample_world_out "/tmp/tmpk3" "/pics"
           "/out" "webp" sample_tree);
    vm_compute; reflexivity.
Defined.

(** ** Archives *)

Lemma archive_accounting sched w w1 tmp input out fmt members :
  makedirs w out = Ok w1 ->
  w_files w !! input = Some (ZipArchive members true) ->
  is_archive_name input = true ->
  exists w' results recs,
    process_images sched w tmp input out fmt = (w', Ok results) /\
    w_log w' = (w_log w ++ recs)%list /\
    (length results + length recs = length (extracted tmp members))%nat /\
    Forall (fun o => exists p, p ∈ (extracted tmp members).*1 /\
                               o = join out (basename p)) results.
Proof.
  intros Hm Hf Ha. rewrite (process_images_archive _ _ _ _ _ _ _ _ _ Hm Hf Ha).
  rewrite extract_and_process_images_eq.
  destruct (process_walk_gen out fmt (walk tmp (listing members)) sched
              (extracted_world w1 tmp members) [])
    as (new & recs & H1 & H2 & H3 & H4 & _).
  rewrite tasks_walk_listing in *.
  pose proof (makedirs_Ok _ _ _ Hm) as (_ & _ & _ & Hlog & _).
  eexists _, _, recs. split; [reflexivity|].
  rewrite cleanup_log, H1, H2. cbn [app extracted_world w_log]. rewrite Hlog.
  split; [reflexivity|]. split; [rewrite H3; apply length_map|].
  eapply Forall_impl; [exact H4|]. intros o [Ho _]. exact Ho.
Qed.

(** X14: for an archive that opens and extracts, the output folder in
    place, [process_images] returns a list and raises nothing; every member
    of the archive, at whatever depth, is submitted once, and is either in
    the list returned, as the output folder joined with its base name, or
    has left one record in the log. *)
Theorem archive_members_accounted sched w w1 tmp input out fmt members :
  makedirs w out = Ok w1 ->
  w_files w !! input = Some (ZipArchive members true) ->
  is_archive_name input = true ->
  exists w' results recs,
    process_images sched w tmp input out fmt = (w', Ok results) /\
    w_log w' = (w_log w ++ recs)%list /\
    (length results + length recs = length (extracted tmp members))%nat /\
    Forall (fun o => exists p, p ∈ (extracted tmp members).*1 /\
                               o = join out (basename p)) results.
Proof. apply archive_accounting. Qed.

Lemma archive_members_accounted_witness :
  exists w' results recs,
    process_images [[1%nat]] sample_world "/tmp/tmpk3" "/album.zip" "/out" "png"
    = (w', Ok results) /\
    w_log w' = (w_log sample_world ++ recs)%list /\
    (length results + length recs
     = length (extracted "/tmp/tmpk3" sample_archive))%nat /\
    Forall (fun o => exists p, p ∈ (extracted "/tmp/tmpk3" sample_archive).*1 /\
                               o = join "/out" (basename p)) results.
Proof.
  apply (archive_members_accounted [[1%nat]] sample_world sample_world_out "/tmp/tmpk3"
           "/album.zip" "/out" "png" sample_archive); vm_compute; reflexivity.
Defined.

(** A prefix that ends in a separator and lies in [a ++ b], with no
    separator in [b], lies in [a]. *)
Lemma prefix_has_sep t : forall b,
  String.prefix t b = true -> has_sep t = true -> has_sep b = true.
Proof.
  induction t as [|c t IH]; intros b Hp Hs; [discriminate|].
  destruct b as [|c' b]; [discriminate|]. cbn [String.prefix] in Hp.
  destruct (ascii_dec c c') as [<-|]; [|discriminate].
  cbn [has_sep] in *. destruct (is_sep c); [reflexivity|].
  cbn [orb] in *. eapply IH; eassumption.
Qed.

Lemma prefix_sep_free b : forall t a,
  endswith_sep t = true -> has_sep b = false ->
  String.prefix t (a ++ b) = true -> String.prefix t a = true.
Proof.
  intros t a. revert t. induction a as [|c a IH]; intros t Ht Hb Hp.
  - change ("" ++ b) with b in Hp.
    rewrite (prefix_has_sep _ _ Hp (endswith_sep_has_sep _ Ht)) in Hb. discriminate.
  - destruct t as [|c' t]; [discriminate|].
    change (String c a ++ b) with (String c (a ++ b)) in Hp.
    cbn [String.prefix] in *. destruct (ascii_dec c' c); [|discriminate].
    destruct t as [|c'' t]; [destruct a; reflexivity|].
    apply IH; [exact Ht | exact Hb | exact Hp].
Qed.

Lemma under_out_path tmp out p :
  under tmp (out ++ "/") = false -> under tmp (out_path out p) = false.
Proof.
  intros H. unfold under, out_path in *.
  destruct (String.prefix (tmp ++ "/") (join out (basename p))) eqn:E; [|reflexivity].
  rewrite <- H. symmetry.
  assert (Hend : endswith_sep (tmp ++ "/") = true)
    by (rewrite endswith_sep_app by discriminate; reflexivity).
  pose proof (has_sep_basename p) as Hb.
  destruct (join_name out (basename p) (startswith_sep_has_sep _ Hb)) as [J|J];
    rewrite J in E.
  - apply prefix_trans_app. exact (prefix_sep_free _ _ _ Hend Hb E).
  - rewrite <- app_assoc_str in E. exact (prefix_sep_free _ _ _ Hend Hb E).
Qed.

(** X15: when the output folder, in place, does not lie below the
    temporary directory, the outputs of an archive outlive it: once the
    temporary directory is removed, every path returned still names a canvas
    of 2500 x 2500 pixels in RGB written by the encoder of the format, while
    no extracted member is left. *)
Theorem archive_outputs_outlive sched w w1 tmp input out fmt members :
  makedirs w out = Ok w1 ->
  w_files w !! input = Some (ZipArchive members true) ->
  is_archive_name input = true ->
  under tmp (out ++ "/") = false ->
  exists w' results,
    process_images sched w tmp input out fmt = (w', Ok results) /\
    Forall (fun o => holds_canvas w' fmt o = true) results /\
    isdir w' tmp = false /\
    forall p, under tmp p = true -> isfile w' p = false.
Proof.
  intros Hm Hf Ha Hout. rewrite (process_images_archive _ _ _ _ _ _ _ _ _ Hm Hf Ha).
  rewrite extract_and_process_images_eq.
  set (triples := walk tmp (listing members)).
  set (w0 := extracted_world w1 tmp members).
  destruct (process_walk_gen out fmt triples sched w0 [])
    as (new & recs & H1 & _ & _ & H4 & _).
  eexists _, _. split; [reflexivity|]. rewrite H1. cbn [app]. split; [|split].
  - eapply Forall_impl; [exact H4|]. intros o [(p & _ & ->) Ho].
    rewrite (holds_canvas_keep (process_walk sched w0 triples out fmt []).1).
    + exact Ho.
    + apply cleanup_outside, under_out_path, Hout.
  - unfold isdir. rewrite cleanup_dirs. apply bool_decide_eq_false.
    intros [? ?]; discriminate.
  - intros p Hp. unfold isfile. rewrite (cleanup_under _ _ _ Hp).
    apply bool_decide_eq_false. intros [? ?]; discriminate.
Qed.

Lemma archive_outputs_outlive_witness :
  exists w' results,
    process_images [[1%nat]] sample_world "/tmp/tmpk3" "/album.zip" "/out" "png"
    = (w', Ok results) /\
    Forall (fun o => holds_canvas w' "png" o = true) results /\
    isdir w' "/tmp/tmpk3" = false /\
    forall p, under "/tmp/tmpk3" p = true -> isfile w' p = false.
Proof.
  apply (archive_outputs_outlive [[1%nat]] sample_world sample_world_out "/tmp/tmpk3"
           "/album.zip" "/out" "png" sample_archive); vm_compute; reflexivity.
Defined.

(** ** Nothing is removed *)

Lemma foldl_write_keeps l q : forall fs,
  is_Some (fs !! q) -> is_Some (foldl write_file fs l !! q).
Proof.
  induction l as [|[p c] l IH]; intros fs H; [exact H|].
  cbn [foldl]. apply IH. unfold write_file. cbn [fst snd].
  destruct (String.eqb_spec p q) as [->|Hne].
  - rewrite lookup_insert_eq. eauto.
  - rewrite lookup_insert_ne by exact Hne. exact H.
Qed.

(** X16: [process_images] removes no file but those of its temporary
    directory: whatever the input is and however the call ends, a file that
    existed before, outside the temporary directory, exists afterwards; a
    source can be overwritten by an output, never deleted. *)
Theorem no_file_removed sched w tmp input out fmt q :
  under tmp q = false -> isfile w q = true ->
  isfile (process_images sched w tmp input out fmt).1 q = true.
Proof.
  intros Hu Hq. unfold process_images.
  destruct (makedirs w out) as [w1|e] eqn:Hmk; [|exact Hq].
  assert (Hm : isfile w1 q = true) by (rewrite (isfile_makedirs _ _ _ _ Hmk); exact Hq).
  destruct (isfile w1 input && is_archive_name input).
  - destruct (w_files w1 !! input) as [[f i|reason|members intact|]|];
      try exact Hm.
    rewrite extract_and_process_images_eq.
    assert (He : isfile (extracted_world w1 tmp members) q = true).
    { unfold isfile in *. apply bool_decide_eq_true. apply bool_decide_eq_true in Hm.
      cbn [extracted_world w_files]. apply foldl_write_keeps, Hm. }
    destruct intact; cbn [fst];
      (rewrite (isfile_keep _ _ _ (cleanup_outside _ _ _ Hu))); [|exact He].
    destruct (process_walk_gen out fmt (walk tmp (listing members)) sched
                (extracted_world w1 tmp members) [])
      as (_ & _ & _ & _ & _ & _ & (_ & Hk & _) & _).
    apply Hk, He.
  - destruct (isdir w1 input); [|exact Hm].
    destruct (w_dirs w1 !! input) as [tree|]; [|exact Hm].
    destruct (process_walk_gen out fmt (walk input tree) sched w1 [])
      as (_ & _ & _ & _ & _ & _ & (_ & Hk & _) & _).
    destruct (process_walk sched w1 (walk input tree) out fmt []) as [w' l].
    cbn [fst] in *. apply Hk, Hm.
Qed.

Lemma no_file_removed_witness :
  isfile (process_images [[1%nat]] sample_world "/tmp/tmpk3" "/album.zip" "/pics" "jpg").1
         "/pics/photo.png" = true.
Proof.
  apply (no_file_removed [[1%nat]] sample_world "/tmp/tmpk3" "/album.zip" "/pics" "jpg");
    vm_compute; reflexivity.
Defined.

(** ** The format, in any case of letters *)

Lemma lower_ascii_idem c : lower_ascii (lower_ascii c) = lower_ascii c.
Proof. destruct c as [[] [] [] [] [] [] [] []]; reflexivity. Qed.

Lemma lower_idem s : lower (lower s) = lower s.
Proof.
  induction s as [|c s IH]; [reflexivity|].
  cbn [lower]. rewrite lower_ascii_idem, IH. reflexivity.
Qed.

(** X17: the format is matched without regard to the case of its letters:
    a task run with a supported format, however it is spelled, does what
    the task run with the lower-case spelling does, to the file system, to
    the log and in what it returns. *)
Theorem format_case_insensitive w p out fmt orig size :
  supported fmt = true ->
  process_image w p out fmt orig size
  = process_image w p out (lower fmt) orig size.
Proof.
  intros Hs. unfold process_image. rewrite !process_image_body_eq.
  unfold supported, encoder in *. rewrite !lower_idem, Hs. reflexivity.
Qed.

Lemma format_case_insensitive_witness :
  process_image sample_world "/pics/photo.png" "/out" "WebP" "/pics/photo.png"
    default_size
  = process_image sample_world "/pics/photo.png" "/out" (lower "WebP")
      "/pics/photo.png" default_size.
Proof.
  apply (format_case_insensitive sample_world "/pics/photo.png" "/out" "WebP").
  vm_compute. reflexivity.
Defined.

(** ** The two buttons together *)

(** X18: the output folder appears by processing and by nothing else the
    two handlers do.  While it does not exist, a click on "Procesar" with an
    empty input field leaves "Abrir carpeta de salida" with the message that
    the folder does not exist, and so does a click on which [os.makedirs]
    raises; after a click with any other input on which [os.makedirs]
    returns, whether it ended in a count or in an error, the open command is
    run on the folder [processed_images] of the working directory. *)
Theorem open_after_processing sched w tmp cwd input fmt :
  String.eqb input "" = false ->
  String.eqb tmp (join cwd "processed_images") = false ->
  path_exists w (join cwd "processed_images") = false ->
  open_output_folder (process_images_event sched w tmp cwd "" fmt).1 cwd
  = Label "La carpeta de salida no existe." /\
  (forall w1, makedirs w (join cwd "processed_images") = Ok w1 ->
     open_output_folder (process_images_event sched w tmp cwd input fmt).1 cwd
     = System ("open " ++ dquote ++ join cwd "processed_images" ++ dquote)) /\
  (forall e, makedirs w (join cwd "processed_images") = Raise e ->
     open_output_folder (process_images_event sched w tmp cwd input fmt).1 cwd
     = Label "La carpeta de salida no existe.").
Proof.
  intros Hne Htmp Hno. split; [|split].
  - cbn [process_images_event String.eqb fst]. unfold open_output_folder.
    rewrite Hno. reflexivity.
  - intros w1 Hm.
    pose proof (output_folder_kept sched w w1 tmp input (join cwd "processed_images")
                  fmt Hm Htmp) as Hd.
    unfold process_images_event. rewrite Hne.
    destruct (process_images sched w tmp input (join cwd "processed_images") fmt)
      as [w' [l|e]]; cbn [fst] in *; unfold open_output_folder, path_exists;
      rewrite Hd, orb_true_r; reflexivity.
  - intros e He. unfold process_images_event.
    rewrite Hne, (process_images_makedirs_fails _ _ _ _ _ _ _ He). cbn [fst].
    unfold open_output_folder. rewrite Hno. reflexivity.
Qed.

Lemma open_after_processing_witness :
  open_output_folder
    (process_images_event [] sample_world "/tmp/tmpk3" "/home/ana" "" "jpg").1 "/home/ana"
  = Label "La carpeta de salida no existe." /\
  (forall w1, makedirs sample_world (join "/home/ana" "processed_images") = Ok w1 ->
     open_output_folder
       (process_images_event [] sample_world "/tmp/tmpk3" "/home/ana" "/album.rar" "jpg").1
       "/home/ana"
     = System ("open " ++ dquote ++ join "/home/ana" "processed_images" ++ dquote)) /\
  (forall e, makedirs sample_world (join "/home/ana" "processed_images") = Raise e ->
     open_output_folder
       (process_images_event [] sample_world "/tmp/tmpk3" "/home/ana" "/album.rar" "jpg").1
       "/home/ana"
     = Label "La carpeta de salida no existe.").
Proof.
  apply (open_after_processing [] sample_world "/tmp/tmpk3" "/home/ana" "/album.rar" "jpg");
    vm_compute; reflexivity.
Defined.
